(** * Navigation table parsing (src/navigation_table.py)

    A shallow embedding of the module that extracts the rows of a
    navigation table from a markdown page, together with the fragment of
    Python's [re] and [str] machinery the module relies on.

    Strings are lists of 8-bit characters: the development covers pages
    whose code points are below 256, and the character categories
    (whitespace, word, decimal digit, line boundary, printable, lower
    case) follow Python's Unicode tables on that range.

    Integers are unbounded, as in Python; [int] refuses digit texts
    above the interpreter's limit on their length
    (sys.get_int_max_str_digits(), 4300 digits by default). *)

From Stdlib Require Import List Ascii String ZArith NArith Bool Lia Arith.
Import ListNotations.

Local Open Scope char_scope.
Local Open Scope list_scope.

Set Implicit Arguments.

(** ** Strings *)

Definition str := list ascii.

(** A string literal of the source. *)
Definition lit (s : string) : str := list_ascii_of_string s.

Definition ord (c : ascii) : N := N_of_ascii c.

Definition in_range (lo hi : N) (c : ascii) : bool :=
  (lo <=? ord c)%N && (ord c <=? hi)%N.

Definition dquote : ascii := ascii_of_N 34.
Definition squote : ascii := ascii_of_N 39.
Definition backslash : ascii := ascii_of_N 92.
Definition LF : ascii := ascii_of_N 10.
Definition CR : ascii := ascii_of_N 13.
Definition TAB : ascii := ascii_of_N 9.

(** *** Character categories of Python on code points 0..255 *)

(** [str.isspace] and the regex category \s. *)
Definition is_space (c : ascii) : bool :=
  in_range 9 13 c || in_range 28 32 c || (ord c =? 133)%N || (ord c =? 160)%N.

(** Decimal digits, the regex category \d. *)
Definition is_digit (c : ascii) : bool := in_range 48 57 c.

(** Alphanumeric characters: letters, and characters with a digit or
    numeric value. *)
Definition is_alnum (c : ascii) : bool :=
  is_digit c || in_range 65 90 c || in_range 97 122 c
  || (ord c =? 170)%N || (ord c =? 178)%N || (ord c =? 179)%N
  || (ord c =? 181)%N || (ord c =? 185)%N || (ord c =? 186)%N
  || in_range 188 190 c
  || in_range 192 214 c || in_range 216 246 c || in_range 248 255 c.

(** The regex category \w. *)
Definition is_word (c : ascii) : bool := is_alnum c || (c =? "_").

(** Line boundaries of [str.splitlines]. *)
Definition is_linebreak (c : ascii) : bool :=
  in_range 10 13 c || in_range 28 30 c || (ord c =? 133)%N.

(** Simple lower-case mapping. *)
Definition unicode_tolower (c : ascii) : ascii :=
  if in_range 65 90 c
     || (in_range 192 222 c && negb (ord c =? 215)%N)
  then ascii_of_N (ord c + 32) else c.

(** [str.isprintable] on one character. *)
Definition is_printable (c : ascii) : bool :=
  in_range 32 126 c
  || (in_range 161 255 c && negb (ord c =? 173)%N).

(** ** Regular expressions

    The patterns of the module use literals, character sets, repetition of
    a single-character item (greedy or lazy), capture groups and
    concatenation. *)

Inductive category :=
| CATEGORY_SPACE
| CATEGORY_NOT_SPACE
| CATEGORY_WORD
| CATEGORY_DIGIT.

Inductive set_item :=
| CATEGORY (k : category)
| LITERAL (c : ascii)
| RANGE (lo hi : ascii).

(** A single-character item: a literal or a bracketed set. *)
Inductive atom :=
| Lit (c : ascii)
| In_ (items : list set_item).

Inductive regex :=
| Empty
| One (a : atom)
| Repeat (min : nat) (max : option nat) (greedy : bool) (a : atom)
| Group (n : nat) (r : regex)
| Cat (r1 r2 : regex).

(** The escape of a backslash inside a set. *)
Definition class_escape (c : ascii) : set_item :=
  if c =? "w" then CATEGORY CATEGORY_WORD
  else if c =? "s" then CATEGORY CATEGORY_SPACE
  else if c =? "S" then CATEGORY CATEGORY_NOT_SPACE
  else if c =? "d" then CATEGORY CATEGORY_DIGIT
  else LITERAL c.

(** The items of a set, from the text between its brackets: a backslash
    escapes the next character, lo-hi is a range, a hyphen at the end is
    itself. *)
Fixpoint parse_set (s : str) : list set_item :=
  match s with
  | [] => []
  | c :: rest =>
      if c =? backslash then
        match rest with
        | e :: rest' => class_escape e :: parse_set rest'
        | [] => [LITERAL c]
        end
      else
        match rest with
        | d :: hi :: rest' =>
            if d =? "-" then RANGE c hi :: parse_set rest'
            else LITERAL c :: parse_set rest
        | _ => LITERAL c :: parse_set rest
        end
  end.

Definition category_match (k : category) (c : ascii) : bool :=
  match k with
  | CATEGORY_SPACE => is_space c
  | CATEGORY_NOT_SPACE => negb (is_space c)
  | CATEGORY_WORD => is_word c
  | CATEGORY_DIGIT => is_digit c
  end.

Definition set_item_match (ignorecase : bool) (i : set_item) (c : ascii) : bool :=
  match i with
  | CATEGORY k => category_match k c
  | LITERAL l =>
      if ignorecase then (unicode_tolower c =? unicode_tolower l) else (c =? l)
  | RANGE lo hi =>
      in_range (ord lo) (ord hi) c
      || (ignorecase && in_range (ord lo) (ord hi) (unicode_tolower c))
  end.

Definition atom_match (ignorecase : bool) (a : atom) (c : ascii) : bool :=
  match a with
  | Lit l =>
      if ignorecase then (unicode_tolower c =? unicode_tolower l) else (c =? l)
  | In_ items => existsb (fun i => set_item_match ignorecase i c) items
  end.

(** *** The backtracking matcher

    [k] is the rest of the pattern; alternatives are tried in the order of
    the engine and the first success is returned. *)

Definition dec_max (max : option nat) : option nat := option_map pred max.

Definition max_reached (max : option nat) : bool :=
  match max with Some 0 => true | _ => false end.

Section Repeat.
Variable A : Type.
Variable p : ascii -> bool.

(** Greedy repetition: as many characters as possible first, then one
    fewer at a time. *)
Fixpoint rep_greedy (min : nat) (max : option nat) (s : str)
  (k : str -> option A) : option A :=
  let stop := match min with 0 => k s | S _ => None end in
  if max_reached max then stop else
  match s with
  | c :: s' =>
      if p c then
        match rep_greedy (pred min) (dec_max max) s' k with
        | Some a => Some a
        | None => stop
        end
      else stop
  | [] => stop
  end.

(** Lazy repetition: as few characters as possible first, then one more
    at a time. *)
Fixpoint rep_lazy (min : nat) (max : option nat) (s : str)
  (k : str -> option A) : option A :=
  let more :=
    if max_reached max then None else
    match s with
    | c :: s' => if p c then rep_lazy (pred min) (dec_max max) s' k else None
    | [] => None
    end in
  match min with
  | 0 => match k s with Some a => Some a | None => more end
  | S _ => more
  end.
End Repeat.

Definition captures := list (nat * str).

(** The text consumed between [s] and its suffix [s']. *)
Definition consumed (s s' : str) : str := firstn (List.length s - List.length s') s.

Fixpoint exec (A : Type) (ignorecase : bool) (r : regex) (s : str)
  (caps : captures) (k : str -> captures -> option A) : option A :=
  match r with
  | Empty => k s caps
  | One a =>
      match s with
      | c :: s' => if atom_match ignorecase a c then k s' caps else None
      | [] => None
      end
  | Repeat min max greedy a =>
      (if greedy then rep_greedy (A:=A) else rep_lazy (A:=A))
        (atom_match ignorecase a) min max s (fun s' => k s' caps)
  | Group n r' =>
      exec ignorecase r' s caps
        (fun s' caps' => k s' ((n, consumed s s') :: caps'))
  | Cat r1 r2 =>
      exec ignorecase r1 s caps (fun s' caps' => exec ignorecase r2 s' caps' k)
  end.

(** *** Compiled patterns and match objects *)

Record Pattern := re_compile { pattern : regex; IGNORECASE : bool }.

Record Match := { group0 : str; groups : captures }.

Fixpoint lookup (n : nat) (caps : captures) : option str :=
  match caps with
  | [] => None
  | (m, v) :: caps' => if Nat.eqb n m then Some v else lookup n caps'
  end.

(** [match.group(n)]: [None] for a group that took no part in the match. *)
Definition group (m : Match) (n : nat) : option str :=
  match n with
  | 0 => Some (group0 m)
  | _ => lookup n (groups m)
  end.

(** [pattern.match(s)]: a match anchored at the start of [s]. *)
Definition re_match (p : Pattern) (s : str) : option Match :=
  exec (IGNORECASE p) (pattern p) s []
    (fun s' caps => Some {| group0 := consumed s s'; groups := caps |}).

(** ** The fragment of [str] and [int] the module uses *)

(** [str.splitlines()]: the lines of [s] without their boundaries; CR LF
    is one boundary; no empty last line. [cur] is the line being read. *)
Fixpoint splitlines_from (cur s : str) : list str :=
  match s with
  | [] => match cur with [] => [] | _ => [cur] end
  | c :: s' =>
      if is_linebreak c then
        cur ::
          (if c =? CR then
             match s' with
             | d :: s'' =>
                 if d =? LF then splitlines_from [] s''
                 else splitlines_from [] s'
             | [] => splitlines_from [] s'
             end
           else splitlines_from [] s')
      else splitlines_from (cur ++ [c]) s'
  end.

Definition splitlines (s : str) : list str := splitlines_from [] s.

(** [sep.join(lines)]. *)
Fixpoint join (sep : str) (lines : list str) : str :=
  match lines with
  | [] => []
  | [l] => l
  | l :: ls => l ++ sep ++ join sep ls
  end.

Definition digit_value (c : ascii) : Z := Z.of_N (ord c) - 48.

Definition decimal_value (s : str) : Z :=
  fold_left (fun acc c => (10 * acc + digit_value c)%Z) s 0%Z.

(** The interpreter's limit on the number of digits of a text that [int]
    converts: sys.get_int_max_str_digits(), in its default setting. *)
Definition int_max_str_digits : nat := 4300.

(** [int(s)] on a text of decimal digits, the only texts the module hands
    to it; [None] stands for the ValueError, raised on a text that is no
    number and on a digit text longer than the limit. *)
Definition int (s : str) : option Z :=
  match s with
  | [] => None
  | _ =>
      if forallb is_digit s then
        if (List.length s <=? int_max_str_digits)%nat then Some (decimal_value s)
        else None
      else None
  end.

Definition hex_digit (n : N) : ascii :=
  nth (N.to_nat n) (lit "0123456789abcdef") "0".

(** One character of [repr(s)], between quotes [q]. *)
Definition repr_char (q c : ascii) : str :=
  if (c =? q) || (c =? backslash) then [backslash; c]
  else if c =? TAB then [backslash; "t"]
  else if c =? LF then [backslash; "n"]
  else if c =? CR then [backslash; "r"]
  else if is_printable c then [c]
  else [backslash; "x"; hex_digit (ord c / 16); hex_digit (ord c mod 16)].

Definition repr_quote (s : str) : ascii :=
  if existsb (Ascii.eqb squote) s && negb (existsb (Ascii.eqb dquote) s)
  then dquote else squote.

(** [repr(s)] of a string. *)
Definition repr (s : str) : str :=
  let q := repr_quote s in
  q :: flat_map (repr_char q) s ++ [q].



(** [string.punctuation]. *)
Definition string_punctuation : str :=
  lit "!" ++ [dquote] ++ lit "#$%&'()*+,-./:;<=>?@[\]^_`{|}~".

(** ** The module's data *)

(** Modelled from the spec: the value objects Navlink and TableRow of the
    module types_, which is imported by the source but not part of it. *)
Record Navlink := { title : str; link : option str }.

Record TableRow := { level : Z; path : str; navlink : Navlink }.

(** Modelled from the spec: NavigationTableParseError of the module
    exceptions carries a message. TypeError and ValueError are the
    errors of [int]: on a missing group, and on a text that is no number
    or is longer than the limit. *)
Inductive exn :=
| NavigationTableParseError (msg : str)
| TypeError
| ValueError.

(** An iterator is modelled by the outcomes of its successive steps. *)
Definition iterator (A : Type) := list (exn + A).

(** [list(it)]: the items, or the first error raised on the way. *)
Fixpoint consume (A : Type) (it : iterator A) : exn + list A :=
  match it with
  | [] => inr []
  | inl e :: _ => inl e
  | inr a :: it' =>
      match consume it' with
      | inl e => inl e
      | inr l => inr (a :: l)
      end
  end.

(** ** The patterns of the module *)

Fixpoint seq_re (rs : list regex) : regex :=
  match rs with
  | [] => Empty
  | r :: rs' => Cat r (seq_re rs')
  end.

(** A run of literal characters. *)
Definition text (s : string) : regex := seq_re (map (fun c => One (Lit c)) (lit s)).

(** The escaped pipe. *)
Definition pipe : regex := One (Lit "|").

Definition space_set : atom := In_ (parse_set (lit "\s")).
Definition any_set : atom := In_ (parse_set (lit "\s\S")).
Definition digit_set : atom := In_ (parse_set (lit "\d")).
Definition path_set : atom := In_ (parse_set (lit "\w-")).
Definition title_set : atom :=
  In_ (parse_set (lit "\w\- " ++ string_punctuation)).
Definition link_set : atom := In_ (parse_set (lit "\w\/-")).

Definition _WHITESPACE : regex := Repeat 0 None true space_set.

Definition _TABLE_HEADER_REGEX : regex :=
  seq_re [ seq_re [_WHITESPACE; pipe];
           seq_re [_WHITESPACE; text "level"; _WHITESPACE; pipe];
           seq_re [_WHITESPACE; text "path"; _WHITESPACE; pipe];
           seq_re [_WHITESPACE; text "navlink"; _WHITESPACE; pipe; _WHITESPACE] ].

Definition _TABLE_HEADER_PATTERN : Pattern := re_compile _TABLE_HEADER_REGEX true.

Definition _TABLE_PATTERN : Pattern :=
  re_compile
    (seq_re [ Repeat 0 None true any_set; _TABLE_HEADER_REGEX;
              Repeat 0 None true any_set; Repeat 0 (Some 1) true (Lit "|") ])
    true.

Definition _FILLER_ROW_REGEX_COLUMN : regex :=
  seq_re [_WHITESPACE; Repeat 1 None true (Lit "-"); _WHITESPACE; pipe].

Definition _FILLER_ROW_PATTERN : Pattern :=
  re_compile
    (seq_re [ _WHITESPACE; pipe;
              seq_re (repeat _FILLER_ROW_REGEX_COLUMN 3); _WHITESPACE ])
    false.

Definition _LEVEL_REGEX : regex :=
  seq_re [_WHITESPACE; Group 1 (Repeat 1 None true digit_set); _WHITESPACE].

Definition _PATH_REGEX : regex :=
  seq_re [_WHITESPACE; Group 2 (Repeat 1 None true path_set); _WHITESPACE].

Definition _NAVLINK_TITLE_REGEX : regex := Repeat 1 None false title_set.

Definition _NAVLINK_LINK_REGEX : regex := Repeat 0 None true link_set.

Definition _NAVLINK_REGEX : regex :=
  seq_re [ seq_re [ _WHITESPACE; One (Lit "["); _WHITESPACE;
                    Group 3 _NAVLINK_TITLE_REGEX; _WHITESPACE; One (Lit "]");
                    _WHITESPACE ];
           seq_re [ One (Lit "("); _WHITESPACE; Group 4 _NAVLINK_LINK_REGEX;
                    _WHITESPACE; One (Lit ")"); _WHITESPACE ] ].

Definition _ROW_PATTERN : Pattern :=
  re_compile
    (seq_re [ _WHITESPACE; pipe; _LEVEL_REGEX; pipe; _PATH_REGEX; pipe;
              _NAVLINK_REGEX; pipe ])
    false.

(** ** The functions of the module *)

Definition is_not_None (A : Type) (o : option A) : bool :=
  match o with Some _ => true | None => false end.

(** Whether a line is to be left out: a header, a filler, or anything that
    is not a row. *)
Definition _filter_line (line : str) : bool :=
  if is_not_None (re_match _TABLE_HEADER_PATTERN line) then true
  else if is_not_None (re_match _FILLER_ROW_PATTERN line) then true
  else if is_not_None (re_match _ROW_PATTERN line) then false
  else true.

(** [x or None] on an optional text. *)
Definition or_None (x : option str) : option str :=
  match x with
  | Some ((_ :: _) as s) => Some s
  | _ => None
  end.

(** [int(match.group(n))]. *)
Definition int_group (g : option str) : exn + Z :=
  match g with
  | None => inl TypeError
  | Some s => match int s with Some z => inr z | None => inl ValueError end
  end.

Definition invalid_row_message (line : str) : str :=
  lit "Invalid table row, line=" ++ repr line.

(** Parse a markdown table line. [int] of a group that took no part in
    the match is a TypeError. The fields [path] and [title] are texts
    here: the branch for a match without group 2 or 3 stands for a value
    the record cannot hold, and is never taken, since a match of the row
    pattern sets all four groups (lemma [line_to_row_matched]). *)
Definition _line_to_row (line : str) : exn + TableRow :=
  match re_match _ROW_PATTERN line with
  | None => inl (NavigationTableParseError (invalid_row_message line))
  | Some m =>
      match int_group (group m 1) with
      | inl e => inl e
      | inr lvl =>
          match group m 2, group m 3 with
          | Some p, Some t =>
              inr {| level := lvl; path := p;
                     navlink := {| title := t; link := or_None (group m 4) |} |}
          | _, _ => inl TypeError
          end
      end
  end.

(** The rows of the navigation table of a page. *)
Definition from_page (page : str) : iterator TableRow :=
  match re_match _TABLE_PATTERN page with
  | None => []
  | Some m =>
      let table := group0 m in
      map _line_to_row
        (filter (fun line => negb (_filter_line line)) (splitlines table))
  end.

(** ** The example of the specification *)

Definition example_page : str :=
  join [LF]
    [ lit "Some intro text.";
      lit "";
      lit "| Level | Path | Navlink |";
      lit "| -- | -- | -- |";
      lit "| 1 | group-1 | [Group 1]() |";
      lit "| 2 | page-1 | [Page 1](group-1/page-1) |" ].

Definition example_rows : list TableRow :=
  [ {| level := 1; path := lit "group-1";
       navlink := {| title := lit "Group 1"; link := None |} |};
    {| level := 2; path := lit "page-1";
       navlink := {| title := lit "Page 1"; link := Some (lit "group-1/page-1") |} |} ].

(** ** Auxiliary definitions for the proofs *)

Definition all_ascii : list ascii := map ascii_of_nat (seq 0 256).

Definition sp := atom_match false space_set.
Definition dg := atom_match false digit_set.
Definition pa := atom_match false path_set.
Definition ti := atom_match false title_set.
Definition li := atom_match false link_set.

(** ** Declarative reading of a pattern

    [matches ic r x caps caps']: the text [x] is in the language of [r],
    and matching it turns the captures [caps] into [caps']. *)

Definition within (max : option nat) (n : nat) : Prop :=
  match max with Some m => n <= m | None => True end.

Fixpoint matches (ic : bool) (r : regex) (x : str) (caps caps' : captures) : Prop :=
  match r with
  | Empty => x = [] /\ caps' = caps
  | One a => exists c, x = [c] /\ atom_match ic a c = true /\ caps' = caps
  | Repeat min max _ a =>
      Forall (fun c => atom_match ic a c = true) x
      /\ min <= List.length x /\ within max (List.length x) /\ caps' = caps
  | Group n r' => exists c0, matches ic r' x caps c0 /\ caps' = (n, x) :: c0
  | Cat r1 r2 =>
      exists x1 x2 c1,
        x = x1 ++ x2 /\ matches ic r1 x1 caps c1 /\ matches ic r2 x2 c1 caps'
  end.

(** The language of a pattern. *)
Definition lang (ic : bool) (r : regex) (x : str) : Prop :=
  exists caps caps', matches ic r x caps caps'.

(** A text starts with a word of the language: what an anchored match
    looks for. *)
Definition has_prefix_in (ic : bool) (r : regex) (s : str) : Prop :=
  exists x rest, s = x ++ rest /\ lang ic r x.


(** *** The grammars in words

    The layout of a row: twelve runs of whitespace [w 0 .. w 11] around
    the pipes, the cells, the brackets and the parentheses. *)

Definition blank (s : str) : Prop := Forall (fun c => is_space c = true) s.

Definition blanks (w : nat -> str) : Prop := forall i, blank (w i).

Definition row_text (w : nat -> str) (L P T K : str) : str :=
  w 0 ++ "|" :: w 1 ++ L ++ w 2 ++ "|" :: w 3 ++ P ++ w 4 ++ "|" ::
  w 5 ++ "[" :: w 6 ++ T ++ w 7 ++ "]" :: w 8 ++ "(" :: w 9 ++ K ++ w 10 ++
  ")" :: w 11 ++ ["|"].

(** The cells of a row: level digits, path characters, title characters
    (one at least of each) and link characters. *)
Definition cells (L P T K : str) : Prop :=
  (L <> [] /\ Forall (fun c => is_digit c = true) L)
  /\ (P <> [] /\ Forall (fun c => pa c = true) P)
  /\ (T <> [] /\ Forall (fun c => ti c = true) T)
  /\ Forall (fun c => li c = true) K.

(** A line matches the row grammar when it starts with a row. *)
Definition row_grammar (line : str) : Prop :=
  exists w L P T K rest,
    blanks w /\ cells L P T K /\ line = row_text w L P T K ++ rest.

(** The header row: the three names in any case, eight runs of
    whitespace. *)
Definition header_text (w : nat -> str) (l p n : str) : str :=
  w 0 ++ "|" :: w 1 ++ l ++ w 2 ++ "|" :: w 3 ++ p ++ w 4 ++ "|" ::
  w 5 ++ n ++ w 6 ++ "|" :: w 7.

Definition header_grammar (h : str) : Prop :=
  exists w l p n,
    blanks w
    /\ map unicode_tolower l = lit "level"
    /\ map unicode_tolower p = lit "path"
    /\ map unicode_tolower n = lit "navlink"
    /\ h = header_text w l p n.

(** A page contains a header somewhere. *)
Definition has_header (page : str) : Prop :=
  exists a h b, page = a ++ h ++ b /\ header_grammar h.

(** The row a line with the given cells stands for. *)
Definition row_of (lvl : Z) (P T K : str) : TableRow :=
  {| level := lvl; path := P;
     navlink := {| title := T; link := or_None (Some K) |} |}.

(** What [_line_to_row] makes of a match with the given cells: the row,
    or the ValueError of [int] on the level text. *)
Definition row_outcome (L P T K : str) : exn + TableRow :=
  match int L with
  | Some lvl => inr (row_of lvl P T K)
  | None => inl ValueError
  end.

(** A level text that [int] converts: within the limit on digits. *)
Definition level_within_limit (L : str) : Prop :=
  List.length L <= int_max_str_digits.

(** A line that starts with a row whose level text is within the limit. *)
Definition row_grammar_within_limit (line : str) : Prop :=
  exists w L P T K rest,
    blanks w /\ cells L P T K /\ level_within_limit L
    /\ line = row_text w L P T K ++ rest.




(** The filler row: three runs of hyphens, eight runs of whitespace. *)
Definition filler_text (w : nat -> str) (d1 d2 d3 : str) : str :=
  w 0 ++ "|" :: w 1 ++ d1 ++ w 2 ++ "|" :: w 3 ++ d2 ++ w 4 ++ "|" ::
  w 5 ++ d3 ++ w 6 ++ "|" :: w 7.

Definition hyphens (d : str) : Prop := d <> [] /\ Forall (fun c => c = "-") d.

Definition filler_grammar (f : str) : Prop :=
  exists w d1 d2 d3,
    blanks w /\ hyphens d1 /\ hyphens d2 /\ hyphens d3
    /\ f = filler_text w d1 d2 d3.

(** A text without line boundary: one line for [splitlines]. *)
Definition single_line (l : str) : Prop :=
  Forall (fun c => is_linebreak c = false) l.

(** Lines as the module sees them: a line is a header line, a filler line
    or a row line when it starts with a header, a filler or a row. *)
Definition starts_with (G : str -> Prop) (l : str) : Prop :=
  exists x rest, l = x ++ rest /\ G x.


(** The line matches the row pattern. *)
Definition is_row (l : str) : bool := is_not_None (re_match _ROW_PATTERN l).

(** A page with a row line before its header. *)
Definition page_with_early_row : str :=
  join [LF] [ lit "| 1 | early | [Early]() |"; lit "some prose";
              lit "| Level | Path | Navlink |"; lit "| -- | -- | -- |";
              lit "| 2 | late | [Late](late) |" ].


(** A row line whose level has one digit more than [int] converts, and a
    page with a header, a filler and that row. *)
Definition long_level_row : str :=
  lit "| " ++ repeat "1" (S int_max_str_digits) ++ lit " | a | [A]() |".

Definition page_with_long_level : str :=
  join [LF] [ lit "| Level | Path | Navlink |"; lit "| -- | -- | -- |";
              long_level_row ].



(** A level text without its leading zeros. *)
Fixpoint strip_zeros (L : str) : str :=
  match L with
  | c :: L' => if c =? "0" then strip_zeros L' else L
  | [] => []
  end.

Definition value_from (acc : Z) (s : str) : Z :=
  fold_left (fun acc c => (10 * acc + digit_value c)%Z) s acc.

(** A digit text without leading zero. *)
Definition canonical (s : str) : Prop :=
  match s with c :: _ => c <> "0" | [] => True end.


(** *** The row pattern in three parts

    The front of the row pattern up to the opening bracket, and its end
    from the whitespace after the title on; between them stand the
    whitespace before the title and the title group. *)

Definition row_front : regex :=
  seq_re [ _WHITESPACE; pipe;
           _WHITESPACE; Group 1 (Repeat 1 None true digit_set); _WHITESPACE; pipe;
           _WHITESPACE; Group 2 (Repeat 1 None true path_set); _WHITESPACE; pipe;
           _WHITESPACE; One (Lit "[") ].

Definition row_end : regex :=
  seq_re [ _WHITESPACE; One (Lit "]"); _WHITESPACE; One (Lit "("); _WHITESPACE;
           Group 4 _NAVLINK_LINK_REGEX; _WHITESPACE; One (Lit ")"); _WHITESPACE;
           pipe ].

(** The text of the front of a row, and of its end. *)
Definition front_text (w : nat -> str) (L P : str) : str :=
  w 0 ++ "|" :: w 1 ++ L ++ w 2 ++ "|" :: w 3 ++ P ++ w 4 ++ "|" :: w 5 ++ ["["].

Definition end_text (w : nat -> str) (K : str) : str :=
  w 7 ++ "]" :: w 8 ++ "(" :: w 9 ++ K ++ w 10 ++ ")" :: w 11 ++ ["|"].

(** A text starts with the end of a row with link text [K], followed by
    [rest]. *)
Definition end_ok (z K rest : str) : Prop :=
  exists w, blanks w /\ Forall (fun c => li c = true) K /\ z = end_text w K ++ rest.

(** The first character of a text does not satisfy [p]. *)
Definition starts_not (p : ascii -> bool) (s : str) : Prop :=
  match s with c :: _ => p c = false | [] => True end.

(** [pad s s']: the text [s'] is [s] with space characters inserted. *)
Inductive pad : str -> str -> Prop :=
| pad_nil : pad [] []
| pad_keep c s s' : pad s s' -> pad (c :: s) (c :: s')
| pad_ins s s' : pad s s' -> pad s (" " :: s').

(** *** The search for the title

    [kk T s9] stands for the end of the pattern run on the text [s9] that
    follows the title [T]. *)

Definition title_search (A : Type) (kk : str -> str -> option A) (s8 : str)
  : option A :=
  rep_lazy ti 1 None s8 (fun s9 => kk (consumed s8 s9) s9).

Definition nav_search (A : Type) (kk : str -> str -> option A) (s7 : str)
  : option A :=
  rep_greedy sp 0 None s7 (title_search kk).

Definition has_space (w : str) : bool := existsb (fun c => c =? " ") w.

(** The end of the row pattern after the title [T], on the text [s9],
    within a match of [line] that has captured [c7] so far. *)
Definition row_kk (line : str) (c7 : captures) (T s9 : str) : option Match :=
  exec false row_end s9 ((3, T) :: c7)
    (fun s' caps => Some {| group0 := consumed line s'; groups := caps |}).

(** The line boundaries a page can be written with: CR LF, or one
    boundary character. *)
Definition line_boundary (sep : str) : Prop :=
  sep = [CR; LF] \/ exists c, sep = [c] /\ is_linebreak c = true.

(** [wpad s s']: the text [s'] is [s] with whitespace characters of any
    kind inserted. *)
Inductive wpad : str -> str -> Prop :=
| wpad_nil : wpad [] []
| wpad_keep c s s' : wpad s s' -> wpad (c :: s) (c :: s')
| wpad_ins c s s' : is_space c = true -> wpad s s' -> wpad s (c :: s').
(** ** Facts about characters, checked on all 256 of them *)

Lemma all_ascii_complete (c : ascii) : In c all_ascii.
Proof.
  unfold all_ascii. rewrite <- (ascii_nat_embedding c).
  apply in_map, in_seq. pose proof (nat_ascii_bounded c). lia.
Qed.

Lemma forall_ascii (f : ascii -> bool) :
  forallb f all_ascii = true -> forall c, f c = true.
Proof.
  intros H c. rewrite forallb_forall in H. apply H, all_ascii_complete.
Qed.

(** [by_ascii c]: decide a boolean fact about the character [c] by
    enumeration. *)
Ltac by_ascii c :=
  revert c;
  match goal with
  | |- forall c, @?P c = true =>
      apply (forall_ascii P); vm_compute; reflexivity
  end.

Lemma sp_is_space c : sp c = is_space c.
Proof. apply Bool.eqb_prop. by_ascii c. Qed.

Lemma space_set_flag b c : atom_match b space_set c = is_space c.
Proof. destruct b; apply Bool.eqb_prop; by_ascii c. Qed.

Lemma any_set_all b c : atom_match b any_set c = true.
Proof. destruct b; by_ascii c. Qed.

Lemma dg_is_digit c : dg c = is_digit c.
Proof. apply Bool.eqb_prop. by_ascii c. Qed.

(** What the title set holds: word characters, the space, and the
    punctuation characters except the backslash. *)
Lemma ti_spec c :
  ti c = is_word c || (c =? " ")
         || (existsb (Ascii.eqb c) string_punctuation && negb (c =? backslash)).
Proof. apply Bool.eqb_prop. by_ascii c. Qed.

Lemma li_spec c : li c = is_word c || (c =? "/") || (c =? "-").
Proof. apply Bool.eqb_prop. by_ascii c. Qed.

Lemma pa_spec c : pa c = is_word c || (c =? "-").
Proof. apply Bool.eqb_prop. by_ascii c. Qed.

Lemma consumed_app (x s' : str) : consumed (x ++ s') s' = x.
Proof.
  unfold consumed. rewrite length_app.
  replace (List.length x + List.length s' - List.length s') with (List.length x + 0) by lia.
  rewrite firstn_app_2. simpl. apply app_nil_r.
Qed.

Lemma matches_any_caps ic r : forall x caps caps',
  matches ic r x caps caps' -> forall c, exists c', matches ic r x c c'.
Proof.
  induction r; simpl; intros x caps caps' H c.
  - destruct H as [-> _]. eauto.
  - destruct H as (ch & -> & Hm & _). exists c, ch. auto.
  - destruct H as (Hf & Hmin & Hmax & _). exists c. auto.
  - destruct H as (c0 & H & _). destruct (IHr _ _ _ H c) as [c' Hc'].
    exists ((n, x) :: c'), c'. auto.
  - destruct H as (x1 & x2 & c1 & -> & H1 & H2).
    destruct (IHr1 _ _ _ H1 c) as [d1 Hd1].
    destruct (IHr2 _ _ _ H2 d1) as [d2 Hd2].
    exists d2, x1, x2, d1. auto.
Qed.

Section RepeatFacts.
Variable A : Type.
Variable p : ascii -> bool.

Lemma rep_greedy_sound : forall s min max (k : str -> option A) a,
  rep_greedy p min max s k = Some a ->
  exists x rest, s = x ++ rest /\ Forall (fun c => p c = true) x
    /\ min <= List.length x /\ within max (List.length x) /\ k rest = Some a.
Proof.
  assert (Hstop : forall s min max (k : str -> option A) a,
    match min with 0 => k s | S _ => None end = Some a ->
    exists x rest, s = x ++ rest /\ Forall (fun c => p c = true) x
      /\ min <= List.length x /\ within max (List.length x) /\ k rest = Some a).
  { intros s min max k a H. destruct min; [|discriminate].
    exists [], s. simpl. repeat split; auto. destruct max; simpl; lia. }
  induction s as [|c s IH]; intros min max k a H; simpl in H.
  - destruct (max_reached max); apply Hstop; exact H.
  - destruct (max_reached max) eqn:Hmr; [apply Hstop; exact H|].
    destruct (p c) eqn:Hp; [|apply Hstop; exact H].
    destruct (rep_greedy p (pred min) (dec_max max) s k) eqn:Hr;
      [|apply Hstop; exact H].
    inversion H; subst a0. apply IH in Hr.
    destruct Hr as (x & rest & -> & Hf & Hmin & Hmax & Hk).
    exists (c :: x), rest. simpl. repeat split; auto; [lia|].
    destruct max as [[|m]|]; simpl in *; try discriminate; lia.
Qed.

Lemma rep_lazy_sound : forall s min max (k : str -> option A) a,
  rep_lazy p min max s k = Some a ->
  exists x rest, s = x ++ rest /\ Forall (fun c => p c = true) x
    /\ min <= List.length x /\ within max (List.length x) /\ k rest = Some a.
Proof.
  induction s as [|c s IH]; intros min max k a H; simpl in H.
  - destruct min.
    + destruct (k []) eqn:Hk.
      * inversion H; subst. exists [], []. simpl. repeat split; auto.
        destruct max; simpl; lia.
      * destruct (max_reached max); discriminate.
    + destruct (max_reached max); discriminate.
  - assert (Hmore : (if max_reached max then None
                     else if p c then rep_lazy p (pred min) (dec_max max) s k
                          else None) = Some a ->
      exists x rest, c :: s = x ++ rest /\ Forall (fun c => p c = true) x
        /\ min <= List.length x /\ within max (List.length x) /\ k rest = Some a).
    { intro Hm. destruct (max_reached max) eqn:Hmr; [discriminate|].
      destruct (p c) eqn:Hp; [|discriminate].
      apply IH in Hm. destruct Hm as (x & rest & -> & Hf & Hmin & Hmax & Hk).
      exists (c :: x), rest. simpl. repeat split; auto; [lia|].
      destruct max as [[|m]|]; simpl in *; try discriminate; lia. }
    destruct min; [|apply Hmore; exact H].
    destruct (k (c :: s)) eqn:Hk; [|apply Hmore; exact H].
    inversion H; subst. exists [], (c :: s). simpl. repeat split; auto.
    destruct max; simpl; lia.
Qed.

Lemma rep_greedy_complete : forall x min max rest (k : str -> option A),
  Forall (fun c => p c = true) x -> min <= List.length x ->
  within max (List.length x) -> k rest <> None ->
  rep_greedy p min max (x ++ rest) k <> None.
Proof.
  induction x as [|c x IH]; intros min max rest k Hf Hmin Hmax Hk.
  - simpl in Hmin. assert (min = 0) by lia. subst min. simpl.
    destruct rest as [|d rest]; simpl.
    + destruct (max_reached max); exact Hk.
    + destruct (max_reached max); [exact Hk|].
      destruct (p d); [|exact Hk].
      destruct (rep_greedy p 0 (dec_max max) rest k); [discriminate|exact Hk].
  - inversion Hf; subst. simpl.
    assert (Hmr : max_reached max = false).
    { destruct max as [[|m]|]; simpl in *; auto; lia. }
    rewrite Hmr. rewrite H1.
    assert (Hin : rep_greedy p (pred min) (dec_max max) (x ++ rest) k <> None).
    { apply IH; auto; [simpl in Hmin; lia|].
      destruct max as [[|m]|]; simpl in *; auto; lia. }
    destruct (rep_greedy p (pred min) (dec_max max) (x ++ rest) k);
      [discriminate|contradiction].
Qed.

Lemma rep_lazy_complete : forall x min max rest (k : str -> option A),
  Forall (fun c => p c = true) x -> min <= List.length x ->
  within max (List.length x) -> k rest <> None ->
  rep_lazy p min max (x ++ rest) k <> None.
Proof.
  induction x as [|c x IH]; intros min max rest k Hf Hmin Hmax Hk.
  - simpl in Hmin. assert (min = 0) by lia. subst min. simpl.
    destruct rest as [|d rest]; simpl;
      (destruct (k _) eqn:E; [discriminate|contradiction]).
  - inversion Hf; subst.
    assert (Hmr : max_reached max = false).
    { destruct max as [[|m]|]; simpl in *; auto; lia. }
    assert (Hin : rep_lazy p (pred min) (dec_max max) (x ++ rest) k <> None).
    { apply IH; auto; [simpl in Hmin; lia|].
      destruct max as [[|m]|]; simpl in *; auto; lia. }
    simpl. rewrite Hmr, H1.
    destruct min; [destruct (k (c :: x ++ rest)); [discriminate|]|]; exact Hin.
Qed.
End RepeatFacts.

(** Soundness of the matcher: a result comes from a split of the input
    into a word of the pattern and a rest the continuation accepts. *)
Lemma exec_sound (A : Type) ic r : forall s caps (k : str -> captures -> option A) a,
  exec ic r s caps k = Some a ->
  exists x rest caps',
    s = x ++ rest /\ matches ic r x caps caps' /\ k rest caps' = Some a.
Proof.
  induction r; intros s caps k res H; simpl in H.
  - exists [], s, caps. simpl. repeat split; auto.
  - destruct s as [|c s]; [discriminate|].
    destruct (atom_match ic a c) eqn:Hm; [|discriminate].
    exists [c], s, caps. simpl. split; [reflexivity|]. split; [|exact H].
    exists c. auto.
  - assert (Hx : exists x rest, s = x ++ rest
        /\ Forall (fun c => atom_match ic a c = true) x
        /\ min <= List.length x /\ within max (List.length x)
        /\ k rest caps = Some res).
    { destruct greedy; [apply rep_greedy_sound in H|apply rep_lazy_sound in H];
        exact H. }
    destruct Hx as (x & rest & -> & Hf & Hmin & Hmax & Hk).
    exists x, rest, caps. simpl. repeat split; auto.
  - apply IHr in H. destruct H as (x & rest & c0 & -> & Hm & Hk).
    rewrite consumed_app in Hk. exists x, rest, ((n, x) :: c0). simpl.
    split; [reflexivity|]. split; [exists c0; auto|exact Hk].
  - apply IHr1 in H. destruct H as (x1 & rest1 & c1 & -> & Hm1 & H).
    apply IHr2 in H. destruct H as (x2 & rest & c2 & -> & Hm2 & Hk).
    exists (x1 ++ x2), rest, c2. rewrite app_assoc. simpl.
    repeat split; auto. exists x1, x2, c1. auto.
Qed.

(** Completeness of the matcher: with a continuation that accepts the
    rest, a word of the pattern in front of it is found (possibly through
    another split). *)
Lemma exec_complete (A : Type) ic r : forall x caps caps',
  matches ic r x caps caps' ->
  forall rest c (k : str -> captures -> option A),
    (forall c', k rest c' <> None) -> exec ic r (x ++ rest) c k <> None.
Proof.
  induction r; intros x caps caps' H rest c k Hk; simpl in H; simpl.
  - destruct H as [-> _]. apply Hk.
  - destruct H as (ch & -> & Hm & _). simpl. rewrite Hm. apply Hk.
  - destruct H as (Hf & Hmin & Hmax & _).
    destruct greedy; [apply rep_greedy_complete|apply rep_lazy_complete]; auto.
  - destruct H as (c0 & H & _). eapply IHr; [exact H|].
    intros c'. apply Hk.
  - destruct H as (x1 & x2 & c1 & -> & H1 & H2). rewrite <- app_assoc.
    eapply IHr1; [exact H1|]. intros c'.
    destruct (matches_any_caps _ _ _ _ _ H2 c') as [d Hd].
    eapply IHr2; [exact Hd|exact Hk].
Qed.

(** An anchored match succeeds exactly on the texts that start with a word
    of the pattern. *)
Lemma re_match_iff (p : Pattern) (s : str) :
  re_match p s <> None <-> has_prefix_in (IGNORECASE p) (pattern p) s.
Proof.
  unfold re_match, has_prefix_in, lang. split.
  - intro H. destruct (exec _ _ _ _ _) as [m|] eqn:E; [|contradiction].
    apply exec_sound in E. destruct E as (x & rest & caps' & -> & Hm & _).
    eauto 6.
  - intros (x & rest & -> & c0 & c1 & Hm).
    destruct (matches_any_caps _ _ _ _ _ Hm []) as [d Hd].
    eapply exec_complete; eauto. discriminate.
Qed.

(** The match object of a successful match: the matched text is a word of
    the pattern at the start of the input, with the captures of one of its
    readings. *)
Lemma re_match_sound (p : Pattern) (s : str) (m : Match) :
  re_match p s = Some m ->
  exists rest, s = group0 m ++ rest
    /\ matches (IGNORECASE p) (pattern p) (group0 m) [] (groups m).
Proof.
  unfold re_match. intro H. apply exec_sound in H.
  destruct H as (x & rest & caps' & -> & Hm & Hk).
  rewrite consumed_app in Hk. inversion Hk; subst m. simpl. eauto.
Qed.

(** ** The grammars of the three line patterns *)

Lemma blank_sp (b : bool) (x : str) :
  Forall (fun c => atom_match b space_set c = true) x -> blank x.
Proof.
  unfold blank. apply Forall_impl. intros c. now rewrite space_set_flag.
Qed.

Lemma sp_blank (b : bool) (x : str) :
  blank x -> Forall (fun c => atom_match b space_set c = true) x.
Proof.
  unfold blank. apply Forall_impl. intros c. now rewrite space_set_flag.
Qed.

Ltac unfold_patterns :=
  unfold _ROW_PATTERN, _TABLE_HEADER_PATTERN, _FILLER_ROW_PATTERN,
    _TABLE_PATTERN, _TABLE_HEADER_REGEX, _FILLER_ROW_REGEX_COLUMN,
    _LEVEL_REGEX, _PATH_REGEX, _NAVLINK_REGEX, _NAVLINK_TITLE_REGEX,
    _NAVLINK_LINK_REGEX, _WHITESPACE, pipe, text in *;
  cbn [pattern IGNORECASE seq_re repeat map lit list_ascii_of_string matches] in *.

(** Literal characters met by a case-sensitive match are replaced by
    themselves. *)
Ltac subst_literals :=
  repeat match goal with
  | H : atom_match false (Lit _) ?c = true |- _ =>
      cbn [atom_match] in H; apply Ascii.eqb_eq in H; subst c
  end.

Ltac blank_hyps :=
  repeat match goal with
  | H : Forall (fun c => atom_match _ space_set c = true) _ |- _ =>
      apply blank_sp in H
  end.

Lemma nonempty_length (A : Type) (l : list A) : 1 <= List.length l -> l <> [].
Proof. destruct l; simpl; [lia|discriminate]. Qed.

Lemma length_nonempty (A : Type) (l : list A) : l <> [] -> 1 <= List.length l.
Proof. destruct l; simpl; [contradiction|lia]. Qed.

Lemma Forall_dg (x : str) :
  Forall (fun c => atom_match false digit_set c = true) x <->
  Forall (fun c => is_digit c = true) x.
Proof.
  split; apply Forall_impl; intros c; fold (dg c); now rewrite dg_is_digit.
Qed.

Ltac solve_blanks :=
  let i := fresh "i" in
  intro i;
  do 13 (destruct i as [|i]; [cbn [nth]; first [assumption|constructor]|]);
  cbn [nth]; constructor.

Ltac normalize_text E :=
  repeat (progress (repeat rewrite <- app_assoc in E; cbn [app] in E;
                    repeat rewrite app_nil_r in E)).

Ltac norm_app :=
  repeat (progress (repeat rewrite <- app_assoc; cbn [app];
                    repeat rewrite app_nil_r)).

Lemma row_matches_inv x caps :
  matches false (pattern _ROW_PATTERN) x [] caps ->
  exists w L P T K,
    (x = row_text w L P T K /\ caps = [(4, K); (3, T); (2, P); (1, L)])
    /\ blanks w /\ cells L P T K.
Proof.
  intro H. unfold_patterns.
  decompose [ex and] H; clear H; subst. subst_literals. blank_hyps.
  match goal with
  | |- exists w L P T K, (?X = _ /\ _) /\ _ => remember X as y eqn:E
  end.
  normalize_text E.
  eexists (fun i => nth i [_; _; _; _; _; _; _; _; _; _; _; _] []).
  do 4 eexists. split; [split|split].
  - unfold row_text. cbn [nth]. exact E.
  - reflexivity.
  - solve_blanks.
  - unfold cells, pa, ti, li. rewrite <- Forall_dg.
    repeat split; auto; apply nonempty_length; assumption.
Qed.

Lemma m_cat b r1 r2 x1 x2 c c1 c2 :
  matches b r1 x1 c c1 -> matches b r2 x2 c1 c2 ->
  matches b (Cat r1 r2) (x1 ++ x2) c c2.
Proof. intros H1 H2. simpl. exists x1, x2, c1. auto. Qed.

Lemma m_empty b c : matches b Empty [] c c.
Proof. simpl. auto. Qed.

Lemma m_lit ch c : matches false (One (Lit ch)) [ch] c c.
Proof. simpl. exists ch. rewrite Ascii.eqb_refl. auto. Qed.

Lemma m_rep b min g a x c :
  Forall (fun ch => atom_match b a ch = true) x -> min <= List.length x ->
  matches b (Repeat min None g a) x c c.
Proof. intros. simpl. auto. Qed.

Lemma m_blank b x c : blank x -> matches b (Repeat 0 None true space_set) x c c.
Proof. intro H. apply m_rep; [apply sp_blank, H|lia]. Qed.

Lemma m_group b n r x c c0 :
  matches b r x c c0 -> matches b (Group n r) x c ((n, x) :: c0).
Proof. intro H. simpl. exists c0. auto. Qed.

Lemma matches_text b r x y c c' : matches b r y c c' -> y = x -> matches b r x c c'.
Proof. intros H <-. exact H. Qed.

Ltac unfold_regex :=
  unfold _ROW_PATTERN, _TABLE_HEADER_PATTERN, _FILLER_ROW_PATTERN,
    _TABLE_PATTERN, _TABLE_HEADER_REGEX, _FILLER_ROW_REGEX_COLUMN,
    _LEVEL_REGEX, _PATH_REGEX, _NAVLINK_REGEX, _NAVLINK_TITLE_REGEX,
    _NAVLINK_LINK_REGEX, _WHITESPACE, pipe, text;
  cbn [pattern IGNORECASE seq_re repeat map lit list_ascii_of_string].

(** Build a word of a pattern piece by piece; [Hw] gives the whitespace
    runs. *)
Ltac build_word Hw :=
  repeat first
    [ eapply m_cat
    | apply m_empty
    | apply m_lit
    | apply m_group
    | apply m_blank; apply Hw
    | apply m_rep; [eassumption|assumption] ].

Lemma row_text_matches w L P T K :
  blanks w -> cells L P T K ->
  matches false (pattern _ROW_PATTERN) (row_text w L P T K) []
    [(4, K); (3, T); (2, P); (1, L)].
Proof.
  intros Hw ((HL & HLd) & (HP & HPp) & (HT & HTt) & HK).
  apply Forall_dg in HLd. apply length_nonempty in HL, HP, HT.
  assert (H0 : 0 <= List.length K) by lia.
  unfold pa in HPp. unfold ti in HTt. unfold li in HK.
  unfold_regex. eapply matches_text.
  - build_word Hw.
  - unfold row_text. norm_app. reflexivity.
Qed.

Lemma row_grammar_iff (line : str) :
  row_grammar line <-> has_prefix_in false (pattern _ROW_PATTERN) line.
Proof.
  unfold row_grammar, has_prefix_in, lang. split.
  - intros (w & L & P & T & K & rest & Hw & Hc & ->).
    exists (row_text w L P T K), rest. split; [reflexivity|].
    exists [], [(4, K); (3, T); (2, P); (1, L)]. now apply row_text_matches.
  - intros (x & rest & -> & c & c' & H).
    destruct (matches_any_caps _ _ _ _ _ H []) as [d Hd].
    apply row_matches_inv in Hd.
    destruct Hd as (w & L & P & T & K & (-> & _) & Hw & Hc).
    exists w, L, P, T, K, rest. auto.
Qed.

(** ** What a matched row gives *)

Lemma forallb_Forall_true (A : Type) (f : A -> bool) (l : list A) :
  forallb f l = true <-> Forall (fun c => f c = true) l.
Proof. rewrite forallb_forall, Forall_forall. reflexivity. Qed.

Lemma int_digits (L : str) :
  L <> [] -> Forall (fun c => is_digit c = true) L -> level_within_limit L ->
  int L = Some (decimal_value L).
Proof.
  intros HL Hd Hlen. unfold int. destruct L; [contradiction|].
  apply forallb_Forall_true in Hd. rewrite Hd.
  apply Nat.leb_le in Hlen. now rewrite Hlen.
Qed.

Lemma int_Some (L : str) (z : Z) :
  int L = Some z -> z = decimal_value L /\ level_within_limit L.
Proof.
  unfold int, level_within_limit. destruct L as [|c L]; [discriminate|].
  destruct (forallb is_digit (c :: L)); [|discriminate].
  destruct (List.length (c :: L) <=? int_max_str_digits)%nat eqn:E; [|discriminate].
  apply Nat.leb_le in E. intro H. inversion H. auto.
Qed.

Lemma int_None (L : str) :
  L <> [] -> Forall (fun c => is_digit c = true) L -> int L = None ->
  ~ level_within_limit L.
Proof.
  intros HL Hd H Hlen. now rewrite (int_digits HL Hd Hlen) in H.
Qed.

(** The two outcomes of a matched line. *)
Lemma row_outcome_ok (L P T K : str) :
  L <> [] -> Forall (fun c => is_digit c = true) L -> level_within_limit L ->
  row_outcome L P T K = inr (row_of (decimal_value L) P T K).
Proof. intros HL Hd Hlen. unfold row_outcome. now rewrite (int_digits HL Hd Hlen). Qed.

Lemma row_outcome_inr (L P T K : str) (row : TableRow) :
  row_outcome L P T K = inr row ->
  row = row_of (decimal_value L) P T K /\ level_within_limit L
  /\ int L = Some (decimal_value L).
Proof.
  unfold row_outcome. destruct (int L) as [z|] eqn:E; [|discriminate].
  intro H. inversion H. apply int_Some in E. destruct E as [-> E]. auto.
Qed.

Lemma row_outcome_inl (L P T K : str) (e : exn) :
  row_outcome L P T K = inl e -> e = ValueError /\ int L = None.
Proof.
  unfold row_outcome. destruct (int L) as [z|] eqn:E; [discriminate|].
  intro H. inversion H. auto.
Qed.

Lemma row_outcome_cases (L P T K : str) :
  (exists row, row_outcome L P T K = inr row) \/ row_outcome L P T K = inl ValueError.
Proof. unfold row_outcome. destruct (int L); eauto. Qed.

(** A successful match of the row pattern: the matched text is a row
    [row_text w L P T K] at the start of the line and the four groups are
    its cells. *)
Lemma row_match_inv (line : str) (m : Match) :
  re_match _ROW_PATTERN line = Some m ->
  exists w L P T K rest,
    line = row_text w L P T K ++ rest
    /\ m = {| group0 := row_text w L P T K;
              groups := [(4, K); (3, T); (2, P); (1, L)] |}
    /\ blanks w /\ cells L P T K.
Proof.
  intro H. apply re_match_sound in H. destruct H as (rest & Hl & Hm).
  apply row_matches_inv in Hm.
  destruct Hm as (w & L & P & T & K & (Hg & Hc) & Hw & Hcells).
  exists w, L, P, T, K, rest. destruct m as [g0 gs]. simpl in *. subst.
  auto.
Qed.

Lemma or_None_Some (K : str) :
  or_None (Some K) = match K with [] => None | _ => Some K end.
Proof. destruct K; reflexivity. Qed.

(** The row made from a match object with the four cells. *)
Lemma line_to_row_of_match line g0 L P T K :
  re_match _ROW_PATTERN line =
    Some {| group0 := g0; groups := [(4, K); (3, T); (2, P); (1, L)] |} ->
  _line_to_row line = row_outcome L P T K.
Proof.
  intros H. unfold _line_to_row. rewrite H. cbn [group groups lookup Nat.eqb int_group].
  unfold row_outcome, row_of. destruct (int L); reflexivity.
Qed.

Lemma line_to_row_matched line m :
  re_match _ROW_PATTERN line = Some m ->
  exists L P T K,
    groups m = [(4, K); (3, T); (2, P); (1, L)] /\ cells L P T K
    /\ _line_to_row line = row_outcome L P T K.
Proof.
  intro H. destruct (row_match_inv _ H) as (w & L & P & T & K & rest & Hl & Hm & Hw & Hc).
  exists L, P, T, K. subst m. simpl. repeat split; try apply Hc.
  eapply line_to_row_of_match. exact H.
Qed.

Lemma line_to_row_unmatched line :
  re_match _ROW_PATTERN line = None ->
  _line_to_row line = inl (NavigationTableParseError (invalid_row_message line)).
Proof. intro H. unfold _line_to_row. now rewrite H. Qed.

(** A line the row pattern matches gives a row or the ValueError of
    [int], never the parse error. *)
Lemma matched_outcome line m :
  re_match _ROW_PATTERN line = Some m ->
  (exists row, _line_to_row line = inr row) \/ _line_to_row line = inl ValueError.
Proof.
  intro H. destruct (line_to_row_matched _ H) as (L & P & T & K & _ & _ & ->).
  apply row_outcome_cases.
Qed.

Lemma filter_line_false (line : str) :
  _filter_line line = false -> re_match _ROW_PATTERN line <> None.
Proof.
  unfold _filter_line.
  destruct (re_match _TABLE_HEADER_PATTERN line); [discriminate|].
  destruct (re_match _FILLER_ROW_PATTERN line); [discriminate|].
  destruct (re_match _ROW_PATTERN line); [discriminate|]. simpl. discriminate.
Qed.

Lemma kept_lines_parse (lines : list str) :
  Forall (fun o => (exists row, o = inr row) \/ o = inl ValueError)
    (map _line_to_row (filter (fun line => negb (_filter_line line)) lines)).
Proof.
  induction lines as [|l ls IH]; [constructor|].
  simpl. destruct (_filter_line l) eqn:Hf; simpl; [exact IH|].
  apply filter_line_false in Hf.
  destruct (re_match _ROW_PATTERN l) as [m|] eqn:Hm; [|contradiction].
  constructor; [|exact IH]. exact (matched_outcome _ Hm).
Qed.

Lemma consume_error (A : Type) (it : iterator A) (e : exn) :
  consume it = inl e -> In (inl e) it.
Proof.
  induction it as [|[e'|a] it IH]; simpl; [discriminate| |].
  - intro H. inversion H. now left.
  - destruct (consume it); [|discriminate]. intro H. inversion H; subst. auto.
Qed.

Lemma consume_rows (A : Type) (rows : list A) : consume (map inr rows) = inr rows.
Proof. induction rows; simpl; [reflexivity|]. now rewrite IHrows. Qed.

(** ** The header grammar and the table pattern *)

Lemma tolower_pipe c : (unicode_tolower c =? unicode_tolower "|") = true -> c = "|".
Proof.
  intro H. apply Ascii.eqb_eq. revert H.
  generalize c. clear c.
  assert (G : forall c, implb (unicode_tolower c =? unicode_tolower "|") (c =? "|") = true).
  { intro c. by_ascii c. }
  intros c H. specialize (G c). rewrite H in G. exact G.
Qed.

Ltac subst_literals_ic :=
  repeat match goal with
  | H : atom_match true (Lit "|") ?c = true |- _ =>
      cbn [atom_match] in H; apply tolower_pipe in H; subst c
  | H : atom_match true (Lit _) ?c = true |- _ =>
      cbn [atom_match] in H; apply Ascii.eqb_eq in H;
      change (unicode_tolower ?l) with l in H at 2
  end.

Lemma header_matches_inv x caps caps' :
  matches true _TABLE_HEADER_REGEX x caps caps' -> header_grammar x.
Proof.
  intro H. unfold_patterns.
  decompose [ex and] H; clear H; subst. subst_literals_ic. blank_hyps.
  match goal with
  | |- header_grammar ((?a ++ _) ++ (?b ++ ?l ++ ?c ++ _) ++ (?d ++ ?p ++ ?e ++ _)
                       ++ (?f ++ ?n ++ ?g ++ _ ++ ?h ++ _) ++ _) =>
      exists (fun i => nth i [a; b; c; d; e; f; g; h] []), l, p, n
  end.
  split; [solve_blanks|].
  cbn [map app].
  repeat match goal with
  | H : unicode_tolower ?x = _ |- _ => rewrite !H; clear H
  end.
  repeat split.
  unfold header_text. cbn [nth]. norm_app. reflexivity.
Qed.

Lemma m_text (s : string) (x : str) c :
  map unicode_tolower x = map unicode_tolower (lit s) ->
  matches true (text s) x c c.
Proof.
  unfold text. generalize (lit s). clear s. intro s. revert x.
  induction s as [|a s IH]; intros x H; destruct x as [|b x]; try discriminate.
  - apply m_empty.
  - simpl in H. inversion H. cbn [map seq_re].
    change (b :: x) with ([b] ++ x). eapply m_cat; [|apply IH; assumption].
    simpl. exists b. split; [reflexivity|]. split; [|reflexivity].
    apply Ascii.eqb_eq. assumption.
Qed.

Lemma m_lit_ic ch c :
  matches true (One (Lit ch)) [ch] c c.
Proof. simpl. exists ch. rewrite Ascii.eqb_refl. auto. Qed.

Lemma header_text_matches w l p n caps :
  blanks w ->
  map unicode_tolower l = lit "level" ->
  map unicode_tolower p = lit "path" ->
  map unicode_tolower n = lit "navlink" ->
  matches true _TABLE_HEADER_REGEX (header_text w l p n) caps caps.
Proof.
  intros Hw Hl Hp Hn.
  unfold _TABLE_HEADER_REGEX, _WHITESPACE, pipe. cbn [seq_re].
  eapply matches_text.
  - repeat first
      [ apply m_text; first [exact Hl|exact Hp|exact Hn]
      | eapply m_cat
      | apply m_empty
      | apply m_blank; apply Hw
      | apply m_lit_ic ].
  - unfold header_text. norm_app. reflexivity.
Qed.

Lemma header_grammar_iff (h : str) :
  header_grammar h <-> lang true _TABLE_HEADER_REGEX h.
Proof.
  split.
  - intros (w & l & p & n & Hw & Hl & Hp & Hn & ->).
    exists [], []. now apply header_text_matches.
  - intros (c & c' & H). eapply header_matches_inv; eauto.
Qed.

Lemma rep_greedy_all (A : Type) (p : ascii -> bool) (k : str -> option A) a :
  (forall c, p c = true) -> k [] = Some a ->
  forall s, rep_greedy p 0 None s k = Some a.
Proof.
  intros Hp Hk. induction s as [|c s IH]; simpl; [exact Hk|].
  now rewrite Hp, IH.
Qed.

Lemma consumed_all (s : str) : consumed s [] = s.
Proof. rewrite <- (app_nil_r s) at 1. apply consumed_app. Qed.

(** A match of the table pattern spans the whole page. *)
Lemma table_match_whole (page : str) (m : Match) :
  re_match _TABLE_PATTERN page = Some m -> group0 m = page.
Proof.
  unfold re_match, _TABLE_PATTERN. cbn [pattern IGNORECASE seq_re exec].
  intro H. apply rep_greedy_sound in H.
  destruct H as (x & rest & _ & _ & _ & _ & H).
  apply exec_sound in H. destruct H as (h & rest' & caps' & _ & _ & H).
  rewrite (@rep_greedy_all _ _ _ {| group0 := page; groups := caps' |}) in H.
  - now inversion H.
  - apply any_set_all.
  - simpl. now rewrite consumed_all.
Qed.

Lemma table_matches_iff (x : str) :
  lang true (pattern _TABLE_PATTERN) x <->
  exists a h b o, x = a ++ h ++ b ++ o /\ header_grammar h /\ (o = [] \/ o = ["|"]).
Proof.
  unfold lang, _TABLE_PATTERN. cbn [pattern seq_re matches]. split.
  - intros (c & c' & H). decompose [ex and] H; clear H; subst.
    match goal with H : matches true _TABLE_HEADER_REGEX ?h _ _ |- _ =>
      apply header_matches_inv in H end.
    match goal with
    | |- exists a h b o, ?a' ++ ?h' ++ ?b' ++ ?o' ++ [] = _ /\ _ =>
        exists a', h', b', o'
    end.
    rewrite app_nil_r. split; [reflexivity|]. split; [assumption|].
    match goal with H : Forall _ ?o, H1 : within (Some 1) _ |- _ =>
      destruct o as [|c1 [|c2 o]]; simpl in H1; try lia; auto;
      inversion H as [|? ? Hc _]; subst; apply tolower_pipe in Hc; subst; auto
    end.
  - intros (a & h & b & o & -> & Hh & Ho).
    destruct Hh as (w & l & p & n & Hw & Hl & Hp & Hn & ->).
    exists [], []. exists a, (header_text w l p n ++ b ++ o), [].
    split; [reflexivity|]. split.
    { repeat split; [|lia]. apply Forall_forall. intros. apply any_set_all. }
    exists (header_text w l p n), (b ++ o), []. split; [reflexivity|].
    split; [now apply header_text_matches|].
    exists b, o, []. split; [reflexivity|]. split.
    { repeat split; [|lia]. apply Forall_forall. intros. apply any_set_all. }
    exists o, [], []. rewrite app_nil_r. split; [reflexivity|]. split; [|auto].
    destruct Ho as [-> | ->]; simpl; repeat split; auto; lia.
Qed.

(** The table pattern matches exactly the pages that contain a header. *)
Lemma table_match_iff (page : str) :
  re_match _TABLE_PATTERN page <> None <-> has_header page.
Proof.
  rewrite re_match_iff. unfold has_prefix_in, has_header. split.
  - intros (x & rest & -> & H). apply table_matches_iff in H.
    destruct H as (a & h & b & o & -> & Hh & _).
    exists a, h, (b ++ o ++ rest). split; [|assumption].
    now rewrite <- !app_assoc.
  - intros (a & h & b & -> & Hh). exists (a ++ h ++ b), [].
    split; [now rewrite app_nil_r|].
    apply table_matches_iff. exists a, h, b, []. rewrite app_nil_r. auto.
Qed.

(** [ascii_fact f c G]: the fact [G : f c = true], by enumeration. *)
Ltac ascii_fact f c G :=
  pose proof (@forall_ascii f ltac:(vm_compute; reflexivity) c) as G;
  cbv beta in G.

(** ** The filler grammar *)

Lemma Forall_hyphen (x : str) :
  Forall (fun c => atom_match false (Lit "-") c = true) x <-> Forall (fun c => c = "-") x.
Proof.
  split; apply Forall_impl; intros c; cbn [atom_match]; apply Ascii.eqb_eq.
Qed.

Lemma filler_matches_inv x caps caps' :
  matches false (pattern _FILLER_ROW_PATTERN) x caps caps' -> filler_grammar x.
Proof.
  intro H. unfold_patterns.
  decompose [ex and] H; clear H; subst. subst_literals. blank_hyps.
  repeat match goal with
  | H : Forall (fun c => atom_match false (Lit "-") c = true) _ |- _ =>
      apply Forall_hyphen in H
  end.
  match goal with
  | |- filler_grammar (?a ++ _ ++ ((?b ++ ?d1 ++ ?c ++ _) ++ (?d ++ ?d2 ++ ?e ++ _)
                       ++ (?f ++ ?d3 ++ ?g ++ _) ++ _) ++ ?h ++ _) =>
      exists (fun i => nth i [a; b; c; d; e; f; g; h] []), d1, d2, d3
  end.
  split; [solve_blanks|]. unfold hyphens.
  repeat split; auto; try (apply nonempty_length; assumption).
  unfold filler_text. cbn [nth]. norm_app. reflexivity.
Qed.

Lemma filler_column_matches a d b c :
  blank a -> hyphens d -> blank b ->
  matches false _FILLER_ROW_REGEX_COLUMN (a ++ d ++ b ++ ["|"]) c c.
Proof.
  intros Ha [N H] Hb. apply Forall_hyphen in H. apply length_nonempty in N.
  unfold _FILLER_ROW_REGEX_COLUMN, _WHITESPACE, pipe. cbn [seq_re].
  eapply matches_text.
  - eapply m_cat; [apply m_blank, Ha|].
    eapply m_cat; [apply m_rep; [exact H|exact N]|].
    eapply m_cat; [apply m_blank, Hb|].
    eapply m_cat; [apply m_lit|apply m_empty].
  - norm_app. reflexivity.
Qed.

Lemma filler_text_matches w d1 d2 d3 caps :
  blanks w -> hyphens d1 -> hyphens d2 -> hyphens d3 ->
  matches false (pattern _FILLER_ROW_PATTERN) (filler_text w d1 d2 d3) caps caps.
Proof.
  intros Hw H1 H2 H3.
  unfold _FILLER_ROW_PATTERN, _WHITESPACE, pipe. cbn [pattern seq_re repeat].
  eapply matches_text.
  - eapply m_cat; [apply m_blank, (Hw 0)|].
    eapply m_cat; [apply m_lit|].
    eapply m_cat; [|eapply m_cat; [apply m_blank, (Hw 7)|apply m_empty]].
    eapply m_cat; [apply (filler_column_matches _ (Hw 1) H1 (Hw 2))|].
    eapply m_cat; [apply (filler_column_matches _ (Hw 3) H2 (Hw 4))|].
    eapply m_cat; [apply (filler_column_matches _ (Hw 5) H3 (Hw 6))|apply m_empty].
  - unfold filler_text. norm_app. reflexivity.
Qed.

Lemma starts_with_iff b r (G : str -> Prop) :
  (forall x, G x <-> lang b r x) ->
  forall l, starts_with G l <-> has_prefix_in b r l.
Proof.
  intros HG l. unfold starts_with, has_prefix_in. split;
    intros (x & rest & -> & H); exists x, rest; split; auto; now apply HG.
Qed.

Lemma filler_grammar_iff (f : str) :
  filler_grammar f <-> lang false (pattern _FILLER_ROW_PATTERN) f.
Proof.
  split.
  - intros (w & d1 & d2 & d3 & Hw & H1 & H2 & H3 & ->).
    exists [], []. now apply filler_text_matches.
  - intros (c & c' & H). eapply filler_matches_inv; eauto.
Qed.

Lemma header_match_iff (l : str) :
  re_match _TABLE_HEADER_PATTERN l <> None <-> starts_with header_grammar l.
Proof.
  rewrite re_match_iff. symmetry. apply starts_with_iff, header_grammar_iff.
Qed.

Lemma filler_match_iff (l : str) :
  re_match _FILLER_ROW_PATTERN l <> None <-> starts_with filler_grammar l.
Proof.
  rewrite re_match_iff. symmetry. apply starts_with_iff, filler_grammar_iff.
Qed.

Lemma row_match_iff (l : str) :
  re_match _ROW_PATTERN l <> None <-> row_grammar l.
Proof. rewrite re_match_iff. symmetry. apply row_grammar_iff. Qed.

(** ** A row is neither a header nor a filler *)

Lemma blank_run_unique (a a' : str) (x x' : ascii) (r r' : str) :
  blank a -> blank a' -> is_space x = false -> is_space x' = false ->
  a ++ x :: r = a' ++ x' :: r' -> a = a' /\ x = x' /\ r = r'.
Proof.
  intros Ha. revert a'. induction Ha as [|c a Hc Ha IH]; intros a' Ha' Hx Hx' E.
  - destruct Ha' as [|c' a' Hc' Ha']; simpl in E.
    + inversion E. auto.
    + inversion E. subst. congruence.
  - destruct Ha' as [|c' a' Hc' Ha']; simpl in E.
    + inversion E. subst. congruence.
    + inversion E. subst. destruct (IH a' Ha' Hx Hx' H1) as (-> & -> & ->). auto.
Qed.

Lemma pipe_not_space : is_space "|" = false.
Proof. reflexivity. Qed.

Lemma digit_not_space c : is_digit c = true -> is_space c = false.
Proof.
  intro H. ascii_fact (fun c => implb (is_digit c) (negb (is_space c))) c G.
  rewrite H in G. simpl in G. now destruct (is_space c).
Qed.

Lemma digit_not_l c : is_digit c = true -> unicode_tolower c <> "l".
Proof.
  intros H E.
  ascii_fact (fun c => implb (is_digit c) (negb (unicode_tolower c =? "l"))) c G.
  rewrite H, E in G. discriminate.
Qed.

Lemma tolower_l_not_space c : unicode_tolower c = "l" -> is_space c = false.
Proof.
  intro E.
  ascii_fact (fun c => implb (unicode_tolower c =? "l") (negb (is_space c))) c G.
  rewrite E in G. simpl in G. now destruct (is_space c).
Qed.

Lemma row_not_header (l : str) :
  row_grammar l -> ~ starts_with header_grammar l.
Proof.
  intros (w & L & P & T & K & rest & Hw & ((HL & HLd) & _) & ->)
         (x & rest' & E & w' & l' & p' & n' & Hw' & Hl' & _ & _ & ->).
  destruct L as [|d L]; [contradiction|]. inversion HLd; subst.
  destruct l' as [|c l']; [discriminate|]. inversion Hl'.
  unfold row_text, header_text in E. normalize_text E.
  apply blank_run_unique in E; auto using pipe_not_space.
  destruct E as (_ & _ & E).
  apply blank_run_unique in E; auto using digit_not_space, tolower_l_not_space.
  destruct E as (_ & -> & _). eapply digit_not_l; eauto.
Qed.

Lemma row_not_filler (l : str) :
  row_grammar l -> ~ starts_with filler_grammar l.
Proof.
  intros (w & L & P & T & K & rest & Hw & ((HL & HLd) & _) & ->)
         (x & rest' & E & w' & d1 & d2 & d3 & Hw' & (N1 & H1) & _ & _ & ->).
  destruct L as [|d L]; [contradiction|]. inversion HLd; subst.
  destruct d1 as [|c d1]; [contradiction|]. inversion H1; subst.
  unfold row_text, filler_text in E. normalize_text E.
  apply blank_run_unique in E; auto using pipe_not_space.
  destruct E as (_ & _ & E).
  apply blank_run_unique in E; auto using digit_not_space.
  destruct E as (_ & -> & _). discriminate.
Qed.

Lemma is_not_None_true (A : Type) (o : option A) : is_not_None o = true <-> o <> None.
Proof. destruct o; simpl; split; congruence. Qed.

Lemma is_not_None_false (A : Type) (o : option A) : is_not_None o = false <-> o = None.
Proof. destruct o; simpl; split; congruence. Qed.

(** The filter keeps exactly the lines the row pattern matches. *)
Lemma filter_line_spec (l : str) : _filter_line l = negb (is_row l).
Proof.
  unfold _filter_line, is_row.
  destruct (is_not_None (re_match _ROW_PATTERN l)) eqn:Hr.
  - apply is_not_None_true, row_match_iff in Hr.
    destruct (is_not_None (re_match _TABLE_HEADER_PATTERN l)) eqn:Hh.
    { apply is_not_None_true, header_match_iff in Hh.
      now apply row_not_header in Hr. }
    destruct (is_not_None (re_match _FILLER_ROW_PATTERN l)) eqn:Hf.
    { apply is_not_None_true, filler_match_iff in Hf.
      now apply row_not_filler in Hr. }
    reflexivity.
  - destruct (is_not_None (re_match _TABLE_HEADER_PATTERN l)); [reflexivity|].
    destruct (is_not_None (re_match _FILLER_ROW_PATTERN l)); reflexivity.
Qed.

(** ** Lines *)

Lemma splitlines_from_line (l : str) :
  single_line l -> forall cur rest,
  splitlines_from cur (l ++ LF :: rest) = (cur ++ l) :: splitlines_from [] rest.
Proof.
  induction 1 as [|c l Hc Hl IH]; intros cur rest.
  - rewrite app_nil_r. reflexivity.
  - simpl. rewrite Hc, IH, <- app_assoc. reflexivity.
Qed.

Lemma splitlines_from_last (l : str) :
  single_line l -> forall cur, cur ++ l <> [] -> splitlines_from cur l = [cur ++ l].
Proof.
  induction 1 as [|c l Hc Hl IH]; intros cur Hn.
  - rewrite app_nil_r in *. simpl. destruct cur; [contradiction|reflexivity].
  - simpl. rewrite Hc, IH, <- app_assoc; [reflexivity|].
    destruct cur; discriminate.
Qed.

(** Joining lines with LF and splitting again gives the lines back, when
    the last one is not empty. *)
Lemma splitlines_join (lines : list str) :
  Forall single_line lines -> last lines [LF] <> [] ->
  splitlines (join [LF] lines) = lines.
Proof.
  unfold splitlines. induction 1 as [|l ls Hl Hls IH]; intro Hlast.
  - reflexivity.
  - destruct ls as [|l2 ls].
    + simpl in *. now apply (splitlines_from_last Hl []).
    + change (join [LF] (l :: l2 :: ls)) with (l ++ LF :: join [LF] (l2 :: ls)).
      rewrite (splitlines_from_line Hl). simpl app. f_equal. apply IH.
      exact Hlast.
Qed.

(** Every line of a text is a piece of it. *)
Lemma splitlines_from_substring (n : nat) : forall s cur l,
  List.length s <= n ->
  In l (splitlines_from cur s) -> exists a b, cur ++ s = a ++ l ++ b.
Proof.
  induction n as [|n IH]; intros s cur l Hn H.
  - destruct s; [|simpl in Hn; lia]. simpl in H.
    destruct cur; simpl in H; [contradiction|].
    destruct H as [<-|[]]. exists [], []. simpl. now rewrite !app_nil_r.
  - destruct s as [|c s]; simpl in H.
    { destruct cur; simpl in H; [contradiction|].
      destruct H as [<-|[]]. exists [], []. simpl. now rewrite !app_nil_r. }
    simpl in Hn. destruct (is_linebreak c).
    + destruct H as [<-|H]; [exists [], (c :: s); reflexivity|].
      assert (G : exists p s', c :: s = p ++ s' /\ List.length s' <= n
                               /\ In l (splitlines_from [] s')).
      { destruct (c =? CR); [|exists [c], s; repeat split; [lia|exact H]].
        destruct s as [|d s']; [exists [c], []; repeat split; [simpl; lia|exact H]|].
        destruct (d =? LF).
        - exists [c; d], s'. repeat split; [simpl in *; lia|exact H].
        - exists [c], (d :: s'). repeat split; [simpl in *; lia|exact H]. }
      destruct G as (p & s' & E & Hlen & Hin).
      destruct (IH _ _ _ Hlen Hin) as (a & b & Hab). simpl in Hab.
      exists (cur ++ p ++ a), b. rewrite E, Hab, <- !app_assoc. reflexivity.
    + apply IH in H; [|lia]. destruct H as (a & b & Hab).
      exists a, b. rewrite <- Hab, <- app_assoc. reflexivity.
Qed.

Lemma splitlines_substring (page l : str) :
  In l (splitlines page) -> exists a b, page = a ++ l ++ b.
Proof.
  intro H. eapply (splitlines_from_substring (n := List.length page)) in H; auto.
Qed.

(** ** Pages with a header *)

Lemma from_page_with_header (page : str) :
  has_header page ->
  (exists m, re_match _TABLE_PATTERN page = Some m /\ group0 m = page)
  /\ from_page page = map _line_to_row (filter is_row (splitlines page)).
Proof.
  intro H. apply table_match_iff in H. unfold from_page.
  destruct (re_match _TABLE_PATTERN page) as [m|] eqn:Hm; [|contradiction].
  pose proof (table_match_whole _ Hm) as Hg. split; [eauto|].
  cbv zeta. rewrite Hg. f_equal. apply filter_ext. intro l.
  rewrite filter_line_spec. apply negb_involutive.
Qed.

Lemma rows_parse (lines : list str) :
  Forall (fun l => is_row l = true -> exists r, _line_to_row l = inr r) lines ->
  exists trs,
    map _line_to_row (filter is_row lines) = map inr trs
    /\ Forall2 (fun l r => _line_to_row l = inr r) (filter is_row lines) trs.
Proof.
  induction 1 as [|l ls Hl Hls (trs & IH1 & IH2)];
    [exists []; split; [reflexivity|constructor]|].
  simpl. destruct (is_row l) eqn:Hr; [|exists trs; auto].
  destruct (Hl eq_refl) as [r Hrow].
  exists (r :: trs). simpl. rewrite Hrow, IH1.
  split; [reflexivity|]. constructor; assumption.
Qed.


Lemma is_row_true (l : str) : is_row l = true <-> row_grammar l.
Proof. unfold is_row. now rewrite is_not_None_true, row_match_iff. Qed.







Lemma single_line_check (l : str) :
  forallb (fun c => negb (is_linebreak c)) l = true -> single_line l.
Proof.
  intro H. apply forallb_Forall_true in H. eapply Forall_impl; [|exact H].
  intros c Hc. cbv beta in Hc. destruct (is_linebreak c); [discriminate|reflexivity].
Qed.


(** ** Level texts and their values *)

Lemma digit_value_range c : is_digit c = true -> (0 <= digit_value c <= 9)%Z.
Proof.
  intro H.
  ascii_fact (fun c => implb (is_digit c)
                ((0 <=? digit_value c)%Z && (digit_value c <=? 9)%Z)) c G.
  rewrite H in G. simpl in G. apply andb_prop in G. destruct G. lia.
Qed.

Lemma digit_value_inj c d :
  is_digit c = true -> is_digit d = true -> digit_value c = digit_value d -> c = d.
Proof.
  unfold digit_value, ord. intros _ _ H.
  assert (E : N_of_ascii c = N_of_ascii d) by lia.
  rewrite <- (ascii_N_embedding c), <- (ascii_N_embedding d). now rewrite E.
Qed.

Lemma digit_value_zero c : is_digit c = true -> digit_value c = 0%Z -> c = "0".
Proof. intros H E. apply digit_value_inj; auto. Qed.

Lemma value_from_cons a c s : value_from a (c :: s) = value_from (10 * a + digit_value c) s.
Proof. reflexivity. Qed.

Lemma value_from_ge s : Forall (fun c => is_digit c = true) s ->
  forall a, (0 <= a)%Z -> (a <= value_from a s)%Z.
Proof.
  induction 1 as [|c s Hc Hs IH]; intros a Ha; [simpl; lia|].
  rewrite value_from_cons. apply digit_value_range in Hc.
  specialize (IH (10 * a + digit_value c)%Z). lia.
Qed.

(** Digit texts of the same length with the same value are the same. *)
Lemma value_from_inj s1 : forall s2 a1 a2,
  List.length s1 = List.length s2 ->
  Forall (fun c => is_digit c = true) s1 -> Forall (fun c => is_digit c = true) s2 ->
  value_from a1 s1 = value_from a2 s2 -> a1 = a2 /\ s1 = s2.
Proof.
  induction s1 as [|c s1 IH]; intros [|d s2] a1 a2 Hlen H1 H2 E; try discriminate.
  - auto.
  - inversion H1 as [|? ? Hc Hs1]; inversion H2 as [|? ? Hd Hs2]; subst.
    rewrite !value_from_cons in E.
    simpl in Hlen. apply IH in E; auto. destruct E as [E ->].
    pose proof (digit_value_range _ Hc). pose proof (digit_value_range _ Hd).
    assert (a1 = a2) by lia. subst. split; [reflexivity|].
    f_equal. apply digit_value_inj; auto. lia.
Qed.

Lemma value_from_longer s1 s2 :
  Forall (fun c => is_digit c = true) s1 -> Forall (fun c => is_digit c = true) s2 ->
  canonical s2 -> List.length s1 < List.length s2 ->
  value_from 0 s1 <> value_from 0 s2.
Proof.
  intros H1 H2 Hc Hlen E.
  assert (Hsplit : exists p q, s2 = p ++ q /\ List.length q = List.length s1 /\ p <> []).
  { remember (List.length s2 - List.length s1) as n eqn:Hn.
    exists (firstn n s2), (skipn n s2).
    rewrite firstn_skipn, length_skipn. repeat split; [lia|].
    destruct n as [|n]; [lia|]. destruct s2; simpl in *; [lia|discriminate]. }
  destruct Hsplit as (p & q & -> & Hq & Hp).
  apply Forall_app in H2. destruct H2 as [Hp2 Hq2].
  unfold value_from in E. rewrite fold_left_app in E. fold (value_from 0 p) in E.
  fold (value_from (value_from 0 p) q) in E. fold (value_from 0 s1) in E.
  apply value_from_inj in E; auto. destruct E as [E _].
  destruct p as [|c p]; [contradiction|].
  inversion Hp2 as [|? ? Hdc Hdp]; subst.
  rewrite value_from_cons in E. simpl in Hc.
  pose proof (digit_value_range _ Hdc).
  pose proof (@value_from_ge p Hdp (10 * 0 + digit_value c)%Z).
  assert (digit_value c = 0%Z) by lia.
  apply Hc. now apply digit_value_zero.
Qed.

Lemma canonical_value_inj s1 s2 :
  Forall (fun c => is_digit c = true) s1 -> Forall (fun c => is_digit c = true) s2 ->
  canonical s1 -> canonical s2 ->
  value_from 0 s1 = value_from 0 s2 -> s1 = s2.
Proof.
  intros H1 H2 C1 C2 E.
  destruct (Nat.lt_trichotomy (List.length s1) (List.length s2)) as [Hlt|[Heq|Hgt]].
  - exfalso. exact (value_from_longer H1 H2 C2 Hlt E).
  - now apply value_from_inj in E.
  - exfalso. exact (value_from_longer H2 H1 C1 Hgt (eq_sym E)).
Qed.

Lemma strip_zeros_canonical s : canonical (strip_zeros s).
Proof.
  induction s as [|c s IH]; simpl; [exact I|].
  destruct (c =? "0") eqn:E; [exact IH|]. simpl. now apply Ascii.eqb_neq.
Qed.

Lemma strip_zeros_digits s :
  Forall (fun c => is_digit c = true) s ->
  Forall (fun c => is_digit c = true) (strip_zeros s).
Proof.
  induction 1 as [|c s Hc Hs IH]; simpl; [constructor|].
  destruct (c =? "0"); [exact IH|]. now constructor.
Qed.

Lemma strip_zeros_value s : value_from 0 (strip_zeros s) = value_from 0 s.
Proof.
  induction s as [|c s IH]; simpl; [reflexivity|].
  destruct (c =? "0") eqn:E; [|reflexivity].
  apply Ascii.eqb_eq in E. subst. rewrite IH. reflexivity.
Qed.

(** Two level texts have the same value exactly when they agree up to
    leading zeros. *)
Lemma decimal_value_eq_iff L1 L2 :
  Forall (fun c => is_digit c = true) L1 -> Forall (fun c => is_digit c = true) L2 ->
  decimal_value L1 = decimal_value L2 <-> strip_zeros L1 = strip_zeros L2.
Proof.
  intros H1 H2. change decimal_value with (value_from 0).
  rewrite <- (strip_zeros_value L1), <- (strip_zeros_value L2). split.
  - apply canonical_value_inj; auto using strip_zeros_canonical, strip_zeros_digits.
  - now intros ->.
Qed.

Lemma li_not_space c : li c = true -> is_space c = false.
Proof.
  intro H. ascii_fact (fun c => implb (li c) (negb (is_space c))) c G.
  rewrite H in G. simpl in G. now destruct (is_space c).
Qed.

(** ** Patterns with a single reading *)

(** Completeness, with the captures of the word that is found. *)
Lemma exec_complete_caps (A : Type) ic r : forall x caps c1,
  matches ic r x caps c1 ->
  forall rest (k : str -> captures -> option A),
    (forall c', matches ic r x caps c' -> k rest c' <> None) ->
    exec ic r (x ++ rest) caps k <> None.
Proof.
  induction r; intros x caps c1 H rest k Hk; simpl in H; simpl.
  - destruct H as [-> _]. apply Hk. simpl. auto.
  - destruct H as (ch & -> & Hm & _). simpl. rewrite Hm. apply Hk.
    simpl. exists ch. auto.
  - destruct H as (Hf & Hmin & Hmax & _).
    assert (Hc : k rest caps <> None) by (apply Hk; simpl; auto).
    destruct greedy; [apply rep_greedy_complete|apply rep_lazy_complete]; auto.
  - destruct H as (c0 & H & _). eapply IHr; [exact H|].
    intros c' Hc'. rewrite consumed_app. apply Hk. simpl. exists c'. auto.
  - destruct H as (x1 & x2 & d1 & -> & H1 & H2). rewrite <- app_assoc.
    eapply IHr1; [exact H1|]. intros c' Hc'.
    destruct (matches_any_caps _ _ _ _ _ H2 c') as [e He].
    eapply IHr2; [exact He|]. intros e' He'. apply Hk.
    simpl. exists x1, x2, c'. auto.
Qed.

(** When the input has one reading only, the matcher hands the rest and
    the captures of that reading to the continuation. *)
Lemma exec_unique (A : Type) ic r x rest caps c1 (k : str -> captures -> option A) :
  matches ic r x caps c1 ->
  (forall x' rest' c', x ++ rest = x' ++ rest' -> matches ic r x' caps c' ->
                       rest' = rest /\ c' = c1) ->
  exec ic r (x ++ rest) caps k = k rest c1.
Proof.
  intros Hm Hu.
  destruct (exec ic r (x ++ rest) caps k) as [a|] eqn:E.
  - apply exec_sound in E. destruct E as (x' & rest' & c' & Hs & Hm' & Hk).
    destruct (Hu _ _ _ Hs Hm') as [-> ->]. now rewrite Hk.
  - destruct (k rest c1) as [a|] eqn:Hk; [|reflexivity]. exfalso.
    revert E. eapply exec_complete_caps; [exact Hm|].
    intros c' Hc'. destruct (Hu x rest c' eq_refl Hc') as [_ ->]. congruence.
Qed.

(** The row pattern read as front, whitespace, title group, end. *)
Lemma row_exec_split (A : Type) (s : str) (caps : captures)
  (k : str -> captures -> option A) :
  exec false (pattern _ROW_PATTERN) s caps k =
  exec false row_front s caps (fun s7 c7 =>
    rep_greedy sp 0 None s7 (fun s8 =>
      rep_lazy ti 1 None s8 (fun s9 =>
        exec false row_end s9 ((3, consumed s8 s9) :: c7) k))).
Proof. reflexivity. Qed.

(** ** Runs of characters *)

Lemma run_unique (p : ascii -> bool) (a : str) : forall a' X X',
  Forall (fun c => p c = true) a -> Forall (fun c => p c = true) a' ->
  starts_not p X -> starts_not p X' ->
  a ++ X = a' ++ X' -> a = a' /\ X = X'.
Proof.
  induction a as [|c a IH]; intros [|c' a'] X X' Ha Ha' HX HX' E; simpl in E.
  - auto.
  - subst X. simpl in HX. inversion Ha'; subst. congruence.
  - subst X'. simpl in HX'. inversion Ha; subst. congruence.
  - inversion E; subst. inversion Ha; inversion Ha'; subst.
    destruct (IH a' X X') as [-> ->]; auto.
Qed.

Lemma starts_not_blank (p : ascii -> bool) (w : str) (ch : ascii) (Y : str) :
  blank w -> (forall c, is_space c = true -> p c = false) -> p ch = false ->
  starts_not p (w ++ ch :: Y).
Proof.
  intros Hw Hp Hch. destruct Hw as [|c w Hc Hw]; simpl; auto.
Qed.

Lemma space_not_digit c : is_space c = true -> is_digit c = false.
Proof.
  intro H. ascii_fact (fun c => implb (is_space c) (negb (is_digit c))) c G.
  rewrite H in G. simpl in G. now destruct (is_digit c).
Qed.

Lemma space_not_pa c : is_space c = true -> pa c = false.
Proof.
  intro H. ascii_fact (fun c => implb (is_space c) (negb (pa c))) c G.
  rewrite H in G. simpl in G. now destruct (pa c).
Qed.

Lemma space_not_li c : is_space c = true -> li c = false.
Proof.
  intro H. ascii_fact (fun c => implb (is_space c) (negb (li c))) c G.
  rewrite H in G. simpl in G. now destruct (li c).
Qed.

Lemma pa_not_space c : pa c = true -> is_space c = false.
Proof.
  intro H. destruct (is_space c) eqn:E; [|reflexivity].
  apply space_not_pa in E. congruence.
Qed.

(** The front of a row *)

Lemma front_matches_inv x caps c :
  matches false row_front x caps c ->
  exists w L P,
    (x = front_text w L P /\ c = (2, P) :: (1, L) :: caps)
    /\ blanks w
    /\ (L <> [] /\ Forall (fun c => is_digit c = true) L)
    /\ (P <> [] /\ Forall (fun c => pa c = true) P).
Proof.
  intro H. unfold row_front in H. unfold_patterns.
  decompose [ex and] H; clear H; subst. subst_literals. blank_hyps.
  match goal with
  | |- exists w L P, (?X = _ /\ _) /\ _ => remember X as y eqn:E
  end.
  normalize_text E.
  eexists (fun i => nth i [_; _; _; _; _; _] []).
  do 2 eexists. split; [split|split].
  - unfold front_text. cbn [nth]. exact E.
  - reflexivity.
  - solve_blanks.
  - unfold pa. rewrite <- Forall_dg.
    repeat split; auto; apply nonempty_length; assumption.
Qed.

Lemma front_text_matches w L P caps :
  blanks w ->
  L <> [] -> Forall (fun c => is_digit c = true) L ->
  P <> [] -> Forall (fun c => pa c = true) P ->
  matches false row_front (front_text w L P) caps ((2, P) :: (1, L) :: caps).
Proof.
  intros Hw HL HLd HP HPp.
  apply Forall_dg in HLd. apply length_nonempty in HL, HP. unfold pa in HPp.
  unfold row_front. unfold_regex. eapply matches_text.
  - build_word Hw.
  - unfold front_text. norm_app. reflexivity.
Qed.

Lemma front_text_unique w L P s7 w' L' P' s7' :
  blanks w -> blanks w' ->
  L <> [] -> Forall (fun c => is_digit c = true) L ->
  L' <> [] -> Forall (fun c => is_digit c = true) L' ->
  P <> [] -> Forall (fun c => pa c = true) P ->
  P' <> [] -> Forall (fun c => pa c = true) P' ->
  front_text w L P ++ s7 = front_text w' L' P' ++ s7' ->
  L = L' /\ P = P' /\ s7 = s7'.
Proof.
  intros Hw Hw' HL HLd HL' HLd' HP HPp HP' HPp' E.
  unfold front_text in E. normalize_text E.
  apply (@run_unique is_space) in E; try apply Hw; try apply Hw'; try reflexivity.
  destruct E as [_ E]. inversion E as [E1]. clear E.
  apply (@run_unique is_space) in E1; try apply Hw; try apply Hw'.
  2:{ destruct L; [contradiction|]. inversion HLd; subst. simpl. now apply digit_not_space. }
  2:{ destruct L'; [contradiction|]. inversion HLd'; subst. simpl. now apply digit_not_space. }
  destruct E1 as [_ E].
  apply (@run_unique is_digit) in E; auto;
    try (apply starts_not_blank; [apply Hw || apply Hw'|apply space_not_digit|reflexivity]).
  destruct E as [-> E].
  apply (@run_unique is_space) in E; try apply Hw; try apply Hw'; try reflexivity.
  destruct E as [_ E]. inversion E as [E1]. clear E.
  apply (@run_unique is_space) in E1; try apply Hw; try apply Hw'.
  2:{ destruct P; [contradiction|]. inversion HPp; subst. simpl. now apply pa_not_space. }
  2:{ destruct P'; [contradiction|]. inversion HPp'; subst. simpl. now apply pa_not_space. }
  destruct E1 as [_ E].
  apply (@run_unique pa) in E; auto;
    try (apply starts_not_blank; [apply Hw || apply Hw'|apply space_not_pa|reflexivity]).
  destruct E as [-> E].
  apply (@run_unique is_space) in E; try apply Hw; try apply Hw'; try reflexivity.
  destruct E as [_ E]. inversion E as [E1]. clear E.
  apply (@run_unique is_space) in E1; try apply Hw; try apply Hw'; try reflexivity.
  destruct E1 as [_ E]. inversion E. auto.
Qed.

(** On a text that starts with the front of a row, the matcher of the
    front hands the rest and the two cells to the continuation. *)
Lemma front_exec (A : Type) w L P s7 caps (k : str -> captures -> option A) :
  blanks w ->
  L <> [] -> Forall (fun c => is_digit c = true) L ->
  P <> [] -> Forall (fun c => pa c = true) P ->
  exec false row_front (front_text w L P ++ s7) caps k
  = k s7 ((2, P) :: (1, L) :: caps).
Proof.
  intros Hw HL HLd HP HPp. apply exec_unique.
  - now apply front_text_matches.
  - intros x' rest' c' E Hm. apply front_matches_inv in Hm.
    destruct Hm as (w' & L' & P' & (-> & ->) & Hw' & (HL' & HLd') & (HP' & HPp')).
    eapply front_text_unique in E; eauto.
    destruct E as (-> & -> & ->). auto.
Qed.

(** The end of a row *)

Lemma Forall_li (x : str) :
  Forall (fun c => atom_match false link_set c = true) x <->
  Forall (fun c => li c = true) x.
Proof. reflexivity. Qed.

Lemma end_matches_inv x caps c :
  matches false row_end x caps c ->
  exists w K,
    (x = end_text w K /\ c = (4, K) :: caps)
    /\ blanks w /\ Forall (fun c => li c = true) K.
Proof.
  intro H. unfold row_end in H. unfold_patterns.
  decompose [ex and] H; clear H; subst. subst_literals. blank_hyps.
  match goal with
  | |- exists w K, (?X = _ /\ _) /\ _ => remember X as y eqn:E
  end.
  normalize_text E.
  eexists (fun i => nth i [[]; []; []; []; []; []; []; _; _; _; _; _] []).
  eexists. split; [split|split].
  - unfold end_text. cbn [nth]. exact E.
  - reflexivity.
  - solve_blanks.
  - assumption.
Qed.

Lemma end_text_matches w K caps :
  blanks w -> Forall (fun c => li c = true) K ->
  matches false row_end (end_text w K) caps ((4, K) :: caps).
Proof.
  intros Hw HK. assert (H0 : 0 <= List.length K) by lia. unfold li in HK.
  unfold row_end. unfold_regex. eapply matches_text.
  - build_word Hw.
  - unfold end_text. norm_app. reflexivity.
Qed.

Lemma blank_app (a b : str) : blank a -> blank b -> blank (a ++ b).
Proof. unfold blank. intros. apply Forall_app. auto. Qed.

Lemma li_paren : li ")" = false.
Proof. reflexivity. Qed.

Lemma end_text_unique w K rest w' K' rest' :
  blanks w -> blanks w' ->
  Forall (fun c => li c = true) K -> Forall (fun c => li c = true) K' ->
  end_text w K ++ rest = end_text w' K' ++ rest' ->
  K = K' /\ rest = rest'.
Proof.
  intros Hw Hw' HK HK' E. unfold end_text in E. normalize_text E.
  apply (@run_unique is_space) in E; try apply Hw; try apply Hw'; try reflexivity.
  destruct E as [_ E]. inversion E as [E1]. clear E.
  apply (@run_unique is_space) in E1; try apply Hw; try apply Hw'; try reflexivity.
  destruct E1 as [_ E]. inversion E as [E1]. clear E.
  destruct K as [|c K]; destruct K' as [|c' K']; simpl in E1.
  - rewrite !app_assoc in E1.
    apply (@run_unique is_space) in E1;
      try (apply blank_app; apply Hw || apply Hw'); try reflexivity.
    destruct E1 as [_ E]. inversion E as [E1]. clear E.
    apply (@run_unique is_space) in E1; try apply Hw; try apply Hw'; try reflexivity.
    destruct E1 as [_ E]. inversion E. auto.
  - exfalso. rewrite app_assoc in E1. inversion HK'; subst.
    apply (@run_unique is_space) in E1;
      try (apply blank_app; apply Hw || apply Hw'); try apply Hw'; try reflexivity.
    + destruct E1 as [_ E]. inversion E. subst. discriminate.
    + simpl. now apply li_not_space.
  - exfalso. rewrite (app_assoc (w' 9)) in E1. inversion HK; subst.
    apply (@run_unique is_space) in E1;
      try (apply blank_app; apply Hw || apply Hw'); try apply Hw; try reflexivity.
    + destruct E1 as [_ E]. inversion E. subst. discriminate.
    + simpl. now apply li_not_space.
  - inversion HK; inversion HK'; subst.
    apply (@run_unique is_space) in E1; try apply Hw; try apply Hw';
      try (simpl; now apply li_not_space).
    destruct E1 as [_ E].
    change (c :: K ++ w 10 ++ ")" :: w 11 ++ "|" :: rest)
      with ((c :: K) ++ w 10 ++ ")" :: w 11 ++ "|" :: rest) in E.
    change (c' :: K' ++ w' 10 ++ ")" :: w' 11 ++ "|" :: rest')
      with ((c' :: K') ++ w' 10 ++ ")" :: w' 11 ++ "|" :: rest') in E.
    apply (@run_unique li) in E; auto;
      try (apply starts_not_blank; [apply Hw || apply Hw'|apply space_not_li|reflexivity]).
    destruct E as [EK E]. split; [exact EK|].
    apply (@run_unique is_space) in E; try apply Hw; try apply Hw'; try reflexivity.
    destruct E as [_ E]. inversion E as [E1]. clear E.
    apply (@run_unique is_space) in E1; try apply Hw; try apply Hw'; try reflexivity.
    destruct E1 as [_ E]. now inversion E.
Qed.

Lemma end_exec (A : Type) w K rest caps (k : str -> captures -> option A) :
  blanks w -> Forall (fun c => li c = true) K ->
  exec false row_end (end_text w K ++ rest) caps k = k rest ((4, K) :: caps).
Proof.
  intros Hw HK. apply exec_unique.
  - now apply end_text_matches.
  - intros x' rest' c' E Hm. apply end_matches_inv in Hm.
    destruct Hm as (w' & K' & (-> & ->) & Hw' & HK').
    eapply end_text_unique in E; eauto. destruct E as (-> & ->). auto.
Qed.

(** The end matcher succeeds exactly on the texts that start with the end
    of a row. *)
Lemma end_exec_some (A : Type) z caps (k : str -> captures -> option A) a :
  exec false row_end z caps k = Some a <->
  exists K rest, end_ok z K rest /\ k rest ((4, K) :: caps) = Some a.
Proof.
  split.
  - intro H. apply exec_sound in H. destruct H as (x & rest & c' & -> & Hm & Hk).
    apply end_matches_inv in Hm. destruct Hm as (w & K & (-> & ->) & Hw & HK).
    exists K, rest. split; [|exact Hk]. exists w. auto.
  - intros (K & rest & (w & Hw & HK & ->) & Hk). now rewrite end_exec.
Qed.

Lemma end_exec_none (A : Type) z caps (k : str -> captures -> option A) :
  (forall K rest, ~ end_ok z K rest) -> exec false row_end z caps k = None.
Proof.
  intro H. destruct (exec false row_end z caps k) eqn:E; [|reflexivity].
  apply end_exec_some in E. destruct E as (K & rest & Hok & _).
  now apply H in Hok.
Qed.

Lemma end_ok_unique z K rest K' rest' :
  end_ok z K rest -> end_ok z K' rest' -> K = K' /\ rest = rest'.
Proof.
  intros (w & Hw & HK & ->) (w' & Hw' & HK' & E).
  eapply (@end_text_unique w K rest w' K' rest'); eauto.
Qed.

(** ** Inserted spaces *)

Lemma pad_refl (s : str) : pad s s.
Proof. induction s; constructor; assumption. Qed.

Lemma pad_app (a a' b b' : str) : pad a a' -> pad b b' -> pad (a ++ b) (a' ++ b').
Proof. induction 1; intro Hb; simpl; [assumption| |]; constructor; auto. Qed.

(** A padded text cut in two: the original is cut accordingly. *)
Lemma pad_app_inv (u' : str) : forall z v',
  pad z (u' ++ v') -> exists u v, z = u ++ v /\ pad u u' /\ pad v v'.
Proof.
  induction u' as [|c u' IH]; intros z v' H; simpl in H.
  - exists [], z. repeat split; [constructor|assumption].
  - inversion H as [|c0 s0 s0' Hp|s0 s0' Hp]; subst.
    + destruct (IH _ _ Hp) as (u & v & -> & Hu & Hv).
      exists (c :: u), v. repeat split; [constructor|]; assumption.
    + destruct (IH _ _ Hp) as (u & v & -> & Hu & Hv).
      exists u, v. repeat split; [constructor|]; assumption.
Qed.

Lemma pad_cons_inv (c : ascii) (z v' : str) :
  c <> " " -> pad z (c :: v') -> exists v, z = c :: v /\ pad v v'.
Proof. intros Hc H. inversion H; subst; [eauto|contradiction]. Qed.

Lemma pad_run_inv (K : str) : forall z v',
  Forall (fun c => c <> " ") K -> pad z (K ++ v') -> exists v, z = K ++ v /\ pad v v'.
Proof.
  induction K as [|c K IH]; intros z v' HK H; simpl in H;
    [exists z; split; [reflexivity|exact H]|].
  inversion HK as [|? ? Hc HK']; subst. apply pad_cons_inv in H; auto.
  destruct H as (v & -> & H). destruct (IH _ _ HK' H) as (v0 & -> & Hv).
  exists v0. split; [reflexivity|exact Hv].
Qed.

Lemma space_is_space : is_space " " = true.
Proof. reflexivity. Qed.

Lemma pad_blank (a a' : str) : pad a a' -> blank a' -> blank a.
Proof.
  unfold blank. induction 1 as [|c s s' Hp IH|s s' Hp IH]; intro Hb.
  - constructor.
  - inversion Hb; subst. constructor; auto.
  - inversion Hb; subst. auto.
Qed.

Lemma pad_blank_r (a a' : str) : pad a a' -> blank a -> blank a'.
Proof.
  unfold blank. induction 1 as [|c s s' Hp IH|s s' Hp IH]; intro Hb.
  - constructor.
  - inversion Hb; subst. constructor; auto.
  - constructor; auto.
Qed.

Lemma pad_Forall (p : ascii -> bool) (a a' : str) :
  pad a a' -> Forall (fun c => p c = true) a' -> Forall (fun c => p c = true) a.
Proof.
  induction 1 as [|c s s' Hp IH|s s' Hp IH]; intro Hb.
  - constructor.
  - inversion Hb; subst. constructor; auto.
  - inversion Hb; subst. auto.
Qed.

Lemma not_space_char c : is_space c = false -> c <> " ".
Proof. intros H ->. discriminate. Qed.

Lemma li_no_space (K : str) :
  Forall (fun c => li c = true) K -> Forall (fun c => c <> " ") K.
Proof.
  apply Forall_impl. intros c H. now apply not_space_char, li_not_space.
Qed.

(** Deleting inserted spaces keeps the end of a row. *)
Lemma end_ok_unpad (z z' K r' : str) :
  pad z z' -> end_ok z' K r' -> exists r, end_ok z K r /\ pad r r'.
Proof.
  intros Hp (w' & Hw' & HK & ->). unfold end_text in Hp. normalize_text Hp.
  apply pad_app_inv in Hp. destruct Hp as (a7 & z1 & -> & H7 & Hp).
  apply pad_cons_inv in Hp; [|discriminate]. destruct Hp as (z2 & -> & Hp).
  apply pad_app_inv in Hp. destruct Hp as (a8 & z3 & -> & H8 & Hp).
  apply pad_cons_inv in Hp; [|discriminate]. destruct Hp as (z4 & -> & Hp).
  apply pad_app_inv in Hp. destruct Hp as (a9 & z5 & -> & H9 & Hp).
  apply pad_run_inv in Hp; [|now apply li_no_space]. destruct Hp as (z6 & -> & Hp).
  apply pad_app_inv in Hp. destruct Hp as (a10 & z7 & -> & H10 & Hp).
  apply pad_cons_inv in Hp; [|discriminate]. destruct Hp as (z8 & -> & Hp).
  apply pad_app_inv in Hp. destruct Hp as (a11 & z9 & -> & H11 & Hp).
  apply pad_cons_inv in Hp; [|discriminate]. destruct Hp as (r & -> & Hp).
  exists r. split; [|exact Hp].
  exists (fun i => nth i [[]; []; []; []; []; []; []; a7; a8; a9; a10; a11] []).
  split; [|split; [exact HK|]].
  - pose proof (pad_blank H7 (Hw' 7)). pose proof (pad_blank H8 (Hw' 8)).
    pose proof (pad_blank H9 (Hw' 9)). pose proof (pad_blank H10 (Hw' 10)).
    pose proof (pad_blank H11 (Hw' 11)). solve_blanks.
  - unfold end_text. cbn [nth]. norm_app. reflexivity.
Qed.

Lemma end_ok_app (z K r e : str) : end_ok z K r -> end_ok (z ++ e) K (r ++ e).
Proof.
  intros (w & Hw & HK & ->). exists w. repeat split; auto.
  now rewrite <- app_assoc.
Qed.

Lemma first_pipe (pre : str) : forall v e r,
  Forall (fun c => c <> "|") pre ->
  v ++ "|" :: e = pre ++ "|" :: r -> exists q, v ++ ["|"] = pre ++ "|" :: q.
Proof.
  induction pre as [|c pre IH]; intros v e r Hpre E; simpl in E.
  - destruct v as [|x v]; simpl in E; [exists []; reflexivity|].
    inversion E; subst. exists (v ++ ["|"]). reflexivity.
  - inversion Hpre as [|? ? Hc Hpre']; subst. destruct v as [|x v]; simpl in E.
    + inversion E; subst. contradiction.
    + inversion E as [[Ex E']]; subst. destruct (IH _ _ _ Hpre' E') as [q Hq].
      exists q. simpl. now rewrite Hq.
Qed.

Lemma blank_no_pipe (w : str) : blank w -> Forall (fun c => c <> "|") w.
Proof. apply Forall_impl. intros c H ->. discriminate. Qed.

Lemma li_no_pipe (K : str) :
  Forall (fun c => li c = true) K -> Forall (fun c => c <> "|") K.
Proof. apply Forall_impl. intros c H ->. discriminate. Qed.

(** The end of a row closes at the first pipe: what follows a pipe does
    not matter. *)
Lemma end_ok_cut (v e K r' : str) :
  end_ok (v ++ "|" :: e) K r' -> exists r, end_ok (v ++ ["|"]) K r.
Proof.
  intros (w & Hw & HK & E). unfold end_text in E.
  assert (E' : v ++ "|" :: e =
    (w 7 ++ "]" :: w 8 ++ "(" :: w 9 ++ K ++ w 10 ++ ")" :: w 11) ++ "|" :: r').
  { rewrite E. norm_app. reflexivity. }
  apply first_pipe in E'.
  - destruct E' as [q Hq]. exists q, w. repeat split; auto.
    rewrite Hq. unfold end_text. norm_app. reflexivity.
  - apply Forall_app; split; [apply blank_no_pipe, Hw|].
    apply Forall_cons; [discriminate|].
    apply Forall_app; split; [apply blank_no_pipe, Hw|].
    apply Forall_cons; [discriminate|].
    apply Forall_app; split; [apply blank_no_pipe, Hw|].
    apply Forall_app; split; [now apply li_no_pipe|].
    apply Forall_app; split; [apply blank_no_pipe, Hw|].
    apply Forall_cons; [discriminate|]. apply blank_no_pipe, Hw.
Qed.

Lemma end_ok_skip_blank (b z K r : str) :
  blank b -> (end_ok (b ++ z) K r <-> end_ok z K r).
Proof.
  intros Hb. split.
  - intros (w & Hw & HK & E). unfold end_text in E. normalize_text E.
    assert (G : exists a, blank a /\ z = a ++ "]" :: w 8 ++ "(" :: w 9 ++ K ++ w 10
                                          ++ ")" :: w 11 ++ "|" :: r).
    { generalize (Hw 7). revert E. generalize (w 7).
      induction Hb as [|c b Hc Hb IH]; intros a E Ha; simpl in E; [eauto|].
      destruct Ha as [|c' a Hc' Ha]; simpl in E.
      - inversion E; subst. discriminate.
      - inversion E; subst. eauto. }
    destruct G as (a & Ha & ->).
    exists (fun i => if Nat.eqb i 7 then a else w i). split; [|split; [exact HK|]].
    + intro i. destruct (Nat.eqb i 7); [exact Ha|apply Hw].
    + unfold end_text. simpl. norm_app. reflexivity.
  - intros (w & Hw & HK & ->).
    exists (fun i => if Nat.eqb i 7 then b ++ w 7 else w i). split; [|split; [exact HK|]].
    + intro i. destruct (Nat.eqb i 7); [apply blank_app; auto|apply Hw].
    + unfold end_text. simpl. norm_app. reflexivity.
Qed.

(** ** The lazy repetition finds the shortest run *)

Section Lazy.
Variable A : Type.
Variable p : ascii -> bool.
Variable k : str -> option A.

Lemma rep_lazy_one (c : ascii) (s : str) :
  rep_lazy p 1 None (c :: s) k = if p c then rep_lazy p 0 None s k else None.
Proof. reflexivity. Qed.

Lemma rep_lazy_some (s : str) (a : A) :
  rep_lazy p 0 None s k = Some a ->
  exists T s9, s = T ++ s9 /\ Forall (fun c => p c = true) T /\ k s9 = Some a
    /\ forall T1 T2, T = T1 ++ T2 -> T2 <> [] -> k (T2 ++ s9) = None.
Proof.
  revert a. induction s as [|c s IH]; intros a H; simpl in H.
  - destruct (k []) eqn:Hk; [|discriminate]. inversion H; subst.
    exists [], []. repeat split; auto.
    intros T1 T2 E. apply eq_sym, app_eq_nil in E. destruct E as [_ ->]. congruence.
  - destruct (k (c :: s)) eqn:Hk.
    + inversion H; subst. exists [], (c :: s). repeat split; auto.
      intros T1 T2 E. apply eq_sym, app_eq_nil in E. destruct E as [_ ->]. congruence.
    + destruct (p c) eqn:Hp; [|discriminate]. apply IH in H.
      destruct H as (T & s9 & -> & HT & Hs9 & Hmin).
      exists (c :: T), s9. repeat split; auto.
      intros T1 T2 E HT2. destruct T1 as [|x T1]; simpl in E.
      * subst T2. exact Hk.
      * inversion E; subst. now apply (Hmin T1 T2).
Qed.

Lemma rep_lazy_intro (T : str) : forall s9 a,
  Forall (fun c => p c = true) T -> k s9 = Some a ->
  (forall T1 T2, T = T1 ++ T2 -> T2 <> [] -> k (T2 ++ s9) = None) ->
  rep_lazy p 0 None (T ++ s9) k = Some a.
Proof.
  induction T as [|c T IH]; intros s9 a HT Hk Hmin.
  - simpl. destruct s9; simpl; now rewrite Hk.
  - inversion HT as [|? ? Hc HT']; subst.
    assert (H0 : k (c :: T ++ s9) = None)
      by (apply (Hmin [] (c :: T)); [reflexivity|discriminate]).
    simpl. rewrite H0, Hc.
    apply IH; auto. intros T1 T2 E. apply (Hmin (c :: T1) T2). now rewrite E.
Qed.

Lemma rep_lazy_none (s : str) :
  rep_lazy p 0 None s k = None <->
  forall T s9, s = T ++ s9 -> Forall (fun c => p c = true) T -> k s9 = None.
Proof.
  split.
  - induction s as [|c s IH]; intros H T s9 E HT; simpl in H.
    + apply eq_sym, app_eq_nil in E. destruct E as [-> ->].
      destruct (k []); [discriminate|reflexivity].
    + destruct (k (c :: s)) eqn:Hk; [discriminate|].
      destruct T as [|x T]; simpl in E; [now subst|].
      inversion E; subst. inversion HT as [|? ? Hx HT']; subst.
      rewrite Hx in H. eapply IH; eauto.
  - intro H. destruct (rep_lazy p 0 None s k) eqn:E; [|reflexivity].
    apply rep_lazy_some in E. destruct E as (T & s9 & -> & HT & Hk & _).
    rewrite (H T s9 eq_refl HT) in Hk. discriminate.
Qed.
End Lazy.

Lemma option_ext (A : Type) (o o' : option A) :
  (forall a, o = Some a <-> o' = Some a) -> o = o'.
Proof.
  intro H. destruct o as [a|]; [symmetry; now apply H|].
  destruct o' as [a|]; [now apply H|reflexivity].
Qed.

(** ** The title: the shortest text the end of the pattern accepts *)

Section TitleSearch.
Variable A : Type.
Variable kk : str -> str -> option A.

Lemma title_search_some (s8 : str) (a : A) :
  title_search kk s8 = Some a ->
  exists T s9, s8 = T ++ s9 /\ T <> [] /\ Forall (fun c => ti c = true) T
    /\ kk T s9 = Some a
    /\ forall T1 T2, T = T1 ++ T2 -> T1 <> [] -> T2 <> [] -> kk T1 (T2 ++ s9) = None.
Proof.
  unfold title_search. destruct s8 as [|c s]; [discriminate|].
  rewrite rep_lazy_one. destruct (ti c) eqn:Hc; [|discriminate]. intro H.
  apply rep_lazy_some in H. destruct H as (T & s9 & -> & HT & Hk & Hmin).
  exists (c :: T), s9. change (c :: T ++ s9) with ((c :: T) ++ s9) in *.
  rewrite consumed_app in Hk. repeat split; auto; [discriminate|].
  intros T1 T2 E H1 H2. destruct T1 as [|x T1]; [contradiction|].
  inversion E; subst. specialize (Hmin T1 T2 eq_refl H2). cbv beta in Hmin.
  replace ((x :: T1 ++ T2) ++ s9) with ((x :: T1) ++ T2 ++ s9) in Hmin
    by (simpl; now rewrite app_assoc).
  now rewrite consumed_app in Hmin.
Qed.

Lemma title_search_intro (T s9 : str) (a : A) :
  T <> [] -> Forall (fun c => ti c = true) T -> kk T s9 = Some a ->
  (forall T1 T2, T = T1 ++ T2 -> T1 <> [] -> T2 <> [] -> kk T1 (T2 ++ s9) = None) ->
  title_search kk (T ++ s9) = Some a.
Proof.
  intros HT Hti Hk Hmin. destruct T as [|c T]; [contradiction|].
  inversion Hti as [|? ? Hc Hti']; subst. unfold title_search.
  change ((c :: T) ++ s9) with (c :: T ++ s9). rewrite rep_lazy_one, Hc.
  apply rep_lazy_intro; auto.
  - change (c :: T ++ s9) with ((c :: T) ++ s9). now rewrite consumed_app.
  - intros T1 T2 E HT2. subst T. rewrite <- app_assoc.
    change (c :: T1 ++ T2 ++ s9) with ((c :: T1) ++ T2 ++ s9).
    rewrite consumed_app. apply Hmin; auto. discriminate.
Qed.

Lemma title_search_none (s8 : str) :
  title_search kk s8 = None <->
  forall T s9, s8 = T ++ s9 -> T <> [] -> Forall (fun c => ti c = true) T ->
               kk T s9 = None.
Proof.
  unfold title_search. destruct s8 as [|c s].
  - split; [|reflexivity]. intros _ T s9 E HT.
    apply eq_sym, app_eq_nil in E. destruct E. contradiction.
  - rewrite rep_lazy_one. split.
    + intros H T s9 E HT Hti. destruct T as [|x T]; [contradiction|].
      inversion E; subst. inversion Hti as [|? ? Hx Hti']; subst. rewrite Hx in H.
      rewrite rep_lazy_none in H. specialize (H T s9 eq_refl Hti').
      change (x :: T ++ s9) with ((x :: T) ++ s9) in H.
      now rewrite consumed_app in H.
    + intro H. destruct (ti c) eqn:Hc; [|reflexivity].
      apply rep_lazy_none. intros T s9 -> HT.
      change (c :: T ++ s9) with ((c :: T) ++ s9). rewrite consumed_app.
      apply (H (c :: T) s9); auto. discriminate.
Qed.

(** The text after the title decides between success and failure; blank
    characters in front of it do not count. *)
Hypothesis kk_title : forall T T' z, kk T z = None -> kk T' z = None.
Hypothesis kk_blank : forall T b z, blank b -> kk T (b ++ z) = kk T z.

Lemma ti_of_space c : is_space c = true -> ti c = (c =? " ").
Proof.
  intro H.
  ascii_fact (fun c => implb (is_space c) (Bool.eqb (ti c) (c =? " "))) c G.
  rewrite H in G. simpl in G. now apply Bool.eqb_prop.
Qed.

Lemma title_in_blank_some (b X : str) (r : A) :
  blank b -> kk [" "] X = Some r -> title_search kk (" " :: b ++ X) = Some r.
Proof.
  intros Hb Hk. unfold title_search. rewrite rep_lazy_one.
  change (ti " ") with true. cbv iota.
  apply (rep_lazy_intro ti _ (T := [])); [constructor| |].
  - change (" " :: b ++ X) with ([" "] ++ (b ++ X)).
    rewrite consumed_app. simpl app. rewrite kk_blank; auto.
  - intros T1 T2 E. apply eq_sym, app_eq_nil in E. destruct E. congruence.
Qed.

Lemma title_in_blank_none (c : ascii) (b X : str) :
  is_space c = true -> blank b ->
  kk [" "] X = None -> title_search kk X = None ->
  title_search kk (c :: b ++ X) = None.
Proof.
  intros Hc Hb Hk HT. unfold title_search. rewrite rep_lazy_one.
  destruct (ti c); [|reflexivity].
  apply rep_lazy_none. intros T s9 E HTi.
  apply kk_title with (T := [" "]).
  apply app_eq_app in E. destruct E as [l [[-> ->]|[-> ->]]].
  - apply Forall_app in Hb. destruct Hb as [_ Hl]. rewrite kk_blank; auto.
  - destruct l as [|x l]; [exact Hk|].
    rewrite title_search_none in HT.
    apply kk_title with (T := x :: l). apply HT; auto; [discriminate|].
    apply Forall_app in HTi. apply HTi.
Qed.

Lemma title_not_at_blank (c : ascii) (s : str) :
  is_space c = true -> (c =? " ") = false -> title_search kk (c :: s) = None.
Proof.
  intros Hc Ec. unfold title_search. rewrite rep_lazy_one.
  now rewrite (ti_of_space _ Hc), Ec.
Qed.

(** The greedy whitespace before a lazy title: the title starts at the
    first character that is not blank when a title starts there;
    otherwise it is one space of the blank run, when the end of the
    pattern follows that run. *)
Lemma nav_search_normal (b : str) : forall X,
  blank b -> starts_not is_space X ->
  nav_search kk (b ++ X) =
  match title_search kk X with
  | Some r => Some r
  | None => if has_space b then kk [" "] X else None
  end.
Proof.
  unfold nav_search. induction b as [|c b IH]; intros X Hb HX.
  - simpl app. destruct X as [|x X]; [reflexivity|].
    simpl in HX. simpl rep_greedy. rewrite sp_is_space, HX.
    destruct (title_search kk (x :: X)); reflexivity.
  - inversion Hb as [|? ? Hc Hb']; subst. simpl app. simpl rep_greedy.
    rewrite sp_is_space, Hc. rewrite (IH X Hb' HX).
    destruct (title_search kk X) as [r|] eqn:HT; [reflexivity|].
    cbn [has_space existsb]. fold (has_space b).
    destruct (has_space b) eqn:Hs; destruct (kk [" "] X) as [r|] eqn:Hk.
    + now rewrite orb_true_r.
    + rewrite orb_true_r. now apply title_in_blank_none.
    + rewrite orb_false_r. destruct (c =? " ") eqn:Ec.
      * apply Ascii.eqb_eq in Ec. subst c. now apply title_in_blank_some.
      * now apply title_not_at_blank.
    + rewrite orb_false_r. rewrite title_in_blank_none by auto.
      now destruct (c =? " ").
Qed.
End TitleSearch.

(** ** The match of a row, through the search for its title *)

Lemma row_kk_some line c7 T s9 m :
  row_kk line c7 T s9 = Some m <->
  exists K rest,
    end_ok s9 K rest
    /\ m = {| group0 := consumed line rest; groups := (4, K) :: (3, T) :: c7 |}.
Proof.
  unfold row_kk. rewrite end_exec_some. split;
    intros (K & rest & Hok & H); exists K, rest; split; auto; congruence.
Qed.

Lemma row_kk_title line c7 T T' z :
  row_kk line c7 T z = None -> row_kk line c7 T' z = None.
Proof.
  intro H. destruct (row_kk line c7 T' z) as [m|] eqn:E; [|reflexivity].
  apply row_kk_some in E. destruct E as (K & rest & Hok & _).
  assert (G : row_kk line c7 T z
              = Some {| group0 := consumed line rest;
                        groups := (4, K) :: (3, T) :: c7 |})
    by (apply row_kk_some; eauto).
  congruence.
Qed.

Lemma row_kk_blank line c7 T b z :
  blank b -> row_kk line c7 T (b ++ z) = row_kk line c7 T z.
Proof.
  intro Hb. apply option_ext. intro m. rewrite !row_kk_some.
  split; intros (K & rest & Hok & H); exists K, rest; split; auto;
    now apply (end_ok_skip_blank z K rest Hb).
Qed.

Lemma row_kk_end line c7 T w K rest :
  blanks w -> Forall (fun c => li c = true) K ->
  row_kk line c7 T (end_text w K ++ rest)
  = Some {| group0 := consumed line rest; groups := (4, K) :: (3, T) :: c7 |}.
Proof. intros Hw HK. apply row_kk_some. exists K, rest. split; [exists w|]; auto. Qed.

(** The match of a line that starts with the front of a row, a blank run
    [b] and a text [X] that does not start with a blank. *)
Lemma row_match_front w L P b X :
  blanks w ->
  L <> [] -> Forall (fun c => is_digit c = true) L ->
  P <> [] -> Forall (fun c => pa c = true) P ->
  blank b -> starts_not is_space X ->
  re_match _ROW_PATTERN (front_text w L P ++ b ++ X) =
  match title_search (row_kk (front_text w L P ++ b ++ X) [(2, P); (1, L)]) X with
  | Some m => Some m
  | None =>
      if has_space b
      then row_kk (front_text w L P ++ b ++ X) [(2, P); (1, L)] [" "] X
      else None
  end.
Proof.
  intros Hw HL HLd HP HPp Hb HX.
  set (line := front_text w L P ++ b ++ X).
  set (kk := row_kk line [(2, P); (1, L)]).
  unfold re_match. cbn [IGNORECASE _ROW_PATTERN].
  rewrite row_exec_split. unfold line at 1.
  rewrite front_exec by assumption.
  change (nav_search kk (b ++ X) =
          match title_search kk X with
          | Some m => Some m
          | None => if has_space b then kk [" "] X else None
          end).
  apply nav_search_normal; auto.
  - intros T T' z. apply row_kk_title.
  - intros T b0 z. apply row_kk_blank.
Qed.

Lemma row_text_front w L P T K rest :
  row_text w L P T K ++ rest
  = front_text w L P ++ w 6 ++ T ++ end_text w K ++ rest.
Proof. unfold row_text, front_text, end_text. norm_app. reflexivity. Qed.

Lemma ti_not_blank c : ti c = true -> c <> " " -> is_space c = false.
Proof.
  intros Ht Hc. destruct (is_space c) eqn:E; [|reflexivity].
  rewrite (ti_of_space _ E) in Ht. now apply Ascii.eqb_eq in Ht.
Qed.

Lemma title_starts_not (T Y : str) :
  hd " " T <> " " -> Forall (fun c => ti c = true) T -> starts_not is_space (T ++ Y).
Proof.
  intros Hhd HT. destruct T as [|t0 T]; [now exfalso|].
  inversion HT; subst. simpl in *. now apply ti_not_blank.
Qed.

Lemma row_kk_none line c7 T z :
  row_kk line c7 T z = None <-> forall K r, ~ end_ok z K r.
Proof.
  split.
  - intros H K r Hok.
    assert (G : row_kk line c7 T z
                = Some {| group0 := consumed line r;
                          groups := (4, K) :: (3, T) :: c7 |})
      by (apply row_kk_some; eauto).
    congruence.
  - intro H. destruct (row_kk line c7 T z) as [m|] eqn:E; [|reflexivity].
    apply row_kk_some in E. destruct E as (K & r & Hok & _). now apply H in Hok.
Qed.

Section RowRead.
Variables (w : nat -> str) (L P : str).
Hypothesis Hw : blanks w.
Hypothesis HL : L <> [].
Hypothesis HLd : Forall (fun c => is_digit c = true) L.
Hypothesis HP : P <> [].
Hypothesis HPp : Forall (fun c => pa c = true) P.

(** A matched row whose title does not start with a space: the title
    starts at the first character that is not blank, and no shorter
    title is followed by the end of a row. *)
Lemma title_read (b T Y : str) (m : Match) (K : str) :
  blank b -> hd " " T <> " " -> Forall (fun c => ti c = true) T ->
  re_match _ROW_PATTERN (front_text w L P ++ b ++ T ++ Y) = Some m ->
  groups m = [(4, K); (3, T); (2, P); (1, L)] ->
  (exists rest, end_ok Y K rest)
  /\ forall Ta Tb, T = Ta ++ Tb -> Ta <> [] -> Tb <> [] ->
                   forall K2 r2, ~ end_ok (Tb ++ Y) K2 r2.
Proof.
  intros Hb Hhd HT Hm Hg.
  pose proof (title_starts_not Y Hhd HT) as HX.
  rewrite row_match_front in Hm by assumption.
  destruct (title_search _ (T ++ Y)) as [m1|] eqn:Hts.
  - inversion Hm; subst m1. apply title_search_some in Hts.
    destruct Hts as (T1 & s9 & E & HT1 & Hti & Hk & Hmin).
    apply row_kk_some in Hk. destruct Hk as (K1 & rest & Hok & ->).
    simpl in Hg. inversion Hg; subst. apply app_inv_head in E. subst s9.
    split; [eauto|]. intros Ta Tb ETa HTa HTb K2 r2 Hok2.
    specialize (Hmin Ta Tb ETa HTa HTb).
    rewrite row_kk_none in Hmin. exact (Hmin K2 r2 Hok2).
  - exfalso. destruct (has_space b); [|discriminate].
    apply row_kk_some in Hm. destruct Hm as (K1 & rest & _ & ->).
    simpl in Hg. inversion Hg as [[EK ET]]. rewrite <- ET in Hhd. now apply Hhd.
Qed.

(** The way back: a title that starts at the first character that is not
    blank, with the end of a row after it and after no shorter title, is
    the title the matcher finds. *)
Lemma title_found (b T Y K rest : str) :
  blank b -> hd " " T <> " " -> Forall (fun c => ti c = true) T ->
  end_ok Y K rest ->
  (forall Ta Tb, T = Ta ++ Tb -> Ta <> [] -> Tb <> [] ->
                 forall K2 r2, ~ end_ok (Tb ++ Y) K2 r2) ->
  re_match _ROW_PATTERN (front_text w L P ++ b ++ T ++ Y)
  = Some {| group0 := consumed (front_text w L P ++ b ++ T ++ Y) rest;
            groups := [(4, K); (3, T); (2, P); (1, L)] |}.
Proof.
  intros Hb Hhd HT Hok Hmin.
  pose proof (title_starts_not Y Hhd HT) as HX.
  rewrite row_match_front by assumption.
  erewrite title_search_intro; [reflexivity| | | |].
  - destruct T; [now exfalso|discriminate].
  - exact HT.
  - apply row_kk_some. eauto.
  - intros Ta Tb E HTa HTb. apply row_kk_none. intros K2 r2.
    now apply (Hmin Ta Tb).
Qed.

(** A matched row whose title starts with a space: the title is that one
    space, it stands in the blank run [b], and no title starts at the
    first character that is not blank. *)
Lemma blank_title_read (b X T : str) (m : Match) (K : str) :
  blank b -> starts_not is_space X -> hd " " T = " " -> T <> [] ->
  re_match _ROW_PATTERN (front_text w L P ++ b ++ X) = Some m ->
  groups m = [(4, K); (3, T); (2, P); (1, L)] ->
  T = [" "] /\ has_space b = true /\ (exists rest, end_ok X K rest)
  /\ forall T2 s9, X = T2 ++ s9 -> T2 <> [] -> Forall (fun c => ti c = true) T2 ->
                   forall K2 r2, ~ end_ok s9 K2 r2.
Proof.
  intros Hb HX Hhd HTn Hm Hg.
  rewrite row_match_front in Hm by assumption.
  destruct (title_search _ X) as [m1|] eqn:Hts.
  - exfalso. inversion Hm; subst m1. apply title_search_some in Hts.
    destruct Hts as (T1 & s9 & -> & HT1 & Hti & Hk & _).
    apply row_kk_some in Hk. destruct Hk as (K1 & rest & _ & ->).
    simpl in Hg. inversion Hg; subst. destruct T as [|t0 T]; [contradiction|].
    simpl in Hhd, HX. subst t0. discriminate.
  - destruct (has_space b); [|discriminate].
    apply row_kk_some in Hm. destruct Hm as (K1 & rest & Hok & ->).
    simpl in Hg. inversion Hg; subst. repeat split; eauto.
    intros T2 s9 E HT2 Hti. rewrite title_search_none in Hts.
    specialize (Hts T2 s9 E HT2 Hti). now rewrite row_kk_none in Hts.
Qed.

Lemma blank_title_found (b X K rest : str) :
  blank b -> starts_not is_space X -> has_space b = true -> end_ok X K rest ->
  (forall T2 s9, X = T2 ++ s9 -> T2 <> [] -> Forall (fun c => ti c = true) T2 ->
                 forall K2 r2, ~ end_ok s9 K2 r2) ->
  re_match _ROW_PATTERN (front_text w L P ++ b ++ X)
  = Some {| group0 := consumed (front_text w L P ++ b ++ X) rest;
            groups := [(4, K); (3, [" "]); (2, P); (1, L)] |}.
Proof.
  intros Hb HX Hs Hok Hnone.
  rewrite row_match_front by assumption.
  match goal with
  | |- context [title_search ?k X] => assert (Hts : title_search k X = None)
  end.
  { apply title_search_none. intros T2 s9 E HT2 Hti.
    apply row_kk_none. now apply (Hnone T2 s9). }
  rewrite Hts, Hs. apply row_kk_some. eauto.
Qed.
End RowRead.

(** ** Rows under inserted spaces and trailing text *)

Lemma blank_span (s : str) :
  exists b X, s = b ++ X /\ blank b /\ starts_not is_space X.
Proof.
  induction s as [|c s (b & X & -> & Hb & HX)].
  - exists [], []. repeat split. constructor.
  - destruct (is_space c) eqn:Hc.
    + exists (c :: b), X. repeat split; auto. constructor; auto.
    + exists [], (c :: b ++ X). repeat split; auto. constructor.
Qed.

Lemma pad_blanks (w w' : nat -> str) :
  (forall i, pad (w i) (w' i)) -> blanks w -> blanks w'.
Proof. intros Hp Hw i. eapply pad_blank_r; eauto. Qed.

Lemma pad_end_text (w w' : nat -> str) (K rest rest' : str) :
  (forall i, pad (w i) (w' i)) -> pad rest rest' ->
  pad (end_text w K ++ rest) (end_text w' K ++ rest').
Proof.
  intros Hp Hr. unfold end_text. norm_app.
  repeat first [ apply pad_app; [apply Hp|]
               | apply pad_keep
               | apply pad_app; [apply pad_refl|]
               | exact Hr ].
Qed.

Lemma has_space_app (a b : str) : has_space (a ++ " " :: b) = true.
Proof.
  unfold has_space. rewrite existsb_app. simpl. now rewrite orb_true_r.
Qed.

(** The match object of a line that starts with a row whose cells are the
    cells of the parsed row. *)
Lemma row_of_inj lvl P T K lvl' P' T' K' :
  row_of lvl P T K = row_of lvl' P' T' K' ->
  lvl = lvl' /\ P = P' /\ T = T' /\ K = K'.
Proof.
  unfold row_of. rewrite !or_None_Some. intro E. inversion E.
  repeat split; auto. destruct K, K'; congruence.
Qed.

Lemma parsed_cells w L P T K rest :
  blanks w -> cells L P T K ->
  _line_to_row (row_text w L P T K ++ rest) = inr (row_of (decimal_value L) P T K) ->
  exists m, re_match _ROW_PATTERN (row_text w L P T K ++ rest) = Some m
            /\ groups m = [(4, K); (3, T); (2, P); (1, L)].
Proof.
  intros Hw Hc Hrow.
  destruct (re_match _ROW_PATTERN (row_text w L P T K ++ rest)) as [m|] eqn:Hm.
  2:{ unfold _line_to_row in Hrow. rewrite Hm in Hrow. discriminate. }
  exists m. split; [reflexivity|].
  destruct (row_match_inv _ Hm) as (w1 & L1 & P1 & T1 & K1 & rest1 & E & -> & Hw1 & Hc1).
  simpl. pose proof Hm as Hm'.
  apply line_to_row_of_match in Hm'. rewrite Hrow in Hm'. symmetry in Hm'.
  apply row_outcome_inr in Hm'. destruct Hm' as (Hr & _).
  apply row_of_inj in Hr. destruct Hr as (_ & -> & -> & ->).
  rewrite !row_text_front in E.
  destruct Hc as ((HL & HLd) & (HP & HPp) & _).
  destruct Hc1 as ((HL1 & HLd1) & (HP1' & HPp1) & _).
  eapply front_text_unique in E; eauto. destruct E as (-> & _). reflexivity.
Qed.

(** A line with its level text within the limit of [int] is a line that
    [_line_to_row] turns into a row. *)
Lemma row_within_limit_parses (l : str) :
  row_grammar_within_limit l -> exists row, _line_to_row l = inr row.
Proof.
  intros (w & L & P & T & K & rest & Hw & Hc & Hlen & ->).
  assert (Hg : row_grammar (row_text w L P T K ++ rest)).
  { exists w, L, P, T, K, rest. auto. }
  apply row_match_iff in Hg.
  destruct (re_match _ROW_PATTERN (row_text w L P T K ++ rest)) as [m|] eqn:Hm;
    [|contradiction].
  destruct (row_match_inv _ Hm) as (w1 & L1 & P1 & T1 & K1 & rest1 & E & Em & Hw1 & Hc1).
  rewrite Em in Hm. apply line_to_row_of_match in Hm. rewrite Hm.
  rewrite !row_text_front in E.
  destruct Hc as ((HL & HLd) & (HP & HPp) & _).
  destruct Hc1 as ((HL1 & HLd1) & (HP1' & HPp1) & _).
  eapply front_text_unique in E; eauto. destruct E as (<- & _).
  rewrite row_outcome_ok by assumption. eauto.
Qed.

Lemma parses_row_within_limit (l : str) (row : TableRow) :
  _line_to_row l = inr row -> row_grammar_within_limit l.
Proof.
  intro H. destruct (re_match _ROW_PATTERN l) as [m|] eqn:Hm.
  2:{ rewrite (line_to_row_unmatched _ Hm) in H. discriminate. }
  destruct (row_match_inv _ Hm) as (w & L & P & T & K & rest & E & Em & Hw & Hc).
  rewrite Em in Hm. apply line_to_row_of_match in Hm. rewrite H in Hm.
  symmetry in Hm. apply row_outcome_inr in Hm. destruct Hm as (_ & Hlen & _).
  exists w, L, P, T, K, rest. auto.
Qed.



(** ** The message of the error determines the line *)






(** ** More on the three kinds of lines *)

Lemma tolower_l_not_hyphen c : unicode_tolower c = "l" -> c <> "-".
Proof. intros E ->. discriminate. Qed.

Lemma hyphen_not_space : is_space "-" = false.
Proof. reflexivity. Qed.

Lemma header_not_filler (l : str) :
  starts_with header_grammar l -> ~ starts_with filler_grammar l.
Proof.
  intros (x & rest & -> & w & l' & p' & n' & Hw & Hl' & _ & _ & ->)
         (x' & rest' & E & w' & d1 & d2 & d3 & Hw' & (N1 & H1) & _ & _ & ->).
  destruct d1 as [|c d1]; [contradiction|]. inversion H1; subst.
  destruct l' as [|c l']; [discriminate|]. inversion Hl' as [[Hc Hl]].
  unfold header_text, filler_text in E. normalize_text E.
  apply blank_run_unique in E; auto using pipe_not_space.
  destruct E as (_ & _ & E).
  apply blank_run_unique in E; auto using hyphen_not_space, tolower_l_not_space.
  destruct E as (_ & -> & _). discriminate.
Qed.

Lemma decimal_value_nonneg (L : str) :
  Forall (fun c => is_digit c = true) L -> (0 <= decimal_value L)%Z.
Proof. intro H. apply (value_from_ge H). lia. Qed.

(** ** Pages put together *)

(** The lines of a text followed by a line feed and a second text: the
    lines of both, up to an empty line between them. *)
Lemma splitlines_from_app_LF (f : str -> bool) (n : nat) : forall s cur t,
  f [] = false -> List.length s <= n ->
  filter f (splitlines_from cur (s ++ LF :: t))
  = filter f (splitlines_from cur s) ++ filter f (splitlines_from [] t).
Proof.
  induction n as [|n IH]; intros s cur t Hf Hn.
  - destruct s; [|simpl in Hn; lia]. simpl.
    destruct cur; simpl; [now rewrite Hf|destruct (f (_ :: _)); reflexivity].
  - destruct s as [|c s].
    { simpl. destruct cur; simpl; [now rewrite Hf|destruct (f (_ :: _)); reflexivity]. }
    simpl in Hn. cbn [app splitlines_from]. destruct (is_linebreak c).
    + cbn [filter].
      assert (G : filter f
                    (if c =? CR
                     then match s ++ LF :: t with
                          | [] => splitlines_from [] (s ++ LF :: t)
                          | d :: s'' =>
                              if d =? LF then splitlines_from [] s''
                              else splitlines_from [] (s ++ LF :: t)
                          end
                     else splitlines_from [] (s ++ LF :: t))
                  = filter f
                      (if c =? CR
                       then match s with
                            | [] => splitlines_from [] s
                            | d :: s'' =>
                                if d =? LF then splitlines_from [] s''
                                else splitlines_from [] s
                            end
                       else splitlines_from [] s)
                    ++ filter f (splitlines_from [] t)).
      { destruct (c =? CR); [|apply IH; [exact Hf|lia]].
        destruct s as [|d s'']; [reflexivity|]. cbn [app].
        destruct (d =? LF); [apply IH|apply (IH (d :: s''))];
          try exact Hf; simpl in *; lia. }
      destruct (f cur); cbn [app]; rewrite G; reflexivity.
    + apply IH; [exact Hf|lia].
Qed.

Lemma is_row_nil : is_row [] = false.
Proof. reflexivity. Qed.

Lemma row_lines_app_LF (p1 p2 : str) :
  filter is_row (splitlines (p1 ++ LF :: p2))
  = filter is_row (splitlines p1) ++ filter is_row (splitlines p2).
Proof.
  apply (@splitlines_from_app_LF is_row (List.length p1)); [reflexivity|lia].
Qed.

Lemma has_header_app (a page b : str) : has_header page -> has_header (a ++ page ++ b).
Proof.
  intros (a' & h & b' & -> & Hh). exists (a ++ a'), h, (b' ++ b).
  split; [now rewrite <- !app_assoc|exact Hh].
Qed.

(** A header does not need the whitespace at the end of the page. *)
Lemma has_header_trailing (page : str) (c : ascii) :
  is_space c = true -> has_header (page ++ [c]) -> has_header page.
Proof.
  intros Hc (a & h & b & E & Hh).
  destruct (list_eq_dec ascii_dec b []) as [->|Hb].
  - destruct Hh as (w & l & p & n & Hw & Hl & Hp & Hn & ->).
    rewrite app_nil_r in E.
    destruct (list_eq_dec ascii_dec (w 7) []) as [E7|E7].
    + exfalso. unfold header_text in E. rewrite E7 in E.
      replace (a ++ w 0 ++ "|" :: w 1 ++ l ++ w 2 ++ "|" :: w 3 ++ p ++ w 4 ++ "|"
                 :: w 5 ++ n ++ w 6 ++ ["|"])
        with ((a ++ w 0 ++ "|" :: w 1 ++ l ++ w 2 ++ "|" :: w 3 ++ p ++ w 4 ++ "|"
                 :: w 5 ++ n ++ w 6) ++ ["|"]) in E
        by (norm_app; reflexivity).
      apply app_inj_tail in E. destruct E as [_ ->]. discriminate.
    + destruct (exists_last E7) as (w7 & c' & E7').
      exists a, (header_text (fun i => if Nat.eqb i 7 then w7 else w i) l p n), [].
      split.
      * rewrite app_nil_r. unfold header_text in *. cbn [Nat.eqb]. rewrite E7' in E.
        replace (a ++ w 0 ++ "|" :: w 1 ++ l ++ w 2 ++ "|" :: w 3 ++ p ++ w 4 ++ "|"
                   :: w 5 ++ n ++ w 6 ++ "|" :: w7 ++ [c'])
          with ((a ++ w 0 ++ "|" :: w 1 ++ l ++ w 2 ++ "|" :: w 3 ++ p ++ w 4 ++ "|"
                   :: w 5 ++ n ++ w 6 ++ "|" :: w7) ++ [c']) in E
          by (norm_app; reflexivity).
        apply app_inj_tail in E. now destruct E as [-> _].
      * exists (fun i => if Nat.eqb i 7 then w7 else w i), l, p, n.
        repeat split; auto. intro i. destruct (Nat.eqb i 7) eqn:Ei; [|apply Hw].
        pose proof (Hw 7) as H7. rewrite E7' in H7.
        apply Forall_app in H7. apply H7.
  - destruct (exists_last Hb) as (b' & c' & ->).
    exists a, h, b'. split; [|exact Hh].
    rewrite !app_assoc in E. apply app_inj_tail in E. destruct E as [-> _].
    now rewrite <- app_assoc.
Qed.

(** Nor the whitespace at the start of the page. *)
Lemma has_header_leading (page : str) (c : ascii) :
  is_space c = true -> has_header (c :: page) -> has_header page.
Proof.
  intros Hc (a & h & b & E & Hh).
  destruct a as [|c' a].
  - destruct Hh as (w & l & p & n & Hw & Hl & Hp & Hn & ->).
    destruct (w 0) as [|c0 w0] eqn:E0.
    + exfalso. unfold header_text in E. rewrite E0 in E. simpl in E.
      inversion E; subst. discriminate.
    + exists [], (header_text (fun i => if Nat.eqb i 0 then w0 else w i) l p n), b.
      split.
      * unfold header_text in *. cbn [Nat.eqb]. rewrite E0 in E. simpl in E.
        inversion E. reflexivity.
      * exists (fun i => if Nat.eqb i 0 then w0 else w i), l, p, n.
        repeat split; auto. intro i. destruct (Nat.eqb i 0) eqn:Ei; [|apply Hw].
        pose proof (Hw 0) as H0. rewrite E0 in H0. now inversion H0.
  - simpl in E. inversion E; subst. exists a, h, b. auto.
Qed.

Lemma from_page_no_table (page : str) : ~ has_header page -> from_page page = [].
Proof.
  intro H. rewrite <- table_match_iff in H. unfold from_page.
  destruct (re_match _TABLE_PATTERN page); [|reflexivity].
  exfalso. apply H. discriminate.
Qed.

Lemma has_header_dec (page : str) : has_header page \/ ~ has_header page.
Proof.
  rewrite <- table_match_iff.
  destruct (re_match _TABLE_PATTERN page); [left; discriminate|right; auto].
Qed.

(** ** Line boundaries *)

Lemma splitlines_from_sep (l : str) :
  single_line l -> forall sep rest cur,
  line_boundary sep -> (sep = [CR] -> hd "x" rest <> LF) ->
  splitlines_from cur (l ++ sep ++ rest) = (cur ++ l) :: splitlines_from [] rest.
Proof.
  induction 1 as [|c l Hc Hl IH]; intros sep rest cur Hsep Hhd.
  - rewrite app_nil_r. destruct Hsep as [->|(c & -> & Hc)].
    + reflexivity.
    + cbn [app splitlines_from]. rewrite Hc.
      destruct (c =? CR) eqn:Ec; [|reflexivity].
      apply Ascii.eqb_eq in Ec. subst c.
      destruct rest as [|d rest]; [reflexivity|].
      destruct (d =? LF) eqn:Ed; [|reflexivity].
      apply Ascii.eqb_eq in Ed. subst d. exfalso. now apply Hhd.
  - simpl. rewrite Hc, IH, <- app_assoc by assumption. reflexivity.
Qed.

Lemma join_cons2 (sep l l2 : str) (ls : list str) :
  join sep (l :: l2 :: ls) = l ++ sep ++ join sep (l2 :: ls).
Proof. reflexivity. Qed.

Lemma join_CR_hd (lines : list str) :
  Forall single_line lines -> hd "x" (join [CR] lines) <> LF.
Proof.
  intros H. destruct H as [|l ls Hl Hls]; [discriminate|].
  destruct ls as [|l2 ls].
  - simpl. destruct Hl as [|c l Hc Hl]; [discriminate|]. simpl. now intros ->.
  - rewrite join_cons2. destruct Hl as [|c l Hc Hl]; [discriminate|].
    simpl. now intros ->.
Qed.

Lemma splitlines_join_sep (sep : str) (lines : list str) :
  line_boundary sep -> Forall single_line lines ->
  splitlines (join sep lines) = splitlines (join [LF] lines).
Proof.
  intros Hsep H. unfold splitlines. induction H as [|l ls Hl Hls IH]; [reflexivity|].
  destruct ls as [|l2 ls]; [reflexivity|].
  rewrite !join_cons2.
  rewrite (splitlines_from_sep Hl), (splitlines_from_sep Hl).
  - now rewrite IH.
  - right. exists LF. split; reflexivity.
  - discriminate.
  - exact Hsep.
  - intros ->. now apply join_CR_hd.
Qed.

Lemma in_join_substring (sep h : str) (lines : list str) :
  In h lines -> exists a b, join sep lines = a ++ h ++ b.
Proof.
  induction lines as [|l ls IH]; [contradiction|]. intros [->|Hin].
  - destruct ls as [|l2 ls].
    + exists [], []. simpl. now rewrite app_nil_r.
    + exists [], (sep ++ join sep (l2 :: ls)). reflexivity.
  - destruct ls as [|l2 ls]; [contradiction|].
    destruct (IH Hin) as (a & b & E). exists (l ++ sep ++ a), b.
    rewrite join_cons2, E, <- !app_assoc. reflexivity.
Qed.

Lemma header_line_in_join (sep : str) (lines : list str) :
  (exists h, In h lines /\ starts_with header_grammar h) ->
  has_header (join sep lines).
Proof.
  intros (h & Hin & x & rest & -> & Hx).
  destruct (in_join_substring sep _ _ Hin) as (a & b & E).
  exists a, x, (rest ++ b). split; [|exact Hx]. now rewrite E, <- !app_assoc.
Qed.

(** ** Inserted whitespace of any kind *)

Lemma wpad_refl (s : str) : wpad s s.
Proof. induction s; constructor; assumption. Qed.

Lemma wpad_app (a a' b b' : str) : wpad a a' -> wpad b b' -> wpad (a ++ b) (a' ++ b').
Proof. induction 1; intro Hb; simpl; [assumption| |]; constructor; auto. Qed.

Lemma wpad_app_inv (u' : str) : forall z v',
  wpad z (u' ++ v') -> exists u v, z = u ++ v /\ wpad u u' /\ wpad v v'.
Proof.
  induction u' as [|c u' IH]; intros z v' H; simpl in H.
  - exists [], z. repeat split; [constructor|assumption].
  - inversion H as [|c0 s0 s0' Hp|c0 s0 s0' Hc Hp]; subst.
    + destruct (IH _ _ Hp) as (u & v & -> & Hu & Hv).
      exists (c :: u), v. repeat split; [constructor|]; assumption.
    + destruct (IH _ _ Hp) as (u & v & -> & Hu & Hv).
      exists u, v. repeat split; [constructor|]; assumption.
Qed.

Lemma wpad_cons_inv (c : ascii) (z v' : str) :
  is_space c = false -> wpad z (c :: v') -> exists v, z = c :: v /\ wpad v v'.
Proof. intros Hc H. inversion H; subst; [eauto|congruence]. Qed.

Lemma wpad_run_inv (K : str) : forall z v',
  Forall (fun c => is_space c = false) K -> wpad z (K ++ v') ->
  exists v, z = K ++ v /\ wpad v v'.
Proof.
  induction K as [|c K IH]; intros z v' HK H; simpl in H;
    [exists z; split; [reflexivity|exact H]|].
  inversion HK as [|? ? Hc HK']; subst. apply wpad_cons_inv in H; auto.
  destruct H as (v & -> & H). destruct (IH _ _ HK' H) as (v0 & -> & Hv).
  exists v0. split; [reflexivity|exact Hv].
Qed.

Lemma wpad_blank (a a' : str) : wpad a a' -> blank a' -> blank a.
Proof.
  unfold blank. induction 1 as [|c s s' Hp IH|c s s' Hc Hp IH]; intro Hb.
  - constructor.
  - inversion Hb; subst. constructor; auto.
  - inversion Hb; subst. auto.
Qed.

Lemma wpad_blank_r (a a' : str) : wpad a a' -> blank a -> blank a'.
Proof.
  unfold blank. induction 1 as [|c s s' Hp IH|c s s' Hc Hp IH]; intro Hb.
  - constructor.
  - inversion Hb; subst. constructor; auto.
  - constructor; auto.
Qed.

Lemma wpad_Forall (p : ascii -> bool) (a a' : str) :
  wpad a a' -> Forall (fun c => p c = true) a' -> Forall (fun c => p c = true) a.
Proof.
  induction 1 as [|c s s' Hp IH|c s s' Hc Hp IH]; intro Hb.
  - constructor.
  - inversion Hb; subst. constructor; auto.
  - inversion Hb; subst. auto.
Qed.

Lemma wpad_blanks (w w' : nat -> str) :
  (forall i, wpad (w i) (w' i)) -> blanks w -> blanks w'.
Proof. intros Hp Hw i. eapply wpad_blank_r; eauto. Qed.

(** Deleting inserted whitespace keeps the end of a row. *)
Lemma end_ok_unwpad (z z' K r' : str) :
  wpad z z' -> end_ok z' K r' -> exists r, end_ok z K r /\ wpad r r'.
Proof.
  intros Hp (w' & Hw' & HK & ->). unfold end_text in Hp. normalize_text Hp.
  apply wpad_app_inv in Hp. destruct Hp as (a7 & z1 & -> & H7 & Hp).
  apply wpad_cons_inv in Hp; [|reflexivity]. destruct Hp as (z2 & -> & Hp).
  apply wpad_app_inv in Hp. destruct Hp as (a8 & z3 & -> & H8 & Hp).
  apply wpad_cons_inv in Hp; [|reflexivity]. destruct Hp as (z4 & -> & Hp).
  apply wpad_app_inv in Hp. destruct Hp as (a9 & z5 & -> & H9 & Hp).
  apply wpad_run_inv in Hp.
  2:{ eapply Forall_impl; [|exact HK]. exact li_not_space. }
  destruct Hp as (z6 & -> & Hp).
  apply wpad_app_inv in Hp. destruct Hp as (a10 & z7 & -> & H10 & Hp).
  apply wpad_cons_inv in Hp; [|reflexivity]. destruct Hp as (z8 & -> & Hp).
  apply wpad_app_inv in Hp. destruct Hp as (a11 & z9 & -> & H11 & Hp).
  apply wpad_cons_inv in Hp; [|reflexivity]. destruct Hp as (r & -> & Hp).
  exists r. split; [|exact Hp].
  exists (fun i => nth i [[]; []; []; []; []; []; []; a7; a8; a9; a10; a11] []).
  split; [|split; [exact HK|]].
  - pose proof (wpad_blank H7 (Hw' 7)). pose proof (wpad_blank H8 (Hw' 8)).
    pose proof (wpad_blank H9 (Hw' 9)). pose proof (wpad_blank H10 (Hw' 10)).
    pose proof (wpad_blank H11 (Hw' 11)). solve_blanks.
  - unfold end_text. cbn [nth]. norm_app. reflexivity.
Qed.

Lemma wpad_end_text (w w' : nat -> str) (K rest rest' : str) :
  (forall i, wpad (w i) (w' i)) -> wpad rest rest' ->
  wpad (end_text w K ++ rest) (end_text w' K ++ rest').
Proof.
  intros Hp Hr. unfold end_text. norm_app.
  repeat first [ apply wpad_app; [apply Hp|]
               | apply wpad_keep
               | apply wpad_app; [apply wpad_refl|]
               | exact Hr ].
Qed.

(** ** Rows and the limit of [int] *)

Lemma parsed_outcome w L P T K rest :
  blanks w -> cells L P T K ->
  _line_to_row (row_text w L P T K ++ rest) = inr (row_of (decimal_value L) P T K) ->
  row_outcome L P T K = inr (row_of (decimal_value L) P T K).
Proof.
  intros Hw Hc Hrow.
  destruct (@parsed_cells w L P T K rest Hw Hc Hrow) as (m & Hm & Hg).
  destruct m as [g0 gs]. simpl in Hg. subst gs.
  apply line_to_row_of_match in Hm. now rewrite <- Hm.
Qed.

(** A line the row pattern matches, by its level text: a row when the
    level is within the limit, the ValueError of [int] otherwise. *)
Lemma matched_outcome_limit (l : str) :
  is_row l = true ->
  (row_grammar_within_limit l /\ exists row, _line_to_row l = inr row)
  \/ (~ row_grammar_within_limit l /\ _line_to_row l = inl ValueError).
Proof.
  intro H. unfold is_row in H. apply is_not_None_true in H.
  destruct (re_match _ROW_PATTERN l) as [m|] eqn:Hm; [|contradiction].
  destruct (matched_outcome _ Hm) as [[row Hr]|He].
  - left. split; [eapply parses_row_within_limit|]; eauto.
  - right. split; [|exact He]. intro Hl.
    apply row_within_limit_parses in Hl. destruct Hl as [row Hr]. congruence.
Qed.




(** ** A row with a level above the limit of [int] *)

Lemma long_level_row_single : single_line long_level_row.
Proof.
  unfold long_level_row. apply Forall_app. split; [apply single_line_check; reflexivity|].
  apply Forall_app. split; [|apply single_line_check; reflexivity].
  apply Forall_forall. intros c Hc. apply repeat_spec in Hc. now subst c.
Qed.

Lemma long_level_row_grammar : row_grammar long_level_row.
Proof.
  exists (fun i => nth i [[]; [" "]; [" "]; [" "]; [" "]; [" "]; []; []; []; []; [];
                          [" "]] []),
    (repeat "1" (S int_max_str_digits)), (lit "a"), (lit "A"), [], [].
  split; [|split].
  - intro i. do 12 (destruct i as [|i]; [repeat constructor|]).
    simpl. destruct i; constructor.
  - split; [split|split; [split|split; [split|]]]; try discriminate.
    + apply Forall_forall. intros c Hc. apply repeat_spec in Hc. now subst c.
    + repeat constructor.
    + repeat constructor.
    + constructor.
  - unfold long_level_row, row_text. cbn [nth]. norm_app. reflexivity.
Qed.

Lemma long_level_not_within_limit :
  ~ level_within_limit (repeat "1" (S int_max_str_digits)).
Proof. unfold level_within_limit. rewrite repeat_length. lia. Qed.

Lemma long_level_row_raises : _line_to_row long_level_row = inl ValueError.
Proof.
  pose proof long_level_row_grammar as Hg. apply is_row_true in Hg.
  destruct (matched_outcome_limit _ Hg) as [[Hl _]|[_ He]]; [exfalso|exact He].
  destruct Hl as (w & L & P & T & K & rest & Hw & Hc & Hlen & E).
  assert (E' : long_level_row
               = row_text (fun i => nth i [[]; [" "]; [" "]; [" "]; [" "]; [" "]; [];
                                           []; []; []; []; [" "]] [])
                   (repeat "1" (S int_max_str_digits)) (lit "a") (lit "A") [] ++ []).
  { unfold long_level_row, row_text. cbn [nth]. norm_app. reflexivity. }
  rewrite E' in E. rewrite !row_text_front in E.
  destruct Hc as ((HL & HLd) & (HP & HPp) & _).
  eapply front_text_unique in E; eauto.
  - destruct E as (<- & _). now apply long_level_not_within_limit.
  - intro i. do 12 (destruct i as [|i]; [repeat constructor|]).
    simpl. destruct i; constructor.
  - discriminate.
  - apply Forall_forall. intros c Hc. apply repeat_spec in Hc. now subst c.
  - discriminate.
  - repeat constructor.
Qed.

Lemma page_with_long_level_lines :
  splitlines page_with_long_level
  = [ lit "| Level | Path | Navlink |"; lit "| -- | -- | -- |"; long_level_row ].
Proof.
  apply splitlines_join.
  - constructor; [apply single_line_check; reflexivity|].
    constructor; [apply single_line_check; reflexivity|].
    constructor; [exact long_level_row_single|constructor].
  - cbn [last]. unfold long_level_row. discriminate.
Qed.

Lemma example_header_grammar : header_grammar (lit "| Level | Path | Navlink |").
Proof.
  exists (fun i => nth i [[]; [" "]; [" "]; [" "]; [" "]; [" "]; [" "]] []),
    (lit "Level"), (lit "Path"), (lit "Navlink").
  split; [|repeat split].
  intro i. do 7 (destruct i as [|i]; [repeat constructor|]).
  simpl. destruct i; constructor.
Qed.

Lemma page_with_long_level_outcome :
  from_page page_with_long_level = [inl ValueError].
Proof.
  assert (H : has_header page_with_long_level).
  { exists [], (lit "| Level | Path | Navlink |"),
      (LF :: join [LF] [lit "| -- | -- | -- |"; long_level_row]).
    split; [reflexivity|exact example_header_grammar]. }
  destruct (from_page_with_header H) as [_ ->].
  rewrite page_with_long_level_lines. cbn [filter].
  replace (is_row (lit "| Level | Path | Navlink |")) with false by reflexivity.
  replace (is_row (lit "| -- | -- | -- |")) with false by reflexivity.
  pose proof long_level_row_grammar as Hg. apply is_row_true in Hg. rewrite Hg.
  simpl. now rewrite long_level_row_raises.
Qed.

(** * The claims *)

(** The title set as the engine reads it: the punctuation characters are
    in it, the double quote too, the backslash is not (it escapes the
    closing bracket that follows it in the set), and of the whitespace
    only the space is. *)
Example title_set_items :
  forallb ti (lit " !#$%&'()*+,-./:;<=>?@[]^_`{|}~aZ09") = true
  /\ ti dquote = true /\ ti backslash = false /\ ti TAB = false.
Proof. vm_compute. auto. Qed.

(** C1. On the example page of the specification (an intro line, a blank
    line, the header, the filler and two rows) the iterator of [from_page]
    yields exactly the two rows, in order: level 1, path group-1, title
    Group 1 without link, then level 2, path page-1, title Page 1 with link
    group-1/page-1. *)
Theorem from_page_example :
  from_page example_page = map inr example_rows
  /\ consume (from_page example_page) = inr example_rows.
Proof. split; vm_compute; reflexivity. Qed.

(** C3. Consuming the iterator of [from_page] never raises
    NavigationTableParseError, whatever the page: only lines the row
    pattern matches reach [_line_to_row], so every step yields a row or
    the ValueError of [int] on a level text above its limit, never the
    parse error. *)
Theorem from_page_never_parse_error (page : str) :
  Forall (fun o => (exists row, o = inr row) \/ o = inl ValueError) (from_page page)
  /\ (forall msg, ~ In (inl (NavigationTableParseError msg)) (from_page page))
  /\ (forall msg, consume (from_page page) <> inl (NavigationTableParseError msg)).
Proof.
  assert (H : Forall (fun o => (exists row, o = inr row) \/ o = inl ValueError)
                (from_page page)).
  { unfold from_page. destruct (re_match _TABLE_PATTERN page) as [m|].
    - apply kept_lines_parse.
    - constructor. }
  assert (Hin : forall msg, ~ In (inl (NavigationTableParseError msg)) (from_page page)).
  { intros msg Hin. rewrite Forall_forall in H.
    destruct (H _ Hin) as [[row Hr]|Hr]; discriminate. }
  split; [exact H|]. split; [exact Hin|].
  intros msg Hc. apply consume_error in Hc. exact (Hin msg Hc).
Qed.



(** C2. On a page that contains no substring matching the header grammar
    (the cells level, path, navlink in that order, in any case, with any
    whitespace around cells and pipes), [from_page] returns an iterator
    that is exhausted at once, and consuming it raises nothing. *)
Theorem from_page_no_header (page : str) :
  ~ has_header page ->
  from_page page = [] /\ consume (from_page page) = inr [].
Proof.
  intro H. rewrite <- table_match_iff in H. unfold from_page.
  destruct (re_match _TABLE_PATTERN page); [|split; reflexivity].
  exfalso. apply H. discriminate.
Qed.

Lemma from_page_no_header_witness :
  from_page (lit "Some intro text, | 1 | a | [A]() | and no table.") = []
  /\ consume (from_page (lit "Some intro text, | 1 | a | [A]() | and no table.")) = inr [].
Proof.
  apply from_page_no_header. rewrite <- table_match_iff.
  vm_compute. intro H. apply H. reflexivity.
Defined.




(** C9, the claim as stated fails. On a page with a header line, a line
    that the row pattern matches but whose level text has more digits
    than [int] converts gives no TableRow: the iterator raises
    ValueError when it reaches it. *)
Lemma long_level_row_not_yielded :
  (exists h, In h (splitlines page_with_long_level) /\ starts_with header_grammar h)
  /\ filter is_row (splitlines page_with_long_level) = [long_level_row]
  /\ from_page page_with_long_level = [inl ValueError]
  /\ consume (from_page page_with_long_level) = inl ValueError.
Proof.
  split; [|split; [|split]].
  - exists (lit "| Level | Path | Navlink |"). split.
    + rewrite page_with_long_level_lines. now left.
    + apply header_match_iff. vm_compute. discriminate.
  - rewrite page_with_long_level_lines. cbn [filter].
    replace (is_row (lit "| Level | Path | Navlink |")) with false by reflexivity.
    replace (is_row (lit "| -- | -- | -- |")) with false by reflexivity.
    pose proof long_level_row_grammar as H. apply is_row_true in H. now rewrite H.
  - exact page_with_long_level_outcome.
  - rewrite page_with_long_level_outcome. reflexivity.
Qed.

(** C9, amended. When a line of the page is a header line, the table
    pattern matches the whole page, and [from_page] hands every line of
    the page that the row pattern matches to [_line_to_row], in page
    order, also the row lines that stand before the header. Each such
    line gives its TableRow when its level text is within the limit of
    [int], and ValueError otherwise; when all of them are within the
    limit, the iterator yields the row of every one. *)
Theorem rows_of_whole_page (page : str) :
  (exists h, In h (splitlines page) /\ starts_with header_grammar h) ->
  (exists m, re_match _TABLE_PATTERN page = Some m /\ group0 m = page)
  /\ from_page page = map _line_to_row (filter is_row (splitlines page))
  /\ Forall (fun l => (row_grammar_within_limit l /\ exists row, _line_to_row l = inr row)
                      \/ (~ row_grammar_within_limit l
                          /\ _line_to_row l = inl ValueError))
       (filter is_row (splitlines page))
  /\ (Forall row_grammar_within_limit (filter is_row (splitlines page)) ->
      exists trs,
        from_page page = map inr trs
        /\ Forall2 (fun l r => _line_to_row l = inr r)
             (filter is_row (splitlines page)) trs).
Proof.
  intros (h & Hin & x & rest & -> & Hx).
  apply splitlines_substring in Hin. destruct Hin as (a & b & Hab).
  assert (Hhead : has_header page).
  { exists a, x, (rest ++ b). split; [|exact Hx]. now rewrite Hab, <- !app_assoc. }
  destruct (from_page_with_header Hhead) as [Hm Hpage]. split; [exact Hm|].
  split; [exact Hpage|]. split.
  - apply Forall_forall. intros l Hl. apply filter_In in Hl.
    destruct Hl as [_ Hl]. now apply matched_outcome_limit.
  - intro Hall. rewrite Hpage.
    assert (Hp : Forall (fun l => is_row l = true -> exists r, _line_to_row l = inr r)
                   (splitlines page)).
    { apply Forall_forall. intros l Hl Hr. apply row_within_limit_parses.
      rewrite Forall_forall in Hall. apply Hall. apply filter_In. auto. }
    exact (rows_parse Hp).
Qed.

Lemma rows_of_whole_page_witness :
  (exists m, re_match _TABLE_PATTERN page_with_early_row = Some m
             /\ group0 m = page_with_early_row)
  /\ from_page page_with_early_row
     = map _line_to_row (filter is_row (splitlines page_with_early_row))
  /\ Forall (fun l => (row_grammar_within_limit l /\ exists row, _line_to_row l = inr row)
                      \/ (~ row_grammar_within_limit l
                          /\ _line_to_row l = inl ValueError))
       (filter is_row (splitlines page_with_early_row))
  /\ (Forall row_grammar_within_limit (filter is_row (splitlines page_with_early_row)) ->
      exists trs,
        from_page page_with_early_row = map inr trs
        /\ Forall2 (fun l r => _line_to_row l = inr r)
             (filter is_row (splitlines page_with_early_row)) trs).
Proof.
  apply rows_of_whole_page. exists (lit "| Level | Path | Navlink |"). split.
  - vm_compute. right. right. left. reflexivity.
  - apply header_match_iff. vm_compute. discriminate.
Defined.

(** The rows of the page above: the row before the header comes first. *)
Example early_row_is_yielded :
  from_page page_with_early_row =
  map inr [ row_of 1 (lit "early") (lit "Early") [];
            row_of 2 (lit "late") (lit "Late") (lit "late") ].
Proof. vm_compute. reflexivity. Qed.

(** C6, the claim as stated fails: two valid row lines whose level texts
    differ (1 and 01) and whose other cells agree give the same TableRow,
    since the level is stored as a number. *)
Lemma leading_zero_same_row :
  (exists m1 m2,
     re_match _ROW_PATTERN (lit "| 1 | a | [A]() |") = Some m1
     /\ re_match _ROW_PATTERN (lit "| 01 | a | [A]() |") = Some m2
     /\ group m1 1 = Some (lit "1") /\ group m2 1 = Some (lit "01")
     /\ group m1 1 <> group m2 1)
  /\ _line_to_row (lit "| 1 | a | [A]() |") = _line_to_row (lit "| 01 | a | [A]() |").
Proof.
  split; [|vm_compute; reflexivity].
  do 2 eexists. split; [vm_compute; reflexivity|]. split; [vm_compute; reflexivity|].
  repeat split. discriminate.
Qed.

(** C6, amended. For two lines the row pattern matches and
    [_line_to_row] parses, with cells (L1, P1, T1, K1) and
    (L2, P2, T2, K2), the TableRows are equal exactly when the paths,
    titles and links are equal and the level texts denote the same
    integer; so rows differ as soon as a path, title or link differs, or
    the levels differ as numbers. *)
Theorem line_to_row_injective (l1 l2 : str) (m1 m2 : Match) (r1 r2 : TableRow) :
  re_match _ROW_PATTERN l1 = Some m1 -> re_match _ROW_PATTERN l2 = Some m2 ->
  _line_to_row l1 = inr r1 -> _line_to_row l2 = inr r2 ->
  exists L1 P1 T1 K1 L2 P2 T2 K2,
    groups m1 = [(4, K1); (3, T1); (2, P1); (1, L1)]
    /\ groups m2 = [(4, K2); (3, T2); (2, P2); (1, L2)]
    /\ int L1 = Some (level r1) /\ int L2 = Some (level r2)
    /\ (r1 = r2 <-> int L1 = int L2 /\ P1 = P2 /\ T1 = T2 /\ K1 = K2).
Proof.
  intros H1 H2 E1 E2.
  destruct (line_to_row_matched _ H1) as (L1 & P1 & T1 & K1 & G1 & C1 & R1).
  destruct (line_to_row_matched _ H2) as (L2 & P2 & T2 & K2 & G2 & C2 & R2).
  exists L1, P1, T1, K1, L2, P2, T2, K2. split; [exact G1|]. split; [exact G2|].
  rewrite E1 in R1. rewrite E2 in R2. symmetry in R1, R2.
  apply row_outcome_inr in R1. apply row_outcome_inr in R2.
  destruct R1 as (-> & _ & I1). destruct R2 as (-> & _ & I2).
  rewrite I1, I2. simpl level. split; [reflexivity|]. split; [reflexivity|]. split.
  - intro E. apply row_of_inj in E. destruct E as (-> & -> & -> & ->). auto.
  - intros (E & -> & -> & ->). inversion E as [E']. now rewrite E'.
Qed.

Lemma line_to_row_injective_witness :
  exists L1 P1 T1 K1 L2 P2 T2 K2,
    [(4, []); (3, lit "A"); (2, lit "a"); (1, lit "1")]
    = [(4, K1); (3, T1); (2, P1); (1, L1)]
    /\ [(4, []); (3, lit "B"); (2, lit "a"); (1, lit "01")]
       = [(4, K2); (3, T2); (2, P2); (1, L2)]
    /\ int L1 = Some 1%Z /\ int L2 = Some 1%Z
    /\ (row_of 1 (lit "a") (lit "A") [] = row_of 1 (lit "a") (lit "B") []
        <-> int L1 = int L2 /\ P1 = P2 /\ T1 = T2 /\ K1 = K2).
Proof.
  apply (@line_to_row_injective
           (lit "| 1 | a | [A]() |") (lit "| 01 | a | [B]() |")
           {| group0 := lit "| 1 | a | [A]() |";
              groups := [(4, []); (3, lit "A"); (2, lit "a"); (1, lit "1")] |}
           {| group0 := lit "| 01 | a | [B]() |";
              groups := [(4, []); (3, lit "B"); (2, lit "a"); (1, lit "01")] |}
           (row_of 1 (lit "a") (lit "A") []) (row_of 1 (lit "a") (lit "B") []));
    vm_compute; reflexivity.
Defined.

(** C7. For a line the row pattern matches and [_line_to_row] parses,
    the link of the parsed row is None exactly when the matched link
    text (group 4) is empty, and is the matched text otherwise; the
    matched text never holds a whitespace character, so whitespace in
    the link cell never makes a link. *)
Theorem link_omission (line : str) (m : Match) (row : TableRow) :
  re_match _ROW_PATTERN line = Some m -> _line_to_row line = inr row ->
  exists K,
    group m 4 = Some K
    /\ (link (navlink row) = None <-> K = [])
    /\ (K <> [] -> link (navlink row) = Some K)
    /\ Forall (fun c => is_space c = false) K.
Proof.
  intros H Hrow. destruct (line_to_row_matched _ H) as (L & P & T & K & G & C & R).
  rewrite Hrow in R. symmetry in R. apply row_outcome_inr in R.
  destruct R as (-> & _).
  exists K. unfold group. rewrite G. simpl lookup.
  split; [reflexivity|].
  assert (HK : Forall (fun c => is_space c = false) K).
  { destruct C as (_ & _ & _ & HK). eapply Forall_impl; [|exact HK].
    exact li_not_space. }
  destruct K as [|k K]; simpl; repeat split; auto; congruence.
Qed.

Lemma link_omission_witness :
  exists K,
    Some (lit "some/path") = Some K
    /\ (Some (lit "some/path") = None <-> K = [])
    /\ (K <> [] -> Some (lit "some/path") = Some K)
    /\ Forall (fun c => is_space c = false) K.
Proof.
  apply (@link_omission (lit "| 1 | p | [Title]( some/path ) |")
           {| group0 := lit "| 1 | p | [Title]( some/path ) |";
              groups := [(4, lit "some/path"); (3, lit "Title"); (2, lit "p");
                         (1, lit "1")] |}
           {| level := 1; path := lit "p";
              navlink := {| title := lit "Title"; link := Some (lit "some/path") |} |});
    vm_compute; reflexivity.
Defined.

(** The three navlink cells of the specification: no link text, a link
    text, and a link cell of whitespace only. *)
Example link_cells :
  _line_to_row (lit "| 1 | p | [Title]() |")
    = inr (row_of 1 (lit "p") (lit "Title") [])
  /\ link (navlink (row_of 1 (lit "p") (lit "Title") [])) = None
  /\ _line_to_row (lit "| 1 | p | [Title](some/path) |")
    = inr {| level := 1; path := lit "p";
             navlink := {| title := lit "Title"; link := Some (lit "some/path") |} |}
  /\ _line_to_row (lit "| 1 | p | [Title](   ) |")
    = inr {| level := 1; path := lit "p";
             navlink := {| title := lit "Title"; link := None |} |}.
Proof. repeat split; vm_compute; reflexivity. Qed.

(** C8. Whitespace insensitivity. Take a line that starts with a row laid
    out with the whitespace runs [w] around its pipes and its cells
    (level [L], path [P], title [T], link [K]), these cells being the ones
    [_line_to_row] reads from it, and followed by [rest]. Every line
    obtained by inserting space characters into the whitespace runs, and
    into what follows the closing pipe, gives an equal TableRow. *)
Theorem whitespace_insensitive (w w' : nat -> str) (L P T K rest rest' : str) :
  blanks w -> cells L P T K ->
  (forall i, pad (w i) (w' i)) -> pad rest rest' ->
  _line_to_row (row_text w L P T K ++ rest) = inr (row_of (decimal_value L) P T K) ->
  _line_to_row (row_text w' L P T K ++ rest')
  = _line_to_row (row_text w L P T K ++ rest).
Proof.
  intros Hw Hc Hp Hpr Hrow. pose proof (@pad_blanks w w' Hp Hw) as Hw'.
  destruct (@parsed_cells w L P T K rest Hw Hc Hrow) as (m & Hm & Hg). rewrite Hrow.
  destruct Hc as ((HL & HLd) & (HP & HPp) & (HT & HTt) & HK).
  rewrite row_text_front in Hm.
  assert (G : exists g0, re_match _ROW_PATTERN (row_text w' L P T K ++ rest')
                = Some {| group0 := g0; groups := [(4, K); (3, T); (2, P); (1, L)] |}).
  2:{ destruct G as [g0 G]. apply line_to_row_of_match in G. rewrite G.
      exact (@parsed_outcome w L P T K rest Hw
               (conj (conj HL HLd) (conj (conj HP HPp) (conj (conj HT HTt) HK))) Hrow). }
  rewrite row_text_front.
  destruct (ascii_dec (hd " " T) " ") as [Hhd|Hhd].
  - (* the title is one space of the blank run *)
    destruct (blank_span (w 6 ++ T ++ end_text w K ++ rest)) as (b & X & E & Hb & HX).
    rewrite E in Hm.
    destruct (@blank_title_read w L P Hw HL HLd HP HPp b X T m K Hb HX Hhd HT Hm Hg)
      as (-> & _ & _ & _).
    assert (E2 : b ++ X = (w 6 ++ " " :: w 7)
                  ++ "]" :: w 8 ++ "(" :: w 9 ++ K ++ w 10 ++ ")" :: w 11 ++ "|" :: rest).
    { rewrite <- E. unfold end_text. norm_app. reflexivity. }
    apply (@run_unique is_space) in E2;
      [|exact Hb
       |apply blank_app; [apply Hw|]; constructor; [reflexivity|apply Hw]
       |exact HX|reflexivity].
    destruct E2 as [-> ->]. clear E.
    destruct (@blank_title_read w L P Hw HL HLd HP HPp _ _ [" "] m K Hb HX Hhd HT Hm Hg)
      as (_ & _ & _ & Hnone).
    eexists.
    replace (w' 6 ++ [" "] ++ end_text w' K ++ rest')
      with ((w' 6 ++ " " :: w' 7)
            ++ end_text (fun i => if Nat.eqb i 7 then [] else w' i) K ++ rest')
      by (unfold end_text; simpl; norm_app; reflexivity).
    apply blank_title_found; try assumption.
    + apply blank_app; [apply Hw'|]. constructor; [reflexivity|apply Hw'].
    + apply has_space_app.
    + exists (fun i => if Nat.eqb i 7 then [] else w' i). repeat split; auto.
      intro i. destruct (Nat.eqb i 7); [constructor|apply Hw'].
    + intros T2 s9 E HT2 Hti K2 r2 Hok.
      assert (Hpad : pad ("]" :: w 8 ++ "(" :: w 9 ++ K ++ w 10 ++ ")" :: w 11
                          ++ "|" :: rest) (T2 ++ s9)).
      { rewrite <- E. unfold end_text. simpl. norm_app. apply pad_keep.
        repeat first [ apply pad_app; [apply Hp|] | apply pad_keep
                     | apply pad_app; [apply pad_refl|] | exact Hpr ]. }
      apply pad_app_inv in Hpad. destruct Hpad as (T2o & s9o & Eo & HpT & Hps).
      destruct (end_ok_unpad Hps Hok) as (r & Hoko & _).
      refine (Hnone T2o s9o Eo _ _ K2 r Hoko); [|eapply pad_Forall; eauto].
      destruct T2 as [|t T2]; [contradiction|].
      unfold end_text in E. simpl in E. inversion E; subst t.
      apply pad_cons_inv in HpT; [|discriminate].
      destruct HpT as (v & -> & _). discriminate.
  - (* the title starts at the first character that is not blank *)
    destruct (@title_read w L P Hw HL HLd HP HPp (w 6) T _ m K (Hw 6) Hhd HTt Hm Hg)
      as ((r0 & Hok) & Hmin).
    eexists. apply title_found; try assumption.
    + apply Hw'.
    + exists w'. repeat split; auto.
    + intros Ta Tb E HTa HTb K2 r2 Hok2.
      assert (Hpad : pad (Tb ++ end_text w K ++ rest) (Tb ++ end_text w' K ++ rest')).
      { apply pad_app; [apply pad_refl|now apply pad_end_text]. }
      destruct (end_ok_unpad Hpad Hok2) as (r & Hoko & _).
      exact (Hmin Ta Tb E HTa HTb K2 r Hoko).
Qed.

Lemma whitespace_insensitive_witness :
  _line_to_row (row_text (fun i => nth i [[]; [" "]; []] [" "; " "])
                  (lit "12") (lit "p-1") (lit "A title") (lit "a/b") ++ lit "  tail")
  = _line_to_row (row_text (fun _ => []) (lit "12") (lit "p-1") (lit "A title")
                    (lit "a/b") ++ lit "tail").
Proof.
  apply whitespace_insensitive.
  - intro i. constructor.
  - unfold cells. repeat split; try discriminate;
      apply forallb_Forall_true; reflexivity.
  - intro i. do 3 (destruct i as [|i]; [simpl; repeat constructor|]).
    simpl. destruct i; repeat constructor.
  - repeat constructor.
  - vm_compute. reflexivity.
Defined.

(** The row of a blank title cell is kept too: the title is the single
    space in both lines. *)
Example blank_title_padded :
  _line_to_row (lit "| 1 | p | [ ]() |") = inr (row_of 1 (lit "p") (lit " ") [])
  /\ _line_to_row (lit "|  1 |  p  | [    ] (  )  |")
      = inr (row_of 1 (lit "p") (lit " ") []).
Proof. split; vm_compute; reflexivity. Qed.

(** C10, the claim as stated fails: the row [| 1 | p | [ ]() |] alone has
    the title of one space, and with the trailing text [ ]() |] the same
    line start is read with the title []() |]: the TableRows differ. *)
Lemma trailing_text_changes_row :
  (exists m, re_match _ROW_PATTERN (lit "| 1 | p | [ ]() |") = Some m
             /\ group0 m = lit "| 1 | p | [ ]() |")
  /\ _filter_line (lit "| 1 | p | [ ]() |" ++ lit " ]() |") = false
  /\ _line_to_row (lit "| 1 | p | [ ]() |")
     = inr (row_of 1 (lit "p") (lit " ") [])
  /\ _line_to_row (lit "| 1 | p | [ ]() |" ++ lit " ]() |")
     = inr (row_of 1 (lit "p") (lit "]() |") [])
  /\ _line_to_row (lit "| 1 | p | [ ]() |" ++ lit " ]() |")
     <> _line_to_row (lit "| 1 | p | [ ]() |").
Proof.
  split; [eexists; split; vm_compute; reflexivity|].
  repeat split; try (vm_compute; reflexivity). vm_compute. discriminate.
Qed.

(** C10, amended. A line that begins with a complete row (the row pattern
    matches the row through its closing pipe) followed by any trailing
    text is still classified as a row. When [_line_to_row] parses the row
    alone, it parses the longer line too, to a TableRow with the level
    and the path of the row alone; when the title of the row alone does
    not begin with a space, the whole TableRow is that of the row alone.
    When the row alone raises the ValueError of [int], so does the
    longer line. *)
Theorem trailing_text_ignored (r extra : str) (m : Match) :
  re_match _ROW_PATTERN r = Some m -> group0 m = r ->
  _filter_line (r ++ extra) = false
  /\ (forall row, _line_to_row r = inr row ->
        exists row',
          _line_to_row (r ++ extra) = inr row'
          /\ level row' = level row /\ path row' = path row
          /\ (hd " " (title (navlink row)) <> " " -> row' = row))
  /\ (_line_to_row r = inl ValueError -> _line_to_row (r ++ extra) = inl ValueError).
Proof.
  intros Hm Hg0.
  destruct (row_match_inv _ Hm) as (w & L & P & T & K & rest0 & E & Em & Hw & Hc).
  subst m. simpl in Hg0. subst r. clear E.
  assert (Hgram : row_grammar (row_text w L P T K ++ extra)).
  { exists w, L, P, T, K, extra. auto. }
  split.
  { rewrite filter_line_spec. apply negb_false_iff. apply is_row_true. exact Hgram. }
  pose proof Hm as Hrow. apply line_to_row_of_match in Hrow.
  apply row_match_iff in Hgram.
  destruct (re_match _ROW_PATTERN (row_text w L P T K ++ extra)) as [m'|] eqn:Hm';
    [clear Hgram|contradiction].
  destruct (row_match_inv _ Hm') as (w1 & L1 & P1 & T1 & K1 & rest1 & E1 & Em' & Hw1 & Hc1).
  pose proof Hm' as Hrow'. rewrite Em' in Hrow'.
  apply line_to_row_of_match in Hrow'.
  pose proof Hc as ((HL & HLd) & (HP & HPp) & (HT & HTt) & HK).
  pose proof Hc1 as ((HL1 & HLd1) & (HP1 & HPp1) & _).
  pose proof E1 as E2. rewrite !row_text_front in E2.
  eapply front_text_unique in E2; eauto. destruct E2 as (<- & <- & _).
  rewrite Hrow, Hrow'. split.
  2:{ intro He. apply row_outcome_inl in He. destruct He as [_ He].
      unfold row_outcome. now rewrite He. }
  intros row Hr. apply row_outcome_inr in Hr. destruct Hr as (-> & Hlen & _).
  exists (row_of (decimal_value L) P T1 K1).
  split; [now apply row_outcome_ok|].
  split; [reflexivity|]. split; [reflexivity|].
  simpl title. intro Hhd.
  (* the title of the row alone is the shortest one on the longer line too *)
  rewrite <- (app_nil_r (row_text w L P T K)) in Hm.
  rewrite row_text_front in Hm.
  destruct (@title_read w L P Hw HL HLd HP HPp (w 6) T _ _ K (Hw 6) Hhd HTt Hm eq_refl)
    as (_ & Hmin).
  assert (G : re_match _ROW_PATTERN (row_text w L P T K ++ extra)
              = Some {| group0 := consumed
                          (front_text w L P ++ w 6 ++ T ++ end_text w K ++ extra) extra;
                        groups := [(4, K); (3, T); (2, P); (1, L)] |}).
  { rewrite row_text_front. apply title_found; try assumption.
    - apply Hw.
    - exists w. auto.
    - intros Ta Tb ETa HTa HTb K2 r2 Hok.
      set (pre := w 7 ++ "]" :: w 8 ++ "(" :: w 9 ++ K ++ w 10 ++ ")" :: w 11).
      assert (E3 : Tb ++ end_text w K ++ extra = (Tb ++ pre) ++ "|" :: extra)
        by (unfold end_text, pre; norm_app; reflexivity).
      assert (E4 : Tb ++ end_text w K ++ [] = (Tb ++ pre) ++ ["|"])
        by (unfold end_text, pre; norm_app; reflexivity).
      rewrite E3 in Hok. apply end_ok_cut in Hok. destruct Hok as [r Hr].
      rewrite <- E4 in Hr. exact (Hmin Ta Tb ETa HTa HTb K2 r Hr). }
  rewrite Hm', Em' in G. inversion G; subst. reflexivity.
Qed.

Lemma trailing_text_ignored_witness :
  _filter_line (lit "| 1 | p | [A]( k ) |" ++ lit " and more | text") = false
  /\ (forall row, _line_to_row (lit "| 1 | p | [A]( k ) |") = inr row ->
        exists row',
          _line_to_row (lit "| 1 | p | [A]( k ) |" ++ lit " and more | text") = inr row'
          /\ level row' = level row /\ path row' = path row
          /\ (hd " " (title (navlink row)) <> " " -> row' = row))
  /\ (_line_to_row (lit "| 1 | p | [A]( k ) |") = inl ValueError ->
      _line_to_row (lit "| 1 | p | [A]( k ) |" ++ lit " and more | text")
      = inl ValueError).
Proof.
  apply (@trailing_text_ignored (lit "| 1 | p | [A]( k ) |") (lit " and more | text")
           {| group0 := lit "| 1 | p | [A]( k ) |";
              groups := [(4, lit "k"); (3, lit "A"); (2, lit "p"); (1, lit "1")] |}).
  - vm_compute. reflexivity.
  - reflexivity.
Defined.

(** * Further properties of the module *)

(** X1. The filter and the parser agree: [_filter_line] leaves a line
    out exactly when [_line_to_row] raises NavigationTableParseError for
    it, and lets it through exactly when [_line_to_row] returns a row or
    raises the ValueError of [int] on a level text above its limit; the
    tests for a header and for a filler never hide a line that the row
    pattern matches. *)
Theorem filter_line_iff_row_parses (line : str) :
  (_filter_line line = false
   <-> (exists row, _line_to_row line = inr row) \/ _line_to_row line = inl ValueError)
  /\ (_filter_line line = true
      <-> exists msg, _line_to_row line = inl (NavigationTableParseError msg)).
Proof.
  rewrite filter_line_spec. unfold is_row.
  destruct (re_match _ROW_PATTERN line) as [m|] eqn:Hm; simpl.
  - pose proof (matched_outcome _ Hm) as Ho. split; split.
    + intros _. exact Ho.
    + reflexivity.
    + discriminate.
    + intros [msg H]. destruct Ho as [[row Hr]|Hr]; rewrite Hr in H; discriminate.
  - rewrite (line_to_row_unmatched _ Hm). split; split.
    + discriminate.
    + intros [[row H]|H]; discriminate.
    + eauto.
    + reflexivity.
Qed.

(** X2. The three line patterns exclude one another: no line is matched
    by two of the header pattern, the filler pattern and the row
    pattern, so the order of the tests in [_filter_line] plays no
    part. *)
Theorem line_patterns_disjoint (line : str) :
  (re_match _TABLE_HEADER_PATTERN line <> None ->
   re_match _FILLER_ROW_PATTERN line = None /\ re_match _ROW_PATTERN line = None)
  /\ (re_match _FILLER_ROW_PATTERN line <> None ->
      re_match _TABLE_HEADER_PATTERN line = None /\ re_match _ROW_PATTERN line = None)
  /\ (re_match _ROW_PATTERN line <> None ->
      re_match _TABLE_HEADER_PATTERN line = None
      /\ re_match _FILLER_ROW_PATTERN line = None).
Proof.
  assert (N : forall o : option Match, ~ o <> None -> o = None).
  { intros [m|] H; [exfalso; apply H; discriminate|reflexivity]. }
  repeat split; apply N; intro H'.
  - apply header_match_iff in H. apply filler_match_iff in H'.
    now apply header_not_filler in H.
  - apply header_match_iff in H. apply row_match_iff in H'.
    now apply row_not_header in H'.
  - apply filler_match_iff in H. apply header_match_iff in H'.
    now apply header_not_filler in H'.
  - apply filler_match_iff in H. apply row_match_iff in H'.
    now apply row_not_filler in H'.
  - apply row_match_iff in H. apply header_match_iff in H'.
    now apply row_not_header in H.
  - apply row_match_iff in H. apply filler_match_iff in H'.
    now apply row_not_filler in H.
Qed.

Lemma line_patterns_disjoint_witness :
  re_match _TABLE_HEADER_PATTERN (lit "| 1 | a | [A]() |") = None
  /\ re_match _FILLER_ROW_PATTERN (lit "| 1 | a | [A]() |") = None.
Proof.
  apply (line_patterns_disjoint (lit "| 1 | a | [A]() |")).
  vm_compute. discriminate.
Defined.

(** X3. The header is looked for in the page as a whole, not line by
    line: when the page holds the header cells level, path and navlink
    anywhere, also spread over several lines (line breaks are whitespace
    between cells and pipes), [from_page] hands every line of the page
    that the filter keeps to [_line_to_row], in page order; when the
    level texts of these lines are within the limit of [int], it yields
    the row of every one. *)
Theorem from_page_header_anywhere (page : str) :
  has_header page ->
  from_page page
  = map _line_to_row (filter (fun l => negb (_filter_line l)) (splitlines page))
  /\ (Forall row_grammar_within_limit
        (filter (fun l => negb (_filter_line l)) (splitlines page)) ->
      exists trs,
        from_page page = map inr trs
        /\ Forall2 (fun l r => _line_to_row l = inr r)
             (filter (fun l => negb (_filter_line l)) (splitlines page)) trs).
Proof.
  intro H. destruct (from_page_with_header H) as [_ Hpage]. rewrite Hpage.
  rewrite (filter_ext (fun l => negb (_filter_line l)) is_row).
  2:{ intro l. rewrite filter_line_spec. apply negb_involutive. }
  split; [reflexivity|]. intro Hall. apply rows_parse.
  apply Forall_forall. intros l Hl Hr. apply row_within_limit_parses.
  rewrite Forall_forall in Hall. apply Hall. apply filter_In. auto.
Qed.

Lemma from_page_header_anywhere_witness :
  from_page (join [LF] [ lit "| 1 | a | [A]() |"; lit "| Level"; lit "| Path";
                         lit "| Navlink |"; lit "| 2 | b | [B](b) |" ])
  = map _line_to_row
      (filter (fun l => negb (_filter_line l))
         (splitlines (join [LF] [ lit "| 1 | a | [A]() |"; lit "| Level";
                                  lit "| Path"; lit "| Navlink |";
                                  lit "| 2 | b | [B](b) |" ])))
  /\ (Forall row_grammar_within_limit
        (filter (fun l => negb (_filter_line l))
           (splitlines (join [LF] [ lit "| 1 | a | [A]() |"; lit "| Level";
                                    lit "| Path"; lit "| Navlink |";
                                    lit "| 2 | b | [B](b) |" ]))) ->
      exists trs,
        from_page (join [LF] [ lit "| 1 | a | [A]() |"; lit "| Level"; lit "| Path";
                               lit "| Navlink |"; lit "| 2 | b | [B](b) |" ])
        = map inr trs
        /\ Forall2 (fun l r => _line_to_row l = inr r)
             (filter (fun l => negb (_filter_line l))
                (splitlines (join [LF] [ lit "| 1 | a | [A]() |"; lit "| Level";
                                         lit "| Path"; lit "| Navlink |";
                                         lit "| 2 | b | [B](b) |" ]))) trs).
Proof.
  apply from_page_header_anywhere. apply table_match_iff. vm_compute. discriminate.
Defined.

(** The rows of the page above, whose header is spread over three
    lines. *)
Example header_over_three_lines :
  from_page (join [LF] [ lit "| 1 | a | [A]() |"; lit "| Level"; lit "| Path";
                         lit "| Navlink |"; lit "| 2 | b | [B](b) |" ])
  = map inr [ row_of 1 (lit "a") (lit "A") []; row_of 2 (lit "b") (lit "B") (lit "b") ].
Proof. vm_compute. reflexivity. Qed.

(** X4. What a parsed row always looks like: the level is not negative,
    the path is a non-empty text of word characters and hyphens, the
    title is a non-empty text of word characters, spaces and
    punctuation other than the backslash, and the link is either absent
    or a non-empty text of word characters, slashes and hyphens. *)
Theorem parsed_row_invariants (line : str) (row : TableRow) :
  _line_to_row line = inr row ->
  (0 <= level row)%Z
  /\ path row <> []
  /\ Forall (fun c => is_word c || (c =? "-") = true) (path row)
  /\ title (navlink row) <> []
  /\ Forall (fun c => is_word c || (c =? " ")
                      || (existsb (Ascii.eqb c) string_punctuation
                          && negb (c =? backslash)) = true)
       (title (navlink row))
  /\ match link (navlink row) with
     | None => True
     | Some k =>
         k <> [] /\ Forall (fun c => is_word c || (c =? "/") || (c =? "-") = true) k
     end.
Proof.
  intro H.
  destruct (re_match _ROW_PATTERN line) as [m|] eqn:Hm.
  2:{ unfold _line_to_row in H. rewrite Hm in H. discriminate. }
  destruct (line_to_row_matched _ Hm) as (L & P & T & K & _ & Hc & Hr).
  rewrite Hr in H. apply row_outcome_inr in H. destruct H as (-> & _). simpl.
  destruct Hc as ((HL & HLd) & (HP & HPp) & (HT & HTt) & HK).
  split; [now apply decimal_value_nonneg|]. split; [exact HP|].
  split. { eapply Forall_impl; [|exact HPp]. intros c Hc. now rewrite <- pa_spec. }
  split; [exact HT|].
  split. { eapply Forall_impl; [|exact HTt]. intros c Hc. now rewrite <- ti_spec. }
  destruct K as [|k K]; simpl; [exact I|]. split; [discriminate|].
  eapply Forall_impl; [|exact HK]. intros c Hc. now rewrite <- li_spec.
Qed.

Lemma parsed_row_invariants_witness :
  (0 <= 2)%Z
  /\ lit "page-1" <> []
  /\ Forall (fun c => is_word c || (c =? "-") = true) (lit "page-1")
  /\ lit "Page 1" <> []
  /\ Forall (fun c => is_word c || (c =? " ")
                      || (existsb (Ascii.eqb c) string_punctuation
                          && negb (c =? backslash)) = true)
       (lit "Page 1")
  /\ (lit "group-1/page-1" <> []
      /\ Forall (fun c => is_word c || (c =? "/") || (c =? "-") = true)
           (lit "group-1/page-1")).
Proof.
  apply (@parsed_row_invariants (lit "| 2 | page-1 | [Page 1](group-1/page-1) |")
           {| level := 2; path := lit "page-1";
              navlink := {| title := lit "Page 1";
                            link := Some (lit "group-1/page-1") |} |}).
  vm_compute. reflexivity.
Defined.

(** X5. The title of a parsed row is stripped: it neither begins nor ends
    with a space, unless it is the single space of a blank title
    cell. *)
Theorem parsed_title_stripped (line : str) (row : TableRow) :
  _line_to_row line = inr row ->
  title (navlink row) = [" "]
  \/ (hd " " (title (navlink row)) <> " " /\ last (title (navlink row)) " " <> " ").
Proof.
  intro H.
  destruct (re_match _ROW_PATTERN line) as [m|] eqn:Hm.
  2:{ unfold _line_to_row in H. rewrite Hm in H. discriminate. }
  destruct (row_match_inv _ Hm) as (w & L & P & T & K & rest & -> & Em & Hw & Hc).
  pose proof Hm as Hr. rewrite Em in Hr.
  apply line_to_row_of_match in Hr.
  rewrite Hr in H. apply row_outcome_inr in H. destruct H as (-> & _). clear Hr. simpl.
  destruct Hc as ((HL & HLd) & (HP & HPp) & (HT & HTt) & HK).
  assert (Hg : groups m = [(4, K); (3, T); (2, P); (1, L)]) by (now subst m).
  rewrite row_text_front in Hm.
  destruct (ascii_dec (hd " " T) " ") as [Hhd|Hhd].
  - left.
    destruct (blank_span (w 6 ++ T ++ end_text w K ++ rest)) as (b & X & E & Hb & HX).
    rewrite E in Hm.
    now destruct (@blank_title_read w L P Hw HL HLd HP HPp b X T m K Hb HX Hhd HT Hm Hg).
  - right. split; [exact Hhd|]. intro Hlast.
    destruct (@title_read w L P Hw HL HLd HP HPp (w 6) T _ m K (Hw 6) Hhd HTt Hm Hg)
      as ((r0 & Hok) & Hmin).
    destruct (exists_last HT) as (Ta & c & ET). subst T.
    rewrite last_last in Hlast. subst c.
    destruct Ta as [|t Ta]; [now apply Hhd|].
    refine (Hmin (t :: Ta) [" "] eq_refl _ _ K r0 _); [discriminate|discriminate|].
    apply (@end_ok_skip_blank [" "]); [repeat constructor|exact Hok].
Qed.

Lemma parsed_title_stripped_witness :
  lit "A title" = [" "]
  \/ (hd " " (lit "A title") <> " " /\ last (lit "A title") " " <> " ").
Proof.
  apply (@parsed_title_stripped (lit "| 1 | p | [   A title  ]() |")
           {| level := 1; path := lit "p";
              navlink := {| title := lit "A title"; link := None |} |}).
  vm_compute. reflexivity.
Defined.

(** X6. Writing a row and reading it back: a line that starts with a row
    laid out with any whitespace runs [w] around the cells L, P, T, K,
    where the level text is within the limit of [int] and the title T
    holds no closing bracket and neither begins nor ends with a space,
    is parsed to exactly these cells, whatever follows the closing
    pipe. *)
Theorem row_text_parses (w : nat -> str) (L P T K rest : str) :
  blanks w -> cells L P T K -> level_within_limit L ->
  hd " " T <> " " -> last T " " <> " " -> ~ In "]" T ->
  _line_to_row (row_text w L P T K ++ rest) = inr (row_of (decimal_value L) P T K).
Proof.
  intros Hw ((HL & HLd) & (HP & HPp) & (HT & HTt) & HK) Hlen Hhd Hlast Hbr.
  rewrite row_text_front. rewrite <- (row_outcome_ok P T K HL HLd Hlen).
  eapply line_to_row_of_match.
  apply title_found; try assumption.
  - apply Hw.
  - exists w. auto.
  - intros Ta Tb E HTa HTb K2 r2 (w2 & Hw2 & HK2 & E2).
    destruct (blank_span Tb) as (b1 & X1 & -> & Hb1 & HX1).
    destruct X1 as [|c X1].
    + rewrite app_nil_r in *.
      destruct (exists_last HTb) as (b' & c & ->).
      rewrite app_assoc in E. rewrite E, last_last in Hlast.
      apply Forall_app in Hb1. destruct Hb1 as [_ Hc]. inversion Hc; subst.
      assert (Hti : ti c = true).
      { rewrite Forall_forall in HTt. apply HTt. apply in_or_app. right. now left. }
      rewrite (ti_of_space _ H1) in Hti. apply Ascii.eqb_eq in Hti. contradiction.
    + simpl in HX1. unfold end_text in E2. normalize_text E2.
      apply blank_run_unique in E2; [|exact Hb1|apply Hw2|exact HX1|reflexivity].
      destruct E2 as (_ & -> & _). apply Hbr. subst T.
      apply in_or_app. right. apply in_or_app. right. now left.
Qed.

Lemma row_text_parses_witness :
  _line_to_row (row_text (fun i => nth i [[]; [" "]; [TAB]] [" "]) (lit "007") (lit "p_1")
                  (lit "A (long) title | x") (lit "a/b-c") ++ lit " ](z) |")
  = inr (row_of (decimal_value (lit "007")) (lit "p_1") (lit "A (long) title | x")
           (lit "a/b-c")).
Proof.
  apply row_text_parses.
  - intro i. do 3 (destruct i as [|i]; [repeat constructor|]).
    simpl. destruct i; repeat constructor.
  - unfold cells. repeat split; try discriminate;
      apply forallb_Forall_true; reflexivity.
  - unfold level_within_limit, int_max_str_digits. simpl. lia.
  - discriminate.
  - discriminate.
  - vm_compute. intuition discriminate.
Defined.

(** X7. A row starts with a pipe: a line whose first character that is
    not whitespace is not a pipe, and a line of whitespace only, is left
    out by [_filter_line] and refused by [_line_to_row]. *)
Theorem row_needs_leading_pipe (b X : str) :
  blank b -> starts_not (fun c => is_space c || (c =? "|")) X ->
  _filter_line (b ++ X) = true
  /\ _line_to_row (b ++ X)
     = inl (NavigationTableParseError (lit "Invalid table row, line=" ++ repr (b ++ X))).
Proof.
  intros Hb HX.
  assert (Hn : re_match _ROW_PATTERN (b ++ X) = None).
  { destruct (re_match _ROW_PATTERN (b ++ X)) as [m|] eqn:Hm; [exfalso|reflexivity].
    destruct (row_match_inv _ Hm) as (w & L & P & T & K & rest & E & _ & Hw & _).
    unfold row_text in E. normalize_text E.
    apply (@run_unique is_space) in E.
    - destruct E as [_ ->]. simpl in HX. discriminate.
    - exact Hb.
    - apply Hw.
    - destruct X as [|c X]; simpl in *; [exact I|].
      now apply orb_false_iff in HX.
    - reflexivity. }
  split.
  - rewrite filter_line_spec. unfold is_row. now rewrite Hn.
  - unfold _line_to_row. now rewrite Hn.
Qed.

Lemma row_needs_leading_pipe_witness :
  _filter_line (lit "  " ++ lit "1 | a | [A]() |") = true
  /\ _line_to_row (lit "  " ++ lit "1 | a | [A]() |")
     = inl (NavigationTableParseError
              (lit "Invalid table row, line=" ++ repr (lit "  " ++ lit "1 | a | [A]() |"))).
Proof.
  apply row_needs_leading_pipe.
  - repeat constructor.
  - reflexivity.
Defined.

(** X8. Two pages that each hold a table, put one after the other with a
    line feed between them, give the rows of the first followed by the
    rows of the second. *)
Theorem from_page_two_tables (p1 p2 : str) :
  has_header p1 -> has_header p2 ->
  from_page (p1 ++ LF :: p2) = from_page p1 ++ from_page p2.
Proof.
  intros H1 H2.
  assert (H : has_header (p1 ++ LF :: p2)).
  { apply (@has_header_app [] p1 (LF :: p2)). exact H1. }
  destruct (from_page_with_header H) as [_ ->].
  destruct (from_page_with_header H1) as [_ ->].
  destruct (from_page_with_header H2) as [_ ->].
  now rewrite row_lines_app_LF, map_app.
Qed.

Lemma from_page_two_tables_witness :
  from_page (join [LF] [lit "| level | path | navlink |"; lit "| 1 | a | [A]() |"]
             ++ LF :: join [LF] [lit "| Level | Path | Navlink |";
                                 lit "| 2 | b | [B](b) |"])
  = from_page (join [LF] [lit "| level | path | navlink |"; lit "| 1 | a | [A]() |"])
    ++ from_page (join [LF] [lit "| Level | Path | Navlink |";
                             lit "| 2 | b | [B](b) |"]).
Proof.
  apply from_page_two_tables; apply table_match_iff; vm_compute; discriminate.
Defined.

(** X9. A line feed at the end of the page, or at its start, changes
    nothing: the rows are those of the page without it. *)
Theorem from_page_outer_line_feed (page : str) :
  from_page (page ++ [LF]) = from_page page
  /\ from_page (LF :: page) = from_page page.
Proof.
  destruct (has_header_dec page) as [H|H].
  - destruct (from_page_with_header H) as [_ ->]. split.
    + assert (H' : has_header (page ++ [LF])) by (apply (@has_header_app [] page [LF] H)).
      destruct (from_page_with_header H') as [_ ->].
      now rewrite row_lines_app_LF, app_nil_r.
    + assert (H' : has_header (LF :: page)).
      { rewrite <- (app_nil_r page). apply (@has_header_app [LF] page [] H). }
      destruct (from_page_with_header H') as [_ ->].
      change (LF :: page) with ([] ++ LF :: page). now rewrite row_lines_app_LF.
  - rewrite (from_page_no_table H). split; apply from_page_no_table; intro H'; apply H.
    + now apply has_header_trailing in H'.
    + now apply has_header_leading in H'.
Qed.

(** X10. The line boundary does not matter: lines joined by CR LF, or by
    any single boundary character (CR, LF, ...), give the same rows as
    the same lines joined by LF, when one of the lines holds the
    header. *)
Theorem from_page_any_line_boundary (sep : str) (lines : list str) :
  line_boundary sep -> Forall single_line lines ->
  (exists h, In h lines /\ starts_with header_grammar h) ->
  from_page (join sep lines) = from_page (join [LF] lines).
Proof.
  intros Hsep Hl Hh.
  destruct (from_page_with_header (header_line_in_join sep _ Hh)) as [_ ->].
  destruct (from_page_with_header (header_line_in_join [LF] _ Hh)) as [_ ->].
  now rewrite (splitlines_join_sep Hsep Hl).
Qed.

Lemma from_page_any_line_boundary_witness :
  from_page (join [CR; LF] [ lit "| Level | Path | Navlink |"; lit "| -- | -- | -- |";
                             lit ""; lit "| 1 | a | [A]() |"; lit "" ])
  = from_page (join [LF] [ lit "| Level | Path | Navlink |"; lit "| -- | -- | -- |";
                           lit ""; lit "| 1 | a | [A]() |"; lit "" ]).
Proof.
  apply from_page_any_line_boundary.
  - left. reflexivity.
  - repeat constructor; apply single_line_check; reflexivity.
  - exists (lit "| Level | Path | Navlink |"). split; [now left|].
    apply header_match_iff. vm_compute. discriminate.
Defined.

(** X11. Whitespace of any kind: on a line that starts with a row whose
    cells are the ones [_line_to_row] reads, inserting whitespace
    characters (spaces, tabs, no-break spaces, ...) into the whitespace
    runs around the pipes, the cells, the brackets and the parentheses,
    and into what follows the closing pipe, gives an equal TableRow. *)
Theorem any_whitespace_insensitive (w w' : nat -> str) (L P T K rest rest' : str) :
  blanks w -> cells L P T K ->
  (forall i, wpad (w i) (w' i)) -> wpad rest rest' ->
  _line_to_row (row_text w L P T K ++ rest) = inr (row_of (decimal_value L) P T K) ->
  _line_to_row (row_text w' L P T K ++ rest')
  = _line_to_row (row_text w L P T K ++ rest).
Proof.
  intros Hw Hc Hp Hpr Hrow. pose proof (@wpad_blanks w w' Hp Hw) as Hw'.
  destruct (@parsed_cells w L P T K rest Hw Hc Hrow) as (m & Hm & Hg). rewrite Hrow.
  destruct Hc as ((HL & HLd) & (HP & HPp) & (HT & HTt) & HK).
  rewrite row_text_front in Hm.
  assert (G : exists g0, re_match _ROW_PATTERN (row_text w' L P T K ++ rest')
                = Some {| group0 := g0; groups := [(4, K); (3, T); (2, P); (1, L)] |}).
  2:{ destruct G as [g0 G]. apply line_to_row_of_match in G. rewrite G.
      exact (@parsed_outcome w L P T K rest Hw
               (conj (conj HL HLd) (conj (conj HP HPp) (conj (conj HT HTt) HK))) Hrow). }
  rewrite row_text_front.
  destruct (ascii_dec (hd " " T) " ") as [Hhd|Hhd].
  - (* the title is one space of the blank run *)
    destruct (blank_span (w 6 ++ T ++ end_text w K ++ rest)) as (b & X & E & Hb & HX).
    rewrite E in Hm.
    destruct (@blank_title_read w L P Hw HL HLd HP HPp b X T m K Hb HX Hhd HT Hm Hg)
      as (-> & _ & _ & _).
    assert (E2 : b ++ X = (w 6 ++ " " :: w 7)
                  ++ "]" :: w 8 ++ "(" :: w 9 ++ K ++ w 10 ++ ")" :: w 11 ++ "|" :: rest).
    { rewrite <- E. unfold end_text. norm_app. reflexivity. }
    apply (@run_unique is_space) in E2;
      [|exact Hb
       |apply blank_app; [apply Hw|]; constructor; [reflexivity|apply Hw]
       |exact HX|reflexivity].
    destruct E2 as [-> ->]. clear E.
    destruct (@blank_title_read w L P Hw HL HLd HP HPp _ _ [" "] m K Hb HX Hhd HT Hm Hg)
      as (_ & _ & _ & Hnone).
    eexists.
    replace (w' 6 ++ [" "] ++ end_text w' K ++ rest')
      with ((w' 6 ++ " " :: w' 7)
            ++ end_text (fun i => if Nat.eqb i 7 then [] else w' i) K ++ rest')
      by (unfold end_text; simpl; norm_app; reflexivity).
    apply blank_title_found; try assumption.
    + apply blank_app; [apply Hw'|]. constructor; [reflexivity|apply Hw'].
    + apply has_space_app.
    + exists (fun i => if Nat.eqb i 7 then [] else w' i). repeat split; auto.
      intro i. destruct (Nat.eqb i 7); [constructor|apply Hw'].
    + intros T2 s9 E HT2 Hti K2 r2 Hok.
      assert (Hpad : wpad ("]" :: w 8 ++ "(" :: w 9 ++ K ++ w 10 ++ ")" :: w 11
                           ++ "|" :: rest) (T2 ++ s9)).
      { rewrite <- E. unfold end_text. simpl. norm_app. apply wpad_keep.
        repeat first [ apply wpad_app; [apply Hp|] | apply wpad_keep
                     | apply wpad_app; [apply wpad_refl|] | exact Hpr ]. }
      apply wpad_app_inv in Hpad. destruct Hpad as (T2o & s9o & Eo & HpT & Hps).
      destruct (end_ok_unwpad Hps Hok) as (r & Hoko & _).
      refine (Hnone T2o s9o Eo _ _ K2 r Hoko); [|eapply wpad_Forall; eauto].
      destruct T2 as [|t T2]; [contradiction|].
      unfold end_text in E. simpl in E. inversion E; subst t.
      apply wpad_cons_inv in HpT; [|reflexivity].
      destruct HpT as (v & -> & _). discriminate.
  - (* the title starts at the first character that is not blank *)
    destruct (@title_read w L P Hw HL HLd HP HPp (w 6) T _ m K (Hw 6) Hhd HTt Hm Hg)
      as ((r0 & Hok) & Hmin).
    eexists. apply title_found; try assumption.
    + apply Hw'.
    + exists w'. repeat split; auto.
    + intros Ta Tb E HTa HTb K2 r2 Hok2.
      assert (Hpad : wpad (Tb ++ end_text w K ++ rest) (Tb ++ end_text w' K ++ rest')).
      { apply wpad_app; [apply wpad_refl|now apply wpad_end_text]. }
      destruct (end_ok_unwpad Hpad Hok2) as (r & Hoko & _).
      exact (Hmin Ta Tb E HTa HTb K2 r Hoko).
Qed.

Lemma any_whitespace_insensitive_witness :
  _line_to_row (row_text (fun i => nth i [[TAB]; [" "; TAB]; []] [ascii_of_N 160; " "])
                  (lit "12") (lit "p-1") (lit "A title") (lit "a/b")
                ++ TAB :: lit "tail")
  = _line_to_row (row_text (fun i => nth i [[]; [" "]; []] [" "])
                    (lit "12") (lit "p-1") (lit "A title") (lit "a/b") ++ lit "tail").
Proof.
  apply any_whitespace_insensitive.
  - intro i. do 3 (destruct i as [|i]; [repeat constructor|]).
    simpl. destruct i; repeat constructor.
  - unfold cells. repeat split; try discriminate;
      apply forallb_Forall_true; reflexivity.
  - intro i. do 3 (destruct i as [|i]; [simpl; repeat constructor|]).
    simpl. destruct i; repeat constructor.
  - repeat constructor.
  - vm_compute. reflexivity.
Defined.

(** Taking whitespace away is another matter: the tab in the link cell of
    the first line keeps the text after the closing bracket from being
    read as a title; with a space in its place the title changes. *)
Example whitespace_replaced_changes_row :
  _line_to_row ((lit "| 1 | p | [ ](" ++ [TAB]) ++ lit ") | ]() |")
  = inr (row_of 1 (lit "p") (lit " ") [])
  /\ _line_to_row (lit "| 1 | p | [ ]( ) | ]() |")
     = inr (row_of 1 (lit "p") (lit "]( ) |") []).
Proof. split; vm_compute; reflexivity. Qed.

(** X12. What the header pattern and the filler pattern accept. The
    header pattern matches a line exactly when the line starts with the
    three names level, path and navlink, in any case, each closed by a
    pipe, after an opening pipe, with any whitespace between them; the
    filler pattern matches exactly when the line starts with an opening
    pipe and three columns of one or more hyphens, each closed by a
    pipe, with any whitespace between them. *)
Theorem header_and_filler_grammar (line : str) :
  (re_match _TABLE_HEADER_PATTERN line <> None
   <-> exists w l p n rest,
         blanks w
         /\ map unicode_tolower l = lit "level"
         /\ map unicode_tolower p = lit "path"
         /\ map unicode_tolower n = lit "navlink"
         /\ line = header_text w l p n ++ rest)
  /\ (re_match _FILLER_ROW_PATTERN line <> None
      <-> exists w d1 d2 d3 rest,
            blanks w /\ hyphens d1 /\ hyphens d2 /\ hyphens d3
            /\ line = filler_text w d1 d2 d3 ++ rest).
Proof.
  rewrite header_match_iff, filler_match_iff. split; split.
  - intros (x & rest & -> & w & l & p & n & Hw & Hl & Hp & Hn & ->).
    exists w, l, p, n, rest. auto.
  - intros (w & l & p & n & rest & Hw & Hl & Hp & Hn & ->).
    exists (header_text w l p n), rest. split; [reflexivity|].
    exists w, l, p, n. auto.
  - intros (x & rest & -> & w & d1 & d2 & d3 & Hw & H1 & H2 & H3 & ->).
    exists w, d1, d2, d3, rest. auto.
  - intros (w & d1 & d2 & d3 & rest & Hw & H1 & H2 & H3 & ->).
    exists (filler_text w d1 d2 d3), rest. split; [reflexivity|].
    exists w, d1, d2, d3. auto.
Qed.

(** A filler with the colons of a column alignment is not accepted by
    the filler pattern. *)
Example aligned_filler_not_matched :
  re_match _FILLER_ROW_PATTERN (lit "| :-- | --: | --- |") = None
  /\ re_match _FILLER_ROW_PATTERN (lit "|-|---|--| and more") <> None.
Proof. split; vm_compute; [reflexivity|discriminate]. Qed.

(** X13. The table pattern: it matches exactly the pages that hold a
    header somewhere, and a match always spans the whole page, so that
    the table handed to the line filter is the page itself, with the
    text before the header and after the table. *)
Theorem table_pattern_spans_page (page : str) :
  (re_match _TABLE_PATTERN page <> None <-> has_header page)
  /\ forall m, re_match _TABLE_PATTERN page = Some m -> group0 m = page.
Proof.
  split; [apply table_match_iff|]. intros m Hm. now apply table_match_whole.
Qed.

Lemma table_pattern_spans_page_witness :
  exists m, re_match _TABLE_PATTERN example_page = Some m /\ group0 m = example_page.
Proof.
  eexists. split; [vm_compute; reflexivity|].
  apply (proj2 (table_pattern_spans_page example_page)). vm_compute. reflexivity.
Defined.

(** X14. The level cell starts with a digit: a line whose first
    character after the opening pipe and the whitespace that follows it
    is not a digit (a sign, a letter, a pipe, nothing at all) is no row;
    [_line_to_row] refuses it and [_filter_line] leaves it out. *)
Theorem row_needs_digit_level (b1 b2 X : str) :
  blank b1 -> blank b2 -> starts_not (fun c => is_space c || is_digit c) X ->
  _filter_line (b1 ++ "|" :: b2 ++ X) = true
  /\ _line_to_row (b1 ++ "|" :: b2 ++ X)
     = inl (NavigationTableParseError
              (lit "Invalid table row, line=" ++ repr (b1 ++ "|" :: b2 ++ X))).
Proof.
  intros Hb1 Hb2 HX.
  assert (Hn : re_match _ROW_PATTERN (b1 ++ "|" :: b2 ++ X) = None).
  { destruct (re_match _ROW_PATTERN (b1 ++ "|" :: b2 ++ X)) as [m|] eqn:Hm;
      [exfalso|reflexivity].
    destruct (row_match_inv _ Hm)
      as (w & L & P & T & K & rest & E & _ & Hw & (HL & HLd) & _).
    destruct L as [|d L]; [contradiction|]. inversion HLd; subst.
    unfold row_text in E. normalize_text E.
    apply blank_run_unique in E;
      [|exact Hb1|apply Hw|reflexivity|reflexivity].
    destruct E as (_ & _ & E).
    apply (@run_unique is_space) in E.
    - destruct E as [_ ->]. simpl in HX. apply orb_false_iff in HX.
      destruct HX. congruence.
    - exact Hb2.
    - apply Hw.
    - destruct X as [|c X]; simpl in *; [exact I|].
      now apply orb_false_iff in HX.
    - simpl. now apply digit_not_space. }
  split.
  - rewrite filter_line_spec. unfold is_row. now rewrite Hn.
  - unfold _line_to_row. now rewrite Hn.
Qed.

Lemma row_needs_digit_level_witness :
  _filter_line (lit "  " ++ "|" :: lit " " ++ lit "-1 | a | [A]() |") = true
  /\ _line_to_row (lit "  " ++ "|" :: lit " " ++ lit "-1 | a | [A]() |")
     = inl (NavigationTableParseError
              (lit "Invalid table row, line="
               ++ repr (lit "  " ++ "|" :: lit " " ++ lit "-1 | a | [A]() |"))).
Proof.
  apply row_needs_digit_level.
  - repeat constructor.
  - repeat constructor.
  - reflexivity.
Defined.

(** X15. The title is the shortest one. When [_line_to_row] reads the
    cells L, P, T, K from a line, with a title T that does not begin
    with a space, then every other way to lay the line out as a row with
    a title that does not begin with a space has the same level and
    path, and a title that begins with T. *)
Theorem title_is_shortest (w w2 : nat -> str) (L P T K rest L2 P2 T2 K2 rest2 : str) :
  blanks w -> cells L P T K -> hd " " T <> " " ->
  _line_to_row (row_text w L P T K ++ rest) = inr (row_of (decimal_value L) P T K) ->
  blanks w2 -> cells L2 P2 T2 K2 -> hd " " T2 <> " " ->
  row_text w L P T K ++ rest = row_text w2 L2 P2 T2 K2 ++ rest2 ->
  L2 = L /\ P2 = P /\ exists e, T2 = T ++ e.
Proof.
  intros Hw Hc Hhd Hrow Hw2 Hc2 Hhd2 E.
  destruct (@parsed_cells w L P T K rest Hw Hc Hrow) as (m & Hm & Hg).
  destruct Hc as ((HL & HLd) & (HP & HPp) & (HT & HTt) & HK).
  destruct Hc2 as ((HL2 & HLd2) & (HP2 & HPp2) & (HT2 & HTt2) & HK2).
  rewrite row_text_front in Hm.
  destruct (@title_read w L P Hw HL HLd HP HPp (w 6) T _ m K (Hw 6) Hhd HTt Hm Hg)
    as (_ & Hmin).
  rewrite !row_text_front in E.
  eapply front_text_unique in E; eauto. destruct E as (-> & -> & E).
  split; [reflexivity|]. split; [reflexivity|].
  apply (@run_unique is_space) in E;
    [|apply Hw|apply Hw2|now apply title_starts_not|now apply title_starts_not].
  destruct E as [_ E].
  apply app_eq_app in E. destruct E as (e & [[E1 E2]|[E1 E2]]).
  - (* T = T2 ++ e *)
    destruct e as [|c e]; [exists []; rewrite app_nil_r in E1; now rewrite app_nil_r|].
    exfalso. refine (Hmin T2 (c :: e) E1 HT2 _ K2 rest2 _); [discriminate|].
    exists w2. split; [exact Hw2|]. split; [exact HK2|]. symmetry. exact E2.
  - exists e. exact E1.
Qed.

Lemma title_is_shortest_witness :
  lit "1" = lit "1" /\ lit "p" = lit "p" /\ exists e, lit "a]()| b" = lit "a" ++ e.
Proof.
  apply (@title_is_shortest (fun _ => []) (fun _ => [])
           (lit "1") (lit "p") (lit "a") [] (lit " b]()|")
           (lit "1") (lit "p") (lit "a]()| b") [] []).
  - intro i. constructor.
  - unfold cells. repeat split; try discriminate;
      apply forallb_Forall_true; reflexivity.
  - discriminate.
  - vm_compute. reflexivity.
  - intro i. constructor.
  - unfold cells. repeat split; try discriminate;
      apply forallb_Forall_true; reflexivity.
  - discriminate.
  - vm_compute. reflexivity.
Defined.
